(** * FOEDUS core fragment: engine memory, worker threads, retry driver, TPC-E trade order

    A shallow embedding of four source files of the engine:

    - [foedus-core/src/foedus/memory/engine_memory.cpp]   (module [Memory])
    - [foedus-core/src/foedus/thread/thread_pimpl.cpp]    (module [Thread])
    - [tests-core/src/foedus/xct/test_xct_commit_conflict.cpp] (module [Xct])
    - [experiments-core/src/foedus/tpce/tpce_trade_order.cpp]  (module [Tpce])

    Unsigned 64-bit values are integers in [Z] with the wrap-around written
    out ([uint64]); arrays are lists read with [!!] and written with
    [<[i:=x]>]; every function that can stop in another way than by
    returning says so in its result type. *)

From Stdlib Require Import ZArith List String Lia Bool Permutation.
From stdpp Require Import base list.

Open Scope Z_scope.

(** ** Error codes and error stacks *)

Module Errors.

(** The error codes the four files name, and [ERROR_CODE_OTHER] for the
    remaining entries of the engine's error-code table. *)
Inductive ErrorCode : Type :=
| kErrorCodeOk
| ERROR_CODE_OUTOFMEMORY
| ERROR_CODE_DEPEDENT_MODULE_UNAVAILABLE_INIT
| ERROR_CODE_DEPEDENT_MODULE_UNAVAILABLE_UNINIT
| ERROR_CODE_MEMORY_NUMA_UNAVAILABLE
| ERROR_CODE_MEMORY_PAGE_POOL_TOO_SMALL
| ERROR_CODE_XCT_RACE_ABORT
| ERROR_CODE_OTHER (n : nat).

Definition ErrorCode_eqb (a b : ErrorCode) : bool :=
  match a, b with
  | kErrorCodeOk, kErrorCodeOk => true
  | ERROR_CODE_OUTOFMEMORY, ERROR_CODE_OUTOFMEMORY => true
  | ERROR_CODE_DEPEDENT_MODULE_UNAVAILABLE_INIT,
    ERROR_CODE_DEPEDENT_MODULE_UNAVAILABLE_INIT => true
  | ERROR_CODE_DEPEDENT_MODULE_UNAVAILABLE_UNINIT,
    ERROR_CODE_DEPEDENT_MODULE_UNAVAILABLE_UNINIT => true
  | ERROR_CODE_MEMORY_NUMA_UNAVAILABLE, ERROR_CODE_MEMORY_NUMA_UNAVAILABLE => true
  | ERROR_CODE_MEMORY_PAGE_POOL_TOO_SMALL, ERROR_CODE_MEMORY_PAGE_POOL_TOO_SMALL => true
  | ERROR_CODE_XCT_RACE_ABORT, ERROR_CODE_XCT_RACE_ABORT => true
  | ERROR_CODE_OTHER n, ERROR_CODE_OTHER m => Nat.eqb n m
  | _, _ => false
  end.

(** An [ErrorStack] carries an error code (and a trail of source locations,
    which no function here inspects). *)
Record ErrorStack : Type := mkErrorStack { get_error_code : ErrorCode }.

Definition ERROR_STACK (e : ErrorCode) : ErrorStack := mkErrorStack e.
Definition RET_OK : ErrorStack := mkErrorStack kErrorCodeOk.

Definition is_error (e : ErrorStack) : bool :=
  negb (ErrorCode_eqb (get_error_code e) kErrorCodeOk).

Lemma ErrorCode_eqb_eq (a b : ErrorCode) : ErrorCode_eqb a b = true <-> a = b.
Proof.
  destruct a, b; simpl; split; intros H; try congruence; try discriminate.
  - apply Nat.eqb_eq in H. congruence.
  - inversion H. apply Nat.eqb_refl.
Qed.

Lemma is_error_false (e : ErrorStack) : is_error e = false <-> e = RET_OK.
Proof.
  unfold is_error. rewrite negb_false_iff, ErrorCode_eqb_eq.
  destruct e as [c]; simpl. unfold RET_OK. split; congruence.
Qed.

End Errors.

(** ** 64-bit unsigned arithmetic *)

Module Words.

(** [uint64_t] arithmetic wraps modulo 2^64. *)
Definition uint64 (z : Z) : Z := z mod 2 ^ 64.

Lemma uint64_small (z : Z) : 0 <= z < 2 ^ 64 -> uint64 z = z.
Proof. intros H. unfold uint64. apply Z.mod_small. exact H. Qed.

Lemma uint64_mul_l (a b : Z) : uint64 (uint64 a * b) = uint64 (a * b).
Proof. unfold uint64. apply Z.mul_mod_idemp_l. lia. Qed.

Lemma uint64_add_l (a b : Z) : uint64 (uint64 a + b) = uint64 (a + b).
Proof. unfold uint64. apply Z.add_mod_idemp_l. lia. Qed.

End Words.

(** ** Engine memory ([engine_memory.cpp]) *)

Module Memory.
Import Errors Words.

(** [EngineOptions]: the fields [initialize_once] reads.  Their declared
    widths are in [engine_options.hpp]; here they are integers and every
    [uint64_t] expression of the source wraps explicitly. *)
Record ThreadOptions : Type := mkThreadOptions {
  group_count_ : Z;
  thread_count_per_group_ : Z }.

Record MemoryOptions : Type := mkMemoryOptions {
  page_pool_size_mb_per_node_ : Z;
  private_page_pool_initial_grab_ : Z }.

Record EngineOptions : Type := mkEngineOptions {
  thread_ : ThreadOptions;
  memory_ : MemoryOptions }.

(** A node's page-pool resolver: [base_], [begin_], [end_]. *)
Record LocalPageResolver : Type := mkLocalPageResolver {
  base_ : Z;
  begin_ : Z;
  end_ : Z }.

Record NumaNodeMemory : Type := mkNumaNodeMemory {
  numa_node_ : nat;
  get_resolver : LocalPageResolver }.

Record GlobalPageResolver : Type := mkGlobalPageResolver {
  bases_ : list Z;
  numa_node_count_ : nat;
  global_begin_ : Z;
  global_end_ : Z }.

Record EngineMemory : Type := mkEngineMemory {
  node_memories_ : list NumaNodeMemory;
  global_page_resolver_ : GlobalPageResolver }.

(** What [initialize_once] consults outside its own object: the debugging
    module, libnuma, the options, and what [NumaNodeMemory::initialize]
    does for each node (its [ErrorStack], and the resolver the node's page
    pool exposes afterwards). *)
Record Engine : Type := mkEngine {
  debug_is_initialized : bool;
  numa_available : Z;
  get_options : EngineOptions;
  node_initialize : nat -> ErrorStack * LocalPageResolver }.

(** How a call ends: it returns an [ErrorStack], an [ASSERT_ND] fails, or
    the write to [bases[256]] leaves the array. *)
Inductive Outcome : Type :=
| Returned (e : ErrorStack)
| AssertionFailed
| OutOfBounds.

(** The locals of the node loop. *)
Record NodeLoop : Type := mkNodeLoop {
  memories : list NumaNodeMemory;
  bases : list Z;
  page_offset_begin : Z;
  page_offset_end : Z }.

Section InitializeOnce.

(** [storage::PAGE_SIZE] is declared in [storage_id.hpp]. *)
Variable PAGE_SIZE : Z.

(** The conversion of an integer to [thread::ThreadGroupId], the type of
    [numa_nodes] and of the loop counter [node]; the type is declared in
    [thread_id.hpp].  For an unsigned type of [w] bits it is
    [fun v => v mod 2 ^ w]. *)
Variable to_ThreadGroupId : Z -> Z.

(** [ASSERT_ND] is the engine's wrapper of [assert]: it stops the process
    when its condition is false, and expands to nothing when the build
    defines [NDEBUG]. *)
Variable NDEBUG : bool.

Definition ASSERT_ND (cond : bool) : bool := NDEBUG || cond.

Definition total_threads (options : EngineOptions) : Z :=
  uint64 (group_count_ (thread_ options) * thread_count_per_group_ (thread_ options)).

Definition minimal_page_pool (options : EngineOptions) : Z :=
  uint64 (uint64 (total_threads options
                  * private_page_pool_initial_grab_ (memory_ options))
          * PAGE_SIZE).

(** [static_cast<uint64_t>(page_pool_size_mb_per_node_) * group_count_ << 20] *)
Definition page_pool_bytes (options : EngineOptions) : Z :=
  uint64 (Z.shiftl (uint64 (uint64 (page_pool_size_mb_per_node_ (memory_ options))
                            * group_count_ (thread_ options))) 20).

(** [thread::ThreadGroupId numa_nodes = options.thread_.group_count_;] *)
Definition numa_nodes_of (options : EngineOptions) : nat :=
  Z.to_nat (to_ThreadGroupId (group_count_ (thread_ options))).

(** One round of [for (node = 0; node < numa_nodes; ++node)]: the locals
    after it, and how the function stops when the round leaves it.  The
    node memory is pushed before it is initialized, so it stays in
    [node_memories_] when its initialization fails. *)
Definition node_body (engine : Engine) (node : nat) (s : NodeLoop)
  : option Outcome * NodeLoop :=
  let '(init_result, resolver) := node_initialize engine node in
  let node_memory := mkNumaNodeMemory node resolver in
  let s1 := mkNodeLoop (memories s ++ [node_memory]) (bases s)
                       (page_offset_begin s) (page_offset_end s) in
  if is_error init_result then
    (Some (Returned init_result), s1)
  else if negb (node <? 256)%nat then
    (Some OutOfBounds, s1)
  else
    let s2 := mkNodeLoop (memories s1) (<[node := base_ resolver]> (bases s1))
                         (page_offset_begin s1) (page_offset_end s1) in
    if (node =? 0)%nat then
      (None, mkNodeLoop (memories s2) (bases s2) (begin_ resolver) (end_ resolver))
    else if negb (ASSERT_ND (page_offset_begin s2 =? begin_ resolver)) then
      (Some AssertionFailed, s2)
    else if negb (ASSERT_ND (page_offset_end s2 =? end_ resolver)) then
      (Some AssertionFailed, s2)
    else
      (None, s2).

(** The loop, by recursion on the number of nodes still to visit.  The
    counter stays below [numa_nodes], a value of its own type, so [++node]
    never wraps. *)
Fixpoint node_loop (engine : Engine) (remaining node : nat) (s : NodeLoop)
  : option Outcome * NodeLoop :=
  match remaining with
  | O => (None, s)
  | S remaining' =>
      match node_body engine node s with
      | (Some stop, s') => (Some stop, s')
      | (None, s') => node_loop engine remaining' (S node) s'
      end
  end.

Definition initialize_once (engine : Engine) (m : EngineMemory)
  : Outcome * EngineMemory :=
  if negb (debug_is_initialized engine) then
    (Returned (ERROR_STACK ERROR_CODE_DEPEDENT_MODULE_UNAVAILABLE_INIT), m)
  else if numa_available engine <? 0 then
    (Returned (ERROR_STACK ERROR_CODE_MEMORY_NUMA_UNAVAILABLE), m)
  else if negb (ASSERT_ND (match node_memories_ m with [] => true | _ => false end)) then
    (AssertionFailed, m)
  else
    let options := get_options engine in
    if page_pool_bytes options <? minimal_page_pool options then
      (Returned (ERROR_STACK ERROR_CODE_MEMORY_PAGE_POOL_TOO_SMALL), m)
    else
      let numa_nodes := numa_nodes_of options in
      (* [bases[256]] starts uninitialized; only written entries are read *)
      let start := mkNodeLoop (node_memories_ m) (replicate 256 0) 0 0 in
      match node_loop engine numa_nodes 0 start with
      | (Some stop, s) =>
          (stop, mkEngineMemory (memories s) (global_page_resolver_ m))
      | (None, s) =>
          (Returned RET_OK,
           mkEngineMemory (memories s)
             (mkGlobalPageResolver (take numa_nodes (bases s)) numa_nodes
                                   (page_offset_begin s) (page_offset_end s)))
      end.

End InitializeOnce.

(** [thread::ThreadGroupId] as an unsigned type of eight bits, the widest
    whose every value indexes [bases[256]]. *)
Definition uint8_ThreadGroupId (v : Z) : Z := v mod 2 ^ 8.

(** The same engine with another [page_pool_size_mb_per_node_]. *)
Definition with_page_pool_size_mb (mb : Z) (engine : Engine) : Engine :=
  let options := get_options engine in
  mkEngine (debug_is_initialized engine) (numa_available engine)
    (mkEngineOptions (thread_ options)
       (mkMemoryOptions mb (private_page_pool_initial_grab_ (memory_ options))))
    (node_initialize engine).

(** The resolver bounds of a node, as [NumaNodeMemory::initialize] leaves them. *)
Definition node_bounds (engine : Engine) (node : nat) : Z * Z :=
  let resolver := snd (node_initialize engine node) in
  (begin_ resolver, end_ resolver).

Definition resolver_bounds (nm : NumaNodeMemory) : Z * Z :=
  (begin_ (get_resolver nm), end_ (get_resolver nm)).

(** With eight bits every node index is within [bases[256]]. *)
Lemma uint8_numa_nodes_fit (options : EngineOptions) :
  (numa_nodes_of uint8_ThreadGroupId options < 256)%nat.
Proof.
  unfold numa_nodes_of, uint8_ThreadGroupId.
  pose proof (Z.mod_pos_bound (group_count_ (thread_ options)) (2 ^ 8) ltac:(lia)).
  lia.
Qed.

(** *** Arithmetic of the sizing check *)

Lemma minimal_page_pool_exact (PAGE_SIZE : Z) (options : EngineOptions) :
  let product := group_count_ (thread_ options)
                 * thread_count_per_group_ (thread_ options)
                 * private_page_pool_initial_grab_ (memory_ options)
                 * PAGE_SIZE in
  0 <= product < 2 ^ 64 ->
  minimal_page_pool PAGE_SIZE options = product.
Proof.
  intros product H. unfold minimal_page_pool, total_threads.
  rewrite uint64_mul_l, <- Z.mul_assoc, uint64_mul_l, Z.mul_assoc.
  apply uint64_small. exact H.
Qed.

Lemma page_pool_bytes_exact (options : EngineOptions) :
  let product := page_pool_size_mb_per_node_ (memory_ options)
                 * group_count_ (thread_ options) * 2 ^ 20 in
  0 <= product < 2 ^ 64 ->
  page_pool_bytes options = product.
Proof.
  intros product H. unfold page_pool_bytes.
  rewrite Z.shiftl_mul_pow2 by lia.
  rewrite uint64_mul_l, <- Z.mul_assoc, uint64_mul_l, Z.mul_assoc.
  apply uint64_small. exact H.
Qed.

(** The configured pool is a whole number of MiB: no setting of the
    options makes it one byte smaller. *)
Lemma page_pool_bytes_whole_mebibytes (options : EngineOptions) :
  page_pool_bytes options mod 2 ^ 20 = 0.
Proof.
  unfold page_pool_bytes, uint64. rewrite Z.shiftl_mul_pow2 by lia.
  rewrite Z.mod_mod_divide by (exists (2 ^ 44); reflexivity).
  apply Z.mod_mul. lia.
Qed.

(** *** The node loop *)

Lemma node_loop_memories_grow PAGE_NDEBUG engine remaining :
  forall node s r s',
    node_loop PAGE_NDEBUG engine (S remaining) node s = (r, s') ->
    memories s' <> [].
Proof.
  induction remaining as [|remaining IH]; intros node s r s' H.
  - simpl in H. unfold node_body in H.
    destruct (node_initialize engine node) as [init_result resolver].
    repeat (match type of H with
            | context [if ?c then _ else _] => destruct c
            end); inversion H; subst; simpl; intros E;
      apply app_eq_nil in E; destruct E; discriminate.
  - cbn [node_loop] in H.
    destruct (node_body PAGE_NDEBUG engine node s) as [[stop|] s1] eqn:Hb.
    + inversion H; subst. unfold node_body in Hb.
      destruct (node_initialize engine node) as [init_result resolver].
      repeat (match type of Hb with
              | context [if ?c then _ else _] => destruct c
              end); inversion Hb; subst; simpl; intros E;
        apply app_eq_nil in E; destruct E; discriminate.
    + eapply IH. exact H.
Qed.

(** What the loop has established after visiting [node] nodes in a build
    with [ASSERT_ND] active. *)
Definition visited (engine : Engine) (node : nat) (s : NodeLoop) : Prop :=
  length (memories s) = node /\
  (forall i nm, memories s !! i = Some nm ->
                numa_node_ nm = i /\ get_resolver nm = snd (node_initialize engine i)) /\
  (forall i nm, memories s !! i = Some nm ->
                resolver_bounds nm = (page_offset_begin s, page_offset_end s)).

Lemma node_body_visited engine node s s' :
  visited engine node s ->
  node_body false engine node s = (None, s') ->
  visited engine (S node) s'.
Proof.
  intros (Hlen & Hres & Hb) H. unfold node_body, ASSERT_ND in H.
  destruct (node_initialize engine node) as [init_result resolver] eqn:Hinit.
  destruct (is_error init_result); [discriminate|].
  destruct (negb (node <? 256)%nat); [discriminate|].
  destruct (node =? 0)%nat eqn:Hz.
  - apply Nat.eqb_eq in Hz. rewrite Hz in *. clear Hz node.
    inversion H; subst; clear H. simpl.
    destruct (memories s) as [|x l]; [|discriminate]. simpl.
    split; [reflexivity|]. split.
    + intros [|i] nm Hl; simpl in Hl; [|discriminate].
      inversion Hl; subst. simpl. rewrite Hinit. auto.
    + intros [|i] nm Hl; simpl in Hl; [|discriminate].
      inversion Hl; subst. reflexivity.
  - simpl in H.
    destruct (page_offset_begin s =? begin_ resolver) eqn:E1; [|discriminate].
    destruct (page_offset_end s =? end_ resolver) eqn:E2; [|discriminate].
    apply Z.eqb_eq in E1, E2. inversion H; subst; clear H.
    unfold visited. simpl.
    split; [rewrite length_app; simpl; lia|]. split.
    + intros i nm Hl. apply lookup_app_Some in Hl.
      destruct Hl as [Hl|[Hge Hl]]; [auto|].
      destruct (i - length (memories s))%nat eqn:Hd; simpl in Hl; [|discriminate].
      inversion Hl; subst. simpl. assert (i = length (memories s)) as -> by lia.
      rewrite Hinit. auto.
    + intros i nm Hl. apply lookup_app_Some in Hl.
      destruct Hl as [Hl|[Hge Hl]]; [exact (Hb i nm Hl)|].
      destruct (i - length (memories s))%nat eqn:Hd; simpl in Hl; [|discriminate].
      inversion Hl; subst. unfold resolver_bounds. simpl. congruence.
Qed.

Lemma node_loop_visited engine remaining :
  forall node s s',
    visited engine node s ->
    node_loop false engine remaining node s = (None, s') ->
    visited engine (node + remaining) s'.
Proof.
  induction remaining as [|remaining IH]; intros node s s' Hv H.
  - simpl in H. inversion H; subst. rewrite Nat.add_0_r. exact Hv.
  - cbn [node_loop] in H.
    destruct (node_body false engine node s) as [[stop|] s1] eqn:Hb; [discriminate|].
    replace (node + S remaining)%nat with (S node + remaining)%nat by lia.
    eapply IH; [|exact H]. eapply node_body_visited; eassumption.
Qed.

Lemma node_loop_stop_not_ok NDEBUG engine remaining :
  forall node s stop s',
    node_loop NDEBUG engine remaining node s = (Some stop, s') ->
    stop <> Returned RET_OK.
Proof.
  induction remaining as [|remaining IH]; intros node s stop s' H.
  - discriminate.
  - cbn [node_loop] in H.
    destruct (node_body NDEBUG engine node s) as [[stop1|] s1] eqn:Hb.
    + inversion H; subst. unfold node_body in Hb.
      destruct (node_initialize engine node) as [init_result resolver].
      destruct (is_error init_result) eqn:He.
      * inversion Hb; subst. intros E. inversion E; subst. discriminate.
      * repeat (match type of Hb with
                | context [if ?c then _ else _] => destruct c
                end); inversion Hb; subst; discriminate.
    + eapply IH. exact H.
Qed.

(** With every node initializing without error, the loop in an
    assertion-checking build does not run to its end when some bounds
    differ from node 0's: it stops on the failed assertion, unless the
    write past [bases[256]] comes first. *)
Lemma node_loop_mismatch engine remaining :
  forall node s,
    (0 < node)%nat ->
    (forall i, (i < node + remaining)%nat ->
               is_error (fst (node_initialize engine i)) = false) ->
    (exists i, (node <= i < node + remaining)%nat /\
               node_bounds engine i <> (page_offset_begin s, page_offset_end s)) ->
    fst (node_loop false engine remaining node s) = Some AssertionFailed
    \/ ((256 < node + remaining)%nat
        /\ fst (node_loop false engine remaining node s) = Some OutOfBounds).
Proof.
  induction remaining as [|remaining IH]; intros node s Hpos Hok (i & Hi & Hne).
  - lia.
  - cbn [node_loop]. unfold node_body, ASSERT_ND.
    pose proof (Hok node ltac:(lia)) as Hn. unfold node_bounds in *.
    destruct (node_initialize engine node) as [init_result resolver] eqn:Hinit.
    cbn [fst] in Hn. rewrite Hn.
    destruct (Nat.ltb_spec node 256) as [Hlt|Hge]; cbn [negb].
    2: { right. split; [lia|reflexivity]. }
    assert ((node =? 0)%nat = false) as -> by (apply Nat.eqb_neq; lia).
    cbn [orb memories bases page_offset_begin page_offset_end].
    destruct (page_offset_begin s =? begin_ resolver) eqn:E1;
      [|left; reflexivity].
    destruct (page_offset_end s =? end_ resolver) eqn:E2;
      [|left; reflexivity].
    cbn [negb]. apply Z.eqb_eq in E1, E2.
    destruct (IH (S node)
                (mkNodeLoop (memories s ++ [mkNumaNodeMemory node resolver])
                   (<[node := base_ resolver]> (bases s))
                   (page_offset_begin s) (page_offset_end s))) as [H|[H1 H2]].
    + lia.
    + intros j Hj. apply Hok. lia.
    + exists i. cbn [page_offset_begin page_offset_end]. split; [|exact Hne].
      destruct (Nat.eq_dec i node) as [->|]; [|lia].
      exfalso. apply Hne. rewrite Hinit. cbn [snd]. congruence.
    + left. exact H.
    + right. split; [lia|exact H2].
Qed.

(** Without the assertions, nothing but a failed initialization or the
    write past [bases[256]] stops the loop. *)
Lemma node_loop_unchecked engine remaining :
  forall node s,
    (forall i, (node <= i < node + remaining)%nat ->
               is_error (fst (node_initialize engine i)) = false) ->
    fst (node_loop true engine remaining node s) = None
    \/ ((256 < node + remaining)%nat
        /\ fst (node_loop true engine remaining node s) = Some OutOfBounds).
Proof.
  induction remaining as [|remaining IH]; intros node s Hok.
  - left. reflexivity.
  - cbn [node_loop]. unfold node_body, ASSERT_ND.
    pose proof (Hok node ltac:(lia)) as Hn.
    destruct (node_initialize engine node) as [init_result resolver] eqn:Hinit.
    cbn [fst] in Hn. rewrite Hn.
    destruct (Nat.ltb_spec node 256) as [Hlt|Hge]; cbn [negb].
    2: { right. split; [lia|reflexivity]. }
    cbn [orb negb memories bases page_offset_begin page_offset_end].
    destruct (node =? 0)%nat;
      (match goal with
       | |- context [node_loop true engine remaining (S node) ?s1] =>
           destruct (IH (S node) s1) as [H|[H1 H2]];
             [intros j Hj; apply Hok; lia
             |left; exact H
             |right; split; [lia|exact H2]]
       end).
Qed.

Lemma node_loop_never_asserts engine remaining :
  forall node s stop s',
    node_loop true engine remaining node s = (Some stop, s') ->
    stop <> AssertionFailed.
Proof.
  induction remaining as [|remaining IH]; intros node s stop s' H; [discriminate|].
  cbn [node_loop] in H.
  destruct (node_body true engine node s) as [[stop1|] s1] eqn:Hb.
  - inversion H; subst. unfold node_body, ASSERT_ND in Hb.
    destruct (node_initialize engine node) as [init_result resolver].
    cbn [orb negb] in Hb.
    repeat (match type of Hb with
            | context [if ?c then _ else _] => destruct c
            end); inversion Hb; subst; discriminate.
  - eapply IH. exact H.
Qed.

(** In any build, once node 0 is done the loop's bounds are node 0's. *)
Lemma node_loop_first_bounds NDEBUG engine remaining :
  forall node s s',
    ((0 < node)%nat ->
     (page_offset_begin s, page_offset_end s) = node_bounds engine 0) ->
    node_loop NDEBUG engine remaining node s = (None, s') ->
    (0 < node + remaining)%nat ->
    (page_offset_begin s', page_offset_end s') = node_bounds engine 0.
Proof.
  induction remaining as [|remaining IH]; intros node s s' Hfirst H Hpos.
  - cbn in H. inversion H; subst. apply Hfirst. lia.
  - cbn [node_loop] in H.
    destruct (node_body NDEBUG engine node s) as [[stop|] s1] eqn:Hb; [discriminate|].
    apply (IH (S node) s1 s'); [|exact H|lia].
    intros _. unfold node_body in Hb.
    destruct (node_initialize engine node) as [init_result resolver] eqn:Hinit.
    destruct (is_error init_result); [discriminate|].
    destruct (negb (node <? 256)%nat); [discriminate|].
    cbn [memories bases page_offset_begin page_offset_end] in Hb.
    destruct (Nat.eqb_spec node 0) as [->|Hne].
    + inversion Hb; subst. cbn [page_offset_begin page_offset_end].
      unfold node_bounds. rewrite Hinit. reflexivity.
    + destruct (negb (ASSERT_ND NDEBUG (page_offset_begin s =? begin_ resolver)));
        [discriminate|].
      destruct (negb (ASSERT_ND NDEBUG (page_offset_end s =? end_ resolver)));
        [discriminate|].
      inversion Hb; subst. cbn [page_offset_begin page_offset_end].
      apply Hfirst. lia.
Qed.

(** The same from the start of the loop. *)
Lemma node_loop_mismatch_from_start engine numa_nodes s :
  (forall i, (i < numa_nodes)%nat ->
             is_error (fst (node_initialize engine i)) = false) ->
  (exists i, (i < numa_nodes)%nat /\ node_bounds engine i <> node_bounds engine 0) ->
  fst (node_loop false engine numa_nodes 0 s) = Some AssertionFailed
  \/ ((256 < numa_nodes)%nat
      /\ fst (node_loop false engine numa_nodes 0 s) = Some OutOfBounds).
Proof.
  intros Hok (node & Hlt & Hne).
  destruct numa_nodes as [|n]; [lia|].
  assert (exists s1, node_body false engine 0 s = (None, s1)
                     /\ (page_offset_begin s1, page_offset_end s1)
                        = node_bounds engine 0) as (s1 & Hbody & Hfirst).
  { unfold node_body, node_bounds. pose proof (Hok 0%nat ltac:(lia)) as H0.
    destruct (node_initialize engine 0) as [init0 res0].
    cbn [fst] in H0. rewrite H0.
    cbn [Nat.ltb Nat.leb negb Nat.eqb]. eexists. split; reflexivity. }
  cbn [node_loop]. rewrite Hbody.
  destruct (node_loop_mismatch engine n 1 s1) as [H|[Hmany H]].
  - lia.
  - intros i Hi. apply Hok. lia.
  - exists node. split.
    + destruct node; [exfalso; apply Hne; reflexivity|lia].
    + rewrite Hfirst. exact Hne.
  - left. exact H.
  - right. split; [lia|exact H].
Qed.

(** Past its checks, [initialize_once] ends as the node loop does. *)
Lemma initialize_once_past_checks PAGE_SIZE to_ThreadGroupId NDEBUG engine m :
  debug_is_initialized engine = true ->
  0 <= numa_available engine ->
  NDEBUG = true \/ node_memories_ m = [] ->
  minimal_page_pool PAGE_SIZE (get_options engine)
    <= page_pool_bytes (get_options engine) ->
  fst (initialize_once PAGE_SIZE to_ThreadGroupId NDEBUG engine m)
  = match fst (node_loop NDEBUG engine
                 (numa_nodes_of to_ThreadGroupId (get_options engine)) 0
                 (mkNodeLoop (node_memories_ m) (replicate 256 0) 0 0)) with
    | Some stop => stop
    | None => Returned RET_OK
    end.
Proof.
  intros Hd Hn Hm Hsz. unfold initialize_once. rewrite Hd. cbn [negb].
  assert ((numa_available engine <? 0) = false) as -> by (apply Z.ltb_ge; lia).
  assert ((page_pool_bytes (get_options engine)
           <? minimal_page_pool PAGE_SIZE (get_options engine)) = false) as ->
      by (apply Z.ltb_ge; lia).
  assert (ASSERT_ND NDEBUG match node_memories_ m with [] => true | _ => false end
          = true) as ->.
  { unfold ASSERT_ND. destruct Hm as [->| ->]; [reflexivity|apply orb_true_r]. }
  cbn [negb]. destruct (node_loop NDEBUG engine _ 0 _) as [[stop|] s']; reflexivity.
Qed.

(** *** The sizing check *)

(** [initialize_once] stops at the sizing check: it returns the
    page-pool-too-small error and has constructed no node memory. *)
Definition stops_page_pool_too_small
    (PAGE_SIZE : Z) (to_ThreadGroupId : Z -> Z) (NDEBUG : bool)
    (engine : Engine) (m : EngineMemory) : Prop :=
  fst (initialize_once PAGE_SIZE to_ThreadGroupId NDEBUG engine m)
    = Returned (ERROR_STACK ERROR_CODE_MEMORY_PAGE_POOL_TOO_SMALL)
  /\ node_memories_ (snd (initialize_once PAGE_SIZE to_ThreadGroupId NDEBUG engine m))
     = [].

Lemma sizing_check_decides PAGE_SIZE to_ThreadGroupId NDEBUG engine m :
  debug_is_initialized engine = true ->
  0 <= numa_available engine ->
  node_memories_ m = [] ->
  stops_page_pool_too_small PAGE_SIZE to_ThreadGroupId NDEBUG engine m
  <-> (page_pool_bytes (get_options engine)
       < minimal_page_pool PAGE_SIZE (get_options engine)).
Proof.
  intros Hd Hn Hm. unfold stops_page_pool_too_small, initialize_once.
  rewrite Hd, Hm. cbn [negb].
  assert ((numa_available engine <? 0) = false) as -> by (apply Z.ltb_ge; lia).
  unfold ASSERT_ND. rewrite orb_true_r. cbn [negb].
  destruct (page_pool_bytes (get_options engine)
            <? minimal_page_pool PAGE_SIZE (get_options engine)) eqn:E.
  - apply Z.ltb_lt in E. cbn [fst snd]. rewrite Hm. tauto.
  - apply Z.ltb_ge in E. split; [|lia]. intros [Hr Hmem]. exfalso.
    destruct (numa_nodes_of to_ThreadGroupId (get_options engine)) as [|n] eqn:Hc.
    + cbn [node_loop fst] in Hr. discriminate.
    + destruct (node_loop NDEBUG engine (S n) 0
                  (mkNodeLoop [] (replicate 256 0) 0 0)) as [[stop|] s'] eqn:Hl;
        cbn [snd node_memories_] in Hmem; eapply node_loop_memories_grow; eauto.
Qed.

(** C4 (as amended).  Once the debugging module and NUMA checks have passed
    on a fresh engine memory, [initialize_once] stops with
    page-pool-too-small, before constructing any node memory, exactly when
    the configured pool, [page_pool_size_mb_per_node_ * group_count_] MiB
    counted in bytes, is strictly below
    [group_count_ * thread_count_per_group_ * initial_grab * PAGE_SIZE]
    (both fitting 64 bits); at equality the check passes, and the next
    smaller setting, one MiB less per node, fails it. *)
Theorem initialize_once_page_pool_sizing
    (PAGE_SIZE : Z) (to_ThreadGroupId : Z -> Z) (NDEBUG : bool)
    (engine : Engine) (m : EngineMemory) :
  let options := get_options engine in
  let gc := group_count_ (thread_ options) in
  let tc := thread_count_per_group_ (thread_ options) in
  let mb := page_pool_size_mb_per_node_ (memory_ options) in
  let grab := private_page_pool_initial_grab_ (memory_ options) in
  debug_is_initialized engine = true ->
  0 <= numa_available engine ->
  node_memories_ m = [] ->
  0 <= mb * gc * 2 ^ 20 < 2 ^ 64 ->
  0 <= gc * tc * grab * PAGE_SIZE < 2 ^ 64 ->
  (stops_page_pool_too_small PAGE_SIZE to_ThreadGroupId NDEBUG engine m
   <-> (mb * gc * 2 ^ 20 < gc * tc * grab * PAGE_SIZE))
  /\ (mb * gc * 2 ^ 20 = gc * tc * grab * PAGE_SIZE ->
      ~ stops_page_pool_too_small PAGE_SIZE to_ThreadGroupId NDEBUG engine m)
  /\ (mb * gc * 2 ^ 20 = gc * tc * grab * PAGE_SIZE -> 1 <= mb -> 1 <= gc ->
      stops_page_pool_too_small PAGE_SIZE to_ThreadGroupId NDEBUG
        (with_page_pool_size_mb (mb - 1) engine) m).
Proof.
  intros options gc tc mb grab Hd Hn Hm Hpool Hmin.
  pose proof (sizing_check_decides PAGE_SIZE to_ThreadGroupId NDEBUG engine m
                Hd Hn Hm) as Hiff.
  rewrite (minimal_page_pool_exact PAGE_SIZE (get_options engine) Hmin) in Hiff.
  rewrite (page_pool_bytes_exact (get_options engine) Hpool) in Hiff.
  fold options gc tc mb grab in Hiff.
  split; [exact Hiff|]. split.
  - intros Heq Hstop. apply Hiff in Hstop. lia.
  - intros Heq Hmb Hgc.
    apply (sizing_check_decides PAGE_SIZE to_ThreadGroupId NDEBUG
             (with_page_pool_size_mb (mb - 1) engine) m); [exact Hd|exact Hn|exact Hm|].
    unfold with_page_pool_size_mb. simpl.
    rewrite minimal_page_pool_exact; simpl; fold options tc gc grab; [|exact Hmin].
    rewrite page_pool_bytes_exact; simpl; fold options gc; nia.
Qed.

(** *** Resolver bounds *)

(** C5 (as amended).  The number of nodes is [group_count_] converted to
    [thread::ThreadGroupId].  In a build where [ASSERT_ND] is active,
    [initialize_once] returns ok only with one node memory per node, each
    with the resolver its initialization produced, all with the bounds the
    global resolver takes from node 0; and when the earlier checks pass,
    every node initializes and some node's bounds differ from node 0's, the
    call does not return: it ends on the failed assertion, or, when there
    are more than 256 nodes, possibly on the write past [bases[256]].  In a
    build that defines [NDEBUG] the equality is not checked: no assertion
    stops the call, under the same conditions on the checks and the nodes
    it returns ok whatever the bounds (or ends on that write when there
    are more than 256 nodes), and on ok the global resolver has node 0's
    bounds. *)
Theorem initialize_once_resolver_bounds
    (PAGE_SIZE : Z) (to_ThreadGroupId : Z -> Z) (engine : Engine) (m : EngineMemory) :
  let numa_nodes := numa_nodes_of to_ThreadGroupId (get_options engine) in
  let r := initialize_once PAGE_SIZE to_ThreadGroupId false engine m in
  let unchecked := initialize_once PAGE_SIZE to_ThreadGroupId true engine m in
  (fst r = Returned RET_OK ->
     length (node_memories_ (snd r)) = numa_nodes
     /\ (forall node nm,
           node_memories_ (snd r) !! node = Some nm ->
           get_resolver nm = snd (node_initialize engine node)
           /\ resolver_bounds nm = node_bounds engine 0%nat
           /\ resolver_bounds nm = (global_begin_ (global_page_resolver_ (snd r)),
                                    global_end_ (global_page_resolver_ (snd r)))))
  /\ (debug_is_initialized engine = true ->
      0 <= numa_available engine ->
      node_memories_ m = [] ->
      minimal_page_pool PAGE_SIZE (get_options engine)
        <= page_pool_bytes (get_options engine) ->
      (forall node, (node < numa_nodes)%nat ->
                    is_error (fst (node_initialize engine node)) = false) ->
      (exists node, (node < numa_nodes)%nat /\
                    node_bounds engine node <> node_bounds engine 0%nat) ->
      fst r = AssertionFailed
      \/ ((256 < numa_nodes)%nat /\ fst r = OutOfBounds))
  /\ fst unchecked <> AssertionFailed
  /\ (fst unchecked = Returned RET_OK ->
      (0 < numa_nodes)%nat ->
      (global_begin_ (global_page_resolver_ (snd unchecked)),
       global_end_ (global_page_resolver_ (snd unchecked))) = node_bounds engine 0%nat)
  /\ (debug_is_initialized engine = true ->
      0 <= numa_available engine ->
      minimal_page_pool PAGE_SIZE (get_options engine)
        <= page_pool_bytes (get_options engine) ->
      (forall node, (node < numa_nodes)%nat ->
                    is_error (fst (node_initialize engine node)) = false) ->
      fst unchecked = Returned RET_OK
      \/ ((256 < numa_nodes)%nat /\ fst unchecked = OutOfBounds)).
Proof.
  intros numa_nodes r unchecked. subst r unchecked.
  split; [|split; [|split; [|split]]].
  - unfold initialize_once. fold numa_nodes.
    destruct (negb (debug_is_initialized engine)); [discriminate|].
    destruct (numa_available engine <? 0); [discriminate|].
    unfold ASSERT_ND. cbn [orb].
    destruct (node_memories_ m) as [|x l] eqn:Hm; [|discriminate]. cbn [negb].
    destruct (page_pool_bytes (get_options engine)
              <? minimal_page_pool PAGE_SIZE (get_options engine)); [discriminate|].
    destruct (node_loop false engine numa_nodes 0
                (mkNodeLoop [] (replicate 256 0) 0 0)) as [[stop|] s'] eqn:Hl;
      cbn [fst snd node_memories_ global_page_resolver_ global_begin_ global_end_].
    + intros E. exfalso. eapply node_loop_stop_not_ok; eauto.
    + intros _.
      assert (visited engine 0 (mkNodeLoop [] (replicate 256 0) 0 0)) as Hv0.
      { split; [reflexivity|]. split; intros i nm Hi; destruct i; discriminate. }
      pose proof (node_loop_visited engine numa_nodes 0 _ _ Hv0 Hl) as (Hlen & Hres & Hb).
      cbn [Nat.add] in Hlen. split; [exact Hlen|].
      intros node nm Hnode.
      destruct (Hres node nm Hnode) as [_ Hr].
      split; [exact Hr|]. split; [|exact (Hb node nm Hnode)].
      rewrite (Hb node nm Hnode).
      assert (is_Some (memories s' !! 0%nat)) as [n0 H0].
      { apply lookup_lt_is_Some. apply lookup_lt_Some in Hnode. lia. }
      rewrite <- (Hb 0%nat n0 H0). unfold resolver_bounds, node_bounds.
      destruct (Hres 0%nat n0 H0) as [_ ->]. reflexivity.
  - intros Hd Hn Hm Hsz Hok Hdiffer.
    rewrite (initialize_once_past_checks PAGE_SIZE to_ThreadGroupId false engine m
               Hd Hn (or_intror Hm) Hsz).
    fold numa_nodes.
    destruct (node_loop_mismatch_from_start engine numa_nodes
                (mkNodeLoop (node_memories_ m) (replicate 256 0) 0 0) Hok Hdiffer)
      as [->|[Hmany ->]]; [left; reflexivity|right; split; [exact Hmany|reflexivity]].
  - unfold initialize_once. fold numa_nodes.
    destruct (negb (debug_is_initialized engine)); [discriminate|].
    destruct (numa_available engine <? 0); [discriminate|].
    unfold ASSERT_ND. cbn [orb negb].
    destruct (page_pool_bytes (get_options engine)
              <? minimal_page_pool PAGE_SIZE (get_options engine)); [discriminate|].
    destruct (node_loop true engine numa_nodes 0 _) as [[stop|] s'] eqn:Hl;
      cbn [fst]; [|discriminate].
    eapply node_loop_never_asserts. exact Hl.
  - unfold initialize_once. fold numa_nodes.
    destruct (negb (debug_is_initialized engine)); [discriminate|].
    destruct (numa_available engine <? 0); [discriminate|].
    unfold ASSERT_ND. cbn [orb negb].
    destruct (page_pool_bytes (get_options engine)
              <? minimal_page_pool PAGE_SIZE (get_options engine)); [discriminate|].
    destruct (node_loop true engine numa_nodes 0 _) as [[stop|] s'] eqn:Hl;
      cbn [fst snd global_page_resolver_ global_begin_ global_end_].
    + intros E. exfalso. eapply node_loop_stop_not_ok; eauto.
    + intros _ Hpos.
      apply (node_loop_first_bounds true engine numa_nodes 0 _ s' ltac:(lia) Hl).
      lia.
  - intros Hd Hn Hsz Hok.
    rewrite (initialize_once_past_checks PAGE_SIZE to_ThreadGroupId true engine m
               Hd Hn (or_introl eq_refl) Hsz).
    fold numa_nodes.
    destruct (node_loop_unchecked engine numa_nodes 0
                (mkNodeLoop (node_memories_ m) (replicate 256 0) 0 0))
      as [->|[Hmany ->]];
      [intros i Hi; apply Hok; lia
      |left; reflexivity
      |right; split; [exact Hmany|reflexivity]].
Qed.

(** *** Concrete engines *)

Definition tiny_resolver (node : nat) : ErrorStack * LocalPageResolver :=
  (RET_OK, mkLocalPageResolver (Z.of_nat node * 4096) 1 256).

(** Node 1's pool ends elsewhere than node 0's. *)
Definition uneven_resolver (node : nat) : ErrorStack * LocalPageResolver :=
  (RET_OK, mkLocalPageResolver (Z.of_nat node * 4096) 1
             (if (node =? 1)%nat then 512 else 256)).

Definition make_options (gc tc mb grab : Z) : EngineOptions :=
  mkEngineOptions (mkThreadOptions gc tc) (mkMemoryOptions mb grab).

Definition empty_engine_memory : EngineMemory :=
  mkEngineMemory [] (mkGlobalPageResolver [] 0 0 0).

(** Two nodes, one thread each, 1 MiB per node, 256 pages grabbed per
    thread: the pool is exactly the minimum. *)
Definition exact_fit_engine : Engine :=
  mkEngine true 0 (make_options 2 1 1 256) tiny_resolver.

Definition uneven_engine : Engine :=
  mkEngine true 0 (make_options 2 1 1 256) uneven_resolver.

(** The debugging module is down and the pool is too small at once. *)
Definition no_debug_engine : Engine :=
  mkEngine false 0 (make_options 1 1 0 1) tiny_resolver.

Lemma initialize_once_page_pool_sizing_witness :
  (stops_page_pool_too_small 4096 uint8_ThreadGroupId false exact_fit_engine
     empty_engine_memory
   <-> (1 * 2 * 2 ^ 20 < 2 * 1 * 256 * 4096))
  /\ (1 * 2 * 2 ^ 20 = 2 * 1 * 256 * 4096 ->
      ~ stops_page_pool_too_small 4096 uint8_ThreadGroupId false exact_fit_engine
          empty_engine_memory)
  /\ (1 * 2 * 2 ^ 20 = 2 * 1 * 256 * 4096 -> 1 <= 1 -> 1 <= 2 ->
      stops_page_pool_too_small 4096 uint8_ThreadGroupId false
        (with_page_pool_size_mb (1 - 1) exact_fit_engine) empty_engine_memory).
Proof.
  apply (initialize_once_page_pool_sizing 4096 uint8_ThreadGroupId false
           exact_fit_engine empty_engine_memory); simpl; try reflexivity; lia.
Defined.

(** C4 as stated fails when an earlier check stops the call: with the
    debugging module down, a pool of 0 bytes against a minimum of 4096 is
    reported as dependent-module-unavailable, not as page-pool-too-small. *)
Lemma page_pool_too_small_not_reported :
  page_pool_bytes (get_options no_debug_engine)
    < minimal_page_pool 4096 (get_options no_debug_engine)
  /\ fst (initialize_once 4096 uint8_ThreadGroupId false no_debug_engine
            empty_engine_memory)
     = Returned (ERROR_STACK ERROR_CODE_DEPEDENT_MODULE_UNAVAILABLE_INIT)
  /\ fst (initialize_once 4096 uint8_ThreadGroupId false no_debug_engine
            empty_engine_memory)
     <> Returned (ERROR_STACK ERROR_CODE_MEMORY_PAGE_POOL_TOO_SMALL).
Proof.
  split; [vm_compute; reflexivity|]. split; [reflexivity|].
  vm_compute. discriminate.
Qed.

Lemma initialize_once_resolver_bounds_witness :
  (length (node_memories_
             (snd (initialize_once 4096 uint8_ThreadGroupId false exact_fit_engine
                     empty_engine_memory)))
   = 2%nat)
  /\ fst (initialize_once 4096 uint8_ThreadGroupId false uneven_engine
            empty_engine_memory)
     = AssertionFailed
  /\ fst (initialize_once 4096 uint8_ThreadGroupId true uneven_engine
            empty_engine_memory)
     = Returned RET_OK.
Proof.
  split; [|split].
  - exact (proj1 (proj1 (initialize_once_resolver_bounds 4096 uint8_ThreadGroupId
                           exact_fit_engine empty_engine_memory) eq_refl)).
  - destruct (proj1 (proj2 (initialize_once_resolver_bounds 4096 uint8_ThreadGroupId
                              uneven_engine empty_engine_memory)))
      as [H|[Hmany _]].
    + reflexivity.
    + cbn. lia.
    + reflexivity.
    + apply Z.leb_le. reflexivity.
    + intros node Hnode. reflexivity.
    + exists 1%nat. split; [vm_compute; lia|]. vm_compute. discriminate.
    + exact H.
    + vm_compute in Hmany. lia.
  - destruct (proj2 (proj2 (proj2 (proj2
               (initialize_once_resolver_bounds 4096 uint8_ThreadGroupId
                  uneven_engine empty_engine_memory)))))
      as [H|[Hmany _]].
    + reflexivity.
    + cbn. lia.
    + apply Z.leb_le. reflexivity.
    + intros node Hnode. reflexivity.
    + exact H.
    + vm_compute in Hmany. lia.
Defined.

(** C5 as stated fails in a build that defines [NDEBUG]: the two nodes'
    pools end at 256 and 512, and [initialize_once] returns ok with the
    global resolver ending at 256. *)
Lemma unequal_bounds_accepted_without_assertions :
  let r := initialize_once 4096 uint8_ThreadGroupId true uneven_engine
             empty_engine_memory in
  fst r = Returned RET_OK
  /\ resolver_bounds <$> node_memories_ (snd r) = [(1, 256); (1, 512)]
  /\ global_end_ (global_page_resolver_ (snd r)) = 256.
Proof. vm_compute. repeat split. Qed.

(** *** What a successful initialization builds, and what a failed one leaves *)

Definition node_memory_of (engine : Engine) (node : nat) : NumaNodeMemory :=
  mkNumaNodeMemory node (snd (node_initialize engine node)).

Definition node_base (engine : Engine) (node : nat) : Z :=
  base_ (snd (node_initialize engine node)).

(** The locals of the node loop once nodes [0] to [node - 1] are done, in
    any build. *)
Definition built (engine : Engine) (node : nat) (s : NodeLoop) : Prop :=
  memories s = map (node_memory_of engine) (seq 0 node)
  /\ length (bases s) = 256%nat
  /\ take node (bases s) = map (node_base engine) (seq 0 node)
  /\ (node <= 256)%nat
  /\ (forall i, (i < node)%nat -> is_error (fst (node_initialize engine i)) = false)
  /\ ((0 < node)%nat ->
      (page_offset_begin s, page_offset_end s) = node_bounds engine 0).

Lemma built_start (engine : Engine) :
  built engine 0 (mkNodeLoop [] (replicate 256 0) 0 0).
Proof.
  unfold built. cbn [memories bases seq map take page_offset_begin page_offset_end].
  repeat split; try reflexivity; try lia.
Qed.

Lemma built_next engine node s resolver init_result first_bounds :
  built engine node s ->
  node_initialize engine node = (init_result, resolver) ->
  is_error init_result = false ->
  (node < 256)%nat ->
  first_bounds = (if (node =? 0)%nat then (begin_ resolver, end_ resolver)
                  else (page_offset_begin s, page_offset_end s)) ->
  built engine (S node)
    (mkNodeLoop (memories s ++ [mkNumaNodeMemory node resolver])
                (<[node := base_ resolver]> (bases s))
                (fst first_bounds) (snd first_bounds)).
Proof.
  intros (Hmem & Hlen & Hbases & Hle & Hok & Hfirst) Hinit Herr Hlt ->.
  unfold built. cbn [memories bases page_offset_begin page_offset_end].
  rewrite seq_S, !map_app. cbn [Nat.add map].
  unfold node_memory_of at 2. unfold node_base at 2. rewrite Hinit. cbn [snd].
  split; [rewrite Hmem; reflexivity|].
  split; [rewrite length_insert; exact Hlen|].
  split.
  { rewrite (take_S_r _ _ (base_ resolver))
      by (apply list_lookup_insert_eq; lia).
    rewrite take_insert_ge by lia. rewrite Hbases. reflexivity. }
  split; [lia|]. split.
  { intros i Hi. destruct (Nat.eq_dec i node) as [->|Hne].
    - rewrite Hinit. exact Herr.
    - apply Hok. lia. }
  intros _. destruct (Nat.eqb_spec node 0) as [->|Hne]; cbn [fst snd].
  - unfold node_bounds. rewrite Hinit. reflexivity.
  - apply Hfirst. lia.
Qed.

Lemma node_body_built NDEBUG engine node s s' :
  built engine node s ->
  node_body NDEBUG engine node s = (None, s') ->
  built engine (S node) s'.
Proof.
  intros Hb H. unfold node_body in H.
  destruct (node_initialize engine node) as [init_result resolver] eqn:Hinit.
  destruct (is_error init_result) eqn:Herr; [discriminate|].
  destruct (node <? 256)%nat eqn:Hlt; cbn [negb] in H; [|discriminate].
  apply Nat.ltb_lt in Hlt.
  cbn [memories bases page_offset_begin page_offset_end] in H.
  destruct (node =? 0)%nat eqn:Hz.
  - inversion H; subst; clear H.
    apply (built_next engine node s resolver init_result
             (begin_ resolver, end_ resolver)); auto.
    rewrite Hz. reflexivity.
  - destruct (negb (ASSERT_ND NDEBUG (page_offset_begin s =? begin_ resolver)));
      [discriminate|].
    destruct (negb (ASSERT_ND NDEBUG (page_offset_end s =? end_ resolver)));
      [discriminate|].
    inversion H; subst; clear H.
    apply (built_next engine node s resolver init_result
             (page_offset_begin s, page_offset_end s)); auto.
    rewrite Hz. reflexivity.
Qed.

Lemma node_loop_built NDEBUG engine remaining :
  forall node s s',
    built engine node s ->
    node_loop NDEBUG engine remaining node s = (None, s') ->
    built engine (node + remaining) s'.
Proof.
  induction remaining as [|remaining IH]; intros node s s' Hb H.
  - cbn in H. inversion H; subst. rewrite Nat.add_0_r. exact Hb.
  - cbn [node_loop] in H.
    destruct (node_body NDEBUG engine node s) as [[stop|] s1] eqn:Hbody;
      [discriminate|].
    replace (node + S remaining)%nat with (S node + remaining)%nat by lia.
    eapply IH; [|exact H]. eapply node_body_built; eassumption.
Qed.

(** X1.  On a fresh engine memory, in a build with or without [NDEBUG]
    and whatever the integer type [thread::ThreadGroupId] is, a return of
    ok means: with [numa_nodes] the value of [group_count_] converted to
    that type, [numa_nodes] is at most 256, each of the nodes [0] to
    [numa_nodes - 1] initialized without error, [node_memories_] holds
    one node memory per such node in node order, and the global resolver
    has [numa_nodes] bases, the base of each node's pool in node order,
    with the bounds of node 0. *)
Theorem initialize_once_global_resolver
    (PAGE_SIZE : Z) (to_ThreadGroupId : Z -> Z) (NDEBUG : bool)
    (engine : Engine) (m : EngineMemory) :
  node_memories_ m = [] ->
  fst (initialize_once PAGE_SIZE to_ThreadGroupId NDEBUG engine m) = Returned RET_OK ->
  let numa_nodes := numa_nodes_of to_ThreadGroupId (get_options engine) in
  let m' := snd (initialize_once PAGE_SIZE to_ThreadGroupId NDEBUG engine m) in
  (numa_nodes <= 256)%nat
  /\ (forall node, (node < numa_nodes)%nat ->
        is_error (fst (node_initialize engine node)) = false)
  /\ node_memories_ m' = map (node_memory_of engine) (seq 0 numa_nodes)
  /\ numa_node_count_ (global_page_resolver_ m') = numa_nodes
  /\ bases_ (global_page_resolver_ m') = map (node_base engine) (seq 0 numa_nodes)
  /\ ((0 < numa_nodes)%nat ->
      (global_begin_ (global_page_resolver_ m'),
       global_end_ (global_page_resolver_ m')) = node_bounds engine 0).
Proof.
  intros Hm Hok numa_nodes m'. subst m'. revert Hok. unfold initialize_once.
  destruct (negb (debug_is_initialized engine)); [discriminate|].
  destruct (numa_available engine <? 0); [discriminate|].
  destruct (negb (ASSERT_ND NDEBUG _)); [discriminate|].
  destruct (page_pool_bytes (get_options engine)
            <? minimal_page_pool PAGE_SIZE (get_options engine)); [discriminate|].
  fold numa_nodes. rewrite Hm.
  destruct (node_loop NDEBUG engine numa_nodes 0
              (mkNodeLoop [] (replicate 256 0) 0 0)) as [[stop|] s'] eqn:Hloop;
    cbn [fst snd node_memories_ global_page_resolver_ numa_node_count_ bases_
         global_begin_ global_end_].
  - intros E. exfalso. eapply node_loop_stop_not_ok; eauto.
  - intros _.
    destruct (node_loop_built _ _ _ _ _ _ (built_start engine) Hloop)
      as (Hmem & Hlen & Hbases & Hle & Hnodes & Hfirst).
    cbn [Nat.add] in *. repeat split; auto.
Qed.

(** 256 groups, with a pool that passes the sizing check. *)
Definition full_engine : Engine :=
  mkEngine true 0 (make_options 256 1 1 1) tiny_resolver.

Lemma initialize_once_global_resolver_witness :
  (let m' := snd (initialize_once 4096 uint8_ThreadGroupId true exact_fit_engine
                    empty_engine_memory) in
   bases_ (global_page_resolver_ m') = [0; 4096]
   /\ numa_node_count_ (global_page_resolver_ m') = 2%nat)
  /\ (let m' := snd (initialize_once 4096 uint8_ThreadGroupId false full_engine
                       empty_engine_memory) in
      fst (initialize_once 4096 uint8_ThreadGroupId false full_engine
             empty_engine_memory) = Returned RET_OK
      /\ node_memories_ m' = []
      /\ numa_node_count_ (global_page_resolver_ m') = 0%nat).
Proof.
  split.
  - destruct (initialize_once_global_resolver 4096 uint8_ThreadGroupId true
                exact_fit_engine empty_engine_memory eq_refl eq_refl)
      as (_ & _ & _ & Hcount & Hbases & _).
    split; [exact Hbases|exact Hcount].
  - destruct (initialize_once_global_resolver 4096 uint8_ThreadGroupId false
                full_engine empty_engine_memory eq_refl eq_refl)
      as (_ & _ & Hmem & Hcount & _).
    split; [reflexivity|]. split; [exact Hmem|exact Hcount].
Defined.

(** The loop up to the first node whose initialization fails. *)
Lemma node_loop_first_failure NDEBUG engine (k remaining : nat) :
  forall node s,
    built engine node s ->
    (node <= k < node + remaining)%nat ->
    (k <= 256)%nat ->
    (forall i, (i < k)%nat -> is_error (fst (node_initialize engine i)) = false) ->
    (NDEBUG = true \/
     forall i, (i < k)%nat -> node_bounds engine i = node_bounds engine 0) ->
    is_error (fst (node_initialize engine k)) = true ->
    exists s',
      node_loop NDEBUG engine remaining node s
        = (Some (Returned (fst (node_initialize engine k))), s')
      /\ memories s' = map (node_memory_of engine) (seq 0 (S k)).
Proof.
  induction remaining as [|remaining IH];
    intros node s Hb Hk H256 Hok Hbounds Hfail; [lia|].
  cbn [node_loop]. unfold node_body.
  destruct (node_initialize engine node) as [init_result resolver] eqn:Hinit.
  destruct (Nat.eq_dec node k) as [->|Hne].
  - rewrite Hinit in Hfail. cbn [fst] in Hfail. rewrite Hfail.
    eexists. split; [rewrite Hinit; reflexivity|].
    cbn [memories]. destruct Hb as (-> & _).
    rewrite seq_S, map_app. cbn [Nat.add map]. unfold node_memory_of at 3.
    rewrite Hinit. reflexivity.
  - pose proof (Hok node ltac:(lia)) as Hn. rewrite Hinit in Hn. cbn [fst] in Hn.
    rewrite Hn.
    assert ((node <? 256)%nat = true) as -> by (apply Nat.ltb_lt; lia).
    cbn [negb memories bases page_offset_begin page_offset_end].
    destruct (node =? 0)%nat eqn:Hz.
    + apply (IH (S node)); auto; try lia.
      apply (built_next engine node s resolver init_result
               (begin_ resolver, end_ resolver)); auto; try lia.
      rewrite Hz. reflexivity.
    + apply Nat.eqb_neq in Hz.
      assert (ASSERT_ND NDEBUG (page_offset_begin s =? begin_ resolver) = true
              /\ ASSERT_ND NDEBUG (page_offset_end s =? end_ resolver) = true)
        as [-> ->].
      { unfold ASSERT_ND. destruct Hbounds as [->|Hsame]; [split; reflexivity|].
        destruct Hb as (_ & _ & _ & _ & _ & Hfirst).
        specialize (Hfirst ltac:(lia)). specialize (Hsame node ltac:(lia)).
        unfold node_bounds in Hsame at 1. rewrite Hinit in Hsame. cbn [snd] in Hsame.
        rewrite <- Hfirst in Hsame. inversion Hsame.
        rewrite !Z.eqb_refl, !orb_true_r. split; reflexivity. }
      cbn [negb].
      apply (IH (S node)); auto; try lia.
      apply (built_next engine node s resolver init_result
               (page_offset_begin s, page_offset_end s)); auto; try lia.
      apply Nat.eqb_neq in Hz. rewrite Hz. reflexivity.
Qed.

(** X2.  The checks before the loop pass on a fresh engine memory; node
    [k], among the nodes the loop visits and at most 256, is the first
    whose initialization fails; and, in a build where [ASSERT_ND] is
    active, the nodes before it have node 0's bounds.  Then
    [initialize_once] returns with the error code of that node's
    initialization ([CHECK_ERROR] hands the error on); [node_memories_]
    holds the node memories of nodes [0] to [k], the failed one included,
    none of a later node; and the global resolver is left as it was. *)
Theorem initialize_once_node_failure
    (PAGE_SIZE : Z) (to_ThreadGroupId : Z -> Z) (NDEBUG : bool)
    (engine : Engine) (m : EngineMemory) (k : nat) :
  debug_is_initialized engine = true ->
  0 <= numa_available engine ->
  node_memories_ m = [] ->
  minimal_page_pool PAGE_SIZE (get_options engine)
    <= page_pool_bytes (get_options engine) ->
  (k < numa_nodes_of to_ThreadGroupId (get_options engine))%nat ->
  (k <= 256)%nat ->
  (forall i, (i < k)%nat -> is_error (fst (node_initialize engine i)) = false) ->
  (NDEBUG = true \/
   forall i, (i < k)%nat -> node_bounds engine i = node_bounds engine 0) ->
  is_error (fst (node_initialize engine k)) = true ->
  initialize_once PAGE_SIZE to_ThreadGroupId NDEBUG engine m
  = (Returned (fst (node_initialize engine k)),
     mkEngineMemory (map (node_memory_of engine) (seq 0 (S k)))
                    (global_page_resolver_ m))
  /\ get_error_code (fst (node_initialize engine k)) <> kErrorCodeOk.
Proof.
  intros Hd Hn Hm Hsz Hk H256 Hok Hbounds Hfail. split.
  2: { intros E. unfold is_error in Hfail. rewrite E in Hfail. discriminate. }
  unfold initialize_once.
  rewrite Hd, Hm. cbn [negb].
  assert ((numa_available engine <? 0) = false) as -> by (apply Z.ltb_ge; lia).
  assert ((page_pool_bytes (get_options engine)
           <? minimal_page_pool PAGE_SIZE (get_options engine)) = false) as ->
      by (apply Z.ltb_ge; lia).
  unfold ASSERT_ND at 1. rewrite orb_true_r. cbn [negb].
  destruct (node_loop_first_failure NDEBUG engine k
              (numa_nodes_of to_ThreadGroupId (get_options engine)) 0
              (mkNodeLoop [] (replicate 256 0) 0 0) (built_start engine)
              ltac:(lia) H256 Hok Hbounds Hfail) as (s' & -> & ->).
  reflexivity.
Qed.

(** Node 1 runs out of memory. *)
Definition failing_resolver (node : nat) : ErrorStack * LocalPageResolver :=
  (if (node =? 1)%nat then ERROR_STACK ERROR_CODE_OUTOFMEMORY else RET_OK,
   mkLocalPageResolver (Z.of_nat node * 4096) 1 256).

Definition failing_engine : Engine :=
  mkEngine true 0 (make_options 3 1 1 64) failing_resolver.

Lemma initialize_once_node_failure_witness :
  initialize_once 4096 uint8_ThreadGroupId false failing_engine empty_engine_memory
  = (Returned (ERROR_STACK ERROR_CODE_OUTOFMEMORY),
     mkEngineMemory [node_memory_of failing_engine 0; node_memory_of failing_engine 1]
                    (global_page_resolver_ empty_engine_memory)).
Proof.
  apply (initialize_once_node_failure 4096 uint8_ThreadGroupId false failing_engine
           empty_engine_memory 1).
  - reflexivity.
  - cbn. lia.
  - reflexivity.
  - apply Z.leb_le. reflexivity.
  - vm_compute. lia.
  - lia.
  - intros i Hi. assert (i = 0%nat) as -> by lia. reflexivity.
  - right. intros i Hi. assert (i = 0%nat) as -> by lia. reflexivity.
  - reflexivity.
Defined.

(** X3.  Whatever the engine and the build, a call that does not return ok
    leaves the global page resolver as it was: the resolver is assigned
    only at the end of a successful initialization. *)
Theorem initialize_once_keeps_resolver_on_failure
    (PAGE_SIZE : Z) (to_ThreadGroupId : Z -> Z) (NDEBUG : bool)
    (engine : Engine) (m : EngineMemory) :
  fst (initialize_once PAGE_SIZE to_ThreadGroupId NDEBUG engine m) <> Returned RET_OK ->
  global_page_resolver_ (snd (initialize_once PAGE_SIZE to_ThreadGroupId NDEBUG engine m))
  = global_page_resolver_ m.
Proof.
  unfold initialize_once.
  destruct (negb (debug_is_initialized engine)); [reflexivity|].
  destruct (numa_available engine <? 0); [reflexivity|].
  destruct (negb (ASSERT_ND NDEBUG _)); [reflexivity|].
  destruct (page_pool_bytes (get_options engine)
            <? minimal_page_pool PAGE_SIZE (get_options engine)); [reflexivity|].
  destruct (node_loop NDEBUG engine _ 0 _) as [[stop|] s'];
    cbn [fst snd global_page_resolver_]; [reflexivity|].
  intros H. exfalso. apply H. reflexivity.
Qed.

Lemma initialize_once_keeps_resolver_on_failure_witness :
  global_page_resolver_
    (snd (initialize_once 4096 uint8_ThreadGroupId false uneven_engine
            empty_engine_memory))
  = global_page_resolver_ empty_engine_memory.
Proof.
  apply (initialize_once_keeps_resolver_on_failure 4096 uint8_ThreadGroupId false
           uneven_engine empty_engine_memory).
  vm_compute. discriminate.
Defined.

End Memory.

(** ** Worker threads ([thread_pimpl.cpp]) *)

Module Thread.
Import Errors.

Definition ThreadId : Type := nat.

(** An [ImpersonateTask]: what [run(context)] returns on a given worker.
    An [ImpersonateTask*] is an [option]; [None] is [nullptr]. *)
Record ImpersonateTask : Type := mkImpersonateTask {
  task_name : nat;
  run : ThreadId -> ErrorStack }.

(** A [std::promise<T>]: the shared state its constructor allocated, the
    value stored there once [set_value] has run, and whether [get_future]
    was called. *)
Record promise (T : Type) : Type := mkPromise {
  shared_state : nat;
  stored : option T;
  future_retrieved : bool }.
Arguments mkPromise {T} _ _ _.
Arguments shared_state {T} _.
Arguments stored {T} _.
Arguments future_retrieved {T} _.

(** Where the thread started by [initialize_once] stands: blocked in
    [task_future.get()], the one place where [handle_tasks] waits, or
    returned from [handle_tasks]. *)
Inductive WorkerControl : Type :=
| AtInbox
| Finished.

Record ThreadPimpl : Type := mkThreadPimpl {
  id_ : ThreadId;
  holder_ : ThreadId;
  core_memory_ : option nat;
  raw_thread_ : option WorkerControl;
  impersonated_ : bool;
  exitted_ : bool;
  impersonated_task_ : promise (option ImpersonateTask);
  impersonated_task_result_ : promise ErrorStack }.

(** The fields of [ImpersonateSession] that [try_impersonate] touches:
    the bound worker, the shared future (the shared state it reads), and
    the task the caller put in. *)
Record ImpersonateSession : Type := mkImpersonateSession {
  thread_ : option ThreadId;
  result_future_ : option nat;
  task_ : option ImpersonateTask }.

(** What the code does, in program order. *)
Inductive Event : Type :=
| LoadImpersonated (seen : bool)
| CompareExchangeImpersonated (before after : bool)
| NewOutbox (state : nat)
| BindSession (holder : ThreadId)
| ShareResultFuture (state : nat)
| PublishTask (state : nat) (task : option ImpersonateTask)
| SpawnThread
| NumaRunOnNode (node : nat)
| GetTaskFuture (state : nat)
| ReceiveTask (state : nat) (task : option ImpersonateTask)
| NewInbox (state : nat)
| RunTask (task : ImpersonateTask) (result : ErrorStack)
| WriteResult (state : nat) (result : ErrorStack)
| StoreImpersonated (value : bool)
| StoreExitted (value : bool)
| FenceRelease
| JoinThread
| DeleteThread.


(** The worker object, the allocator of shared states, and the log. *)
Record World : Type := mkWorld {
  pimpl : ThreadPimpl;
  next_shared_state : nat;
  log : list Event }.

Inductive future_errc : Type :=
| promise_already_satisfied
| future_already_retrieved.

(** How a call ends. *)
Inductive Result (A : Type) : Type :=
| Done (a : A)
| Thrown (e : future_errc)
| AssertFailed
| Blocked.
Arguments Done {A} _.
Arguments Thrown {A} _.
Arguments AssertFailed {A}.
Arguments Blocked {A}.

Definition M (A : Type) : Type := World -> Result A * World.

Definition ret {A : Type} (a : A) : M A := fun w => (Done a, w).

Definition bind {A B : Type} (c : M A) (k : A -> M B) : M B :=
  fun w =>
    match c w with
    | (Done a, w') => k a w'
    | (Thrown e, w') => (Thrown e, w')
    | (AssertFailed, w') => (AssertFailed, w')
    | (Blocked, w') => (Blocked, w')
    end.

Notation "x <- c ;; k" := (bind c (fun x => k))
  (at level 100, c at level 99, right associativity).
Notation "c ;; k" := (bind c (fun _ => k))
  (at level 100, right associativity).

Definition throw {A : Type} (e : future_errc) : M A := fun w => (Thrown e, w).
Definition assertion_failure {A : Type} : M A := fun w => (AssertFailed, w).
Definition block {A : Type} : M A := fun w => (Blocked, w).

Definition get : M ThreadPimpl := fun w => (Done (pimpl w), w).
Definition put (p : ThreadPimpl) : M unit :=
  fun w => (Done tt, mkWorld p (next_shared_state w) (log w)).
Definition emit (e : Event) : M unit :=
  fun w => (Done tt, mkWorld (pimpl w) (next_shared_state w) (log w ++ [e])).
Definition allocate_shared_state : M nat :=
  fun w => (Done (next_shared_state w),
            mkWorld (pimpl w) (S (next_shared_state w)) (log w)).

(** Field updates. *)
Definition set_core_memory (v : option nat) (p : ThreadPimpl) : ThreadPimpl :=
  mkThreadPimpl (id_ p) (holder_ p) v (raw_thread_ p) (impersonated_ p)
    (exitted_ p) (impersonated_task_ p) (impersonated_task_result_ p).
Definition set_raw_thread (v : option WorkerControl) (p : ThreadPimpl) : ThreadPimpl :=
  mkThreadPimpl (id_ p) (holder_ p) (core_memory_ p) v (impersonated_ p)
    (exitted_ p) (impersonated_task_ p) (impersonated_task_result_ p).
Definition set_impersonated (v : bool) (p : ThreadPimpl) : ThreadPimpl :=
  mkThreadPimpl (id_ p) (holder_ p) (core_memory_ p) (raw_thread_ p) v
    (exitted_ p) (impersonated_task_ p) (impersonated_task_result_ p).
Definition set_exitted (v : bool) (p : ThreadPimpl) : ThreadPimpl :=
  mkThreadPimpl (id_ p) (holder_ p) (core_memory_ p) (raw_thread_ p)
    (impersonated_ p) v (impersonated_task_ p) (impersonated_task_result_ p).
Definition set_impersonated_task
    (v : promise (option ImpersonateTask)) (p : ThreadPimpl) : ThreadPimpl :=
  mkThreadPimpl (id_ p) (holder_ p) (core_memory_ p) (raw_thread_ p)
    (impersonated_ p) (exitted_ p) v (impersonated_task_result_ p).
Definition set_impersonated_task_result
    (v : promise ErrorStack) (p : ThreadPimpl) : ThreadPimpl :=
  mkThreadPimpl (id_ p) (holder_ p) (core_memory_ p) (raw_thread_ p)
    (impersonated_ p) (exitted_ p) (impersonated_task_ p) v.

Definition modify (f : ThreadPimpl -> ThreadPimpl) : M unit :=
  p <- get ;; put (f p).

(** *** [std::promise] *)

(** [std::promise<T>()]: a new shared state, nothing stored. *)
Definition new_promise {T : Type} : M (promise T) :=
  state <- allocate_shared_state ;;
  ret (mkPromise state None false).

(** [p.set_value(v)] throws when the shared state already holds a value. *)
Definition set_value {T : Type} (p : promise T) (v : T) : M (promise T) :=
  match stored p with
  | Some _ => throw promise_already_satisfied
  | None => ret (mkPromise (shared_state p) (Some v) (future_retrieved p))
  end.

(** [p.get_future()] throws on its second call. *)
Definition get_future {T : Type} (p : promise T) : M (promise T * nat) :=
  if future_retrieved p then throw future_already_retrieved
  else ret (mkPromise (shared_state p) (stored p) true, shared_state p).

(** *** The functions of [ThreadPimpl] *)

Section Worker.

(** [decompose_numa_node] is declared in [thread_id.hpp], and
    [get_core_memory] belongs to the memory manager. *)
Variable decompose_numa_node : ThreadId -> nat.
Variable get_core_memory : ThreadId -> nat.

(** [assert] of [<cassert>]: nothing when the build defines [NDEBUG]. *)
Variable NDEBUG : bool.

Definition assert (cond : bool) : M unit :=
  if NDEBUG || cond then ret tt else assertion_failure.

(** [std::atomic_compare_exchange_strong(&impersonated_, &expected, desired)] *)
Definition compare_exchange_strong (expected desired : bool) : M bool :=
  p <- get ;;
  let before := impersonated_ p in
  if Bool.eqb before expected then
    put (set_impersonated desired p) ;;
    emit (CompareExchangeImpersonated before desired) ;;
    ret true
  else
    emit (CompareExchangeImpersonated before before) ;;
    ret false.

(** [handle_tasks], lines 43-44: the top of a round, up to the wait. *)
Definition wait_for_task : M unit :=
  p <- get ;;
  r <- get_future (impersonated_task_ p) ;;
  put (set_impersonated_task (fst r) p) ;;
  emit (GetTaskFuture (snd r)).

(** Line 45, [task_future.get()]: waits until the inbox holds a value. *)
Definition receive_task : M (option ImpersonateTask) :=
  p <- get ;;
  match stored (impersonated_task_ p) with
  | None => block
  | Some functor =>
      emit (ReceiveTask (shared_state (impersonated_task_ p)) functor) ;;
      ret functor
  end.

(** Lines 46-57; [true] goes round the loop again, [false] is the [break]. *)
Definition handle_task (functor : option ImpersonateTask) : M bool :=
  inbox <- new_promise ;;
  modify (set_impersonated_task inbox) ;;
  emit (NewInbox (shared_state inbox)) ;;
  match functor with
  | Some task =>
      p <- get ;;
      assert (impersonated_ p) ;;
      let result := run task (holder_ p) in
      emit (RunTask task result) ;;
      outbox <- set_value (impersonated_task_result_ p) result ;;
      modify (set_impersonated_task_result outbox) ;;
      emit (WriteResult (shared_state outbox) result) ;;
      modify (set_impersonated false) ;;
      emit (StoreImpersonated false) ;;
      ret true
  | None => ret false
  end.

(** Lines 59-60, after the loop. *)
Definition leave_loop : M unit :=
  modify (set_exitted true) ;;
  emit (StoreExitted true) ;;
  emit FenceRelease ;;
  modify (set_raw_thread (Some Finished)).

(** [handle_tasks] from its entry to its first wait. *)
Definition handle_tasks_start : M unit :=
  p <- get ;;
  emit (NumaRunOnNode (decompose_numa_node (id_ p))) ;;
  wait_for_task.

(** [handle_tasks] from the wait in [task_future.get()] to the next wait,
    or to its return. *)
Definition handle_tasks_resume : M unit :=
  functor <- receive_task ;;
  again <- handle_task functor ;;
  if again then wait_for_task else leave_loop.

(** The new thread runs [handle_tasks] up to its first wait. *)
Definition initialize_once : M ErrorStack :=
  p <- get ;;
  put (set_core_memory (Some (get_core_memory (id_ p))) p) ;;
  modify (set_raw_thread (Some AtInbox)) ;;
  emit SpawnThread ;;
  handle_tasks_start ;;
  p <- get ;;
  match raw_thread_ p with
  | None => ret (ERROR_STACK ERROR_CODE_OUTOFMEMORY)
  | Some _ => ret RET_OK
  end.

(** [raw_thread_->join()]: the worker runs on; the caller waits until
    [handle_tasks] has returned. *)
Definition join : M unit :=
  p <- get ;;
  match raw_thread_ p with
  | Some AtInbox =>
      handle_tasks_resume ;;
      p' <- get ;;
      match raw_thread_ p' with
      | Some Finished => emit JoinThread
      | _ => block
      end
  | _ => emit JoinThread
  end.

(** Line 29, [impersonated_task_.set_value(nullptr)]: the signal to exit. *)
Definition signal_exit : M unit :=
  p <- get ;;
  inbox <- set_value (impersonated_task_ p) None ;;
  modify (set_impersonated_task inbox) ;;
  emit (PublishTask (shared_state inbox) None).

(** Lines 30-32. *)
Definition join_and_delete : M unit :=
  join ;;
  emit DeleteThread ;;
  modify (set_raw_thread None).

Definition uninitialize_once : M ErrorStack :=
  p <- get ;;
  match raw_thread_ p with
  | Some _ =>
      signal_exit ;;
      join_and_delete
  | None => ret tt
  end ;;
  modify (set_core_memory None) ;;
  ret RET_OK.

(** [uninitialize_once] from line 30 on, for a caller that has signalled:
    between lines 29 and 30 the other threads run. *)
Definition uninitialize_once_from_join : M ErrorStack :=
  join_and_delete ;;
  modify (set_core_memory None) ;;
  ret RET_OK.

(** [try_impersonate(session)]; [meanwhile] is what the other threads do
    to [impersonated_] between this call's load and its compare-and-set.
    The session is returned as the call leaves it. *)
Definition try_impersonate (meanwhile : bool -> bool) (session : ImpersonateSession)
  : M (bool * ImpersonateSession) :=
  p <- get ;;
  emit (LoadImpersonated (impersonated_ p)) ;;
  if impersonated_ p then
    ret (false, session)
  else
    modify (fun p => set_impersonated (meanwhile (impersonated_ p)) p) ;;
    acquired <- compare_exchange_strong false true ;;
    if acquired then
      outbox <- new_promise ;;
      modify (set_impersonated_task_result outbox) ;;
      emit (NewOutbox (shared_state outbox)) ;;
      p <- get ;;
      let bound := mkImpersonateSession (Some (holder_ p))
                     (result_future_ session) (task_ session) in
      emit (BindSession (holder_ p)) ;;
      r <- get_future (impersonated_task_result_ p) ;;
      modify (set_impersonated_task_result (fst r)) ;;
      let shared := mkImpersonateSession (thread_ bound) (Some (snd r))
                      (task_ bound) in
      emit (ShareResultFuture (snd r)) ;;
      p <- get ;;
      inbox <- set_value (impersonated_task_ p) (task_ shared) ;;
      modify (set_impersonated_task inbox) ;;
      emit (PublishTask (shared_state inbox) (task_ shared)) ;;
      ret (true, shared)
    else
      ret (false, session).

End Worker.

(** A worker as its constructor leaves it. *)
Definition new_world (id : ThreadId) : World :=
  mkWorld (mkThreadPimpl id id None None false false
             (mkPromise 0%nat None false) (mkPromise 1%nat None false))
          2%nat [].

(** *** Impersonation *)

Ltac open_world w :=
  let p := fresh "p" in
  destruct w as [p ? ?]; destruct p; cbn [pimpl next_shared_state log
    id_ holder_ core_memory_ raw_thread_ impersonated_ exitted_
    impersonated_task_ impersonated_task_result_] in *.

Ltac open_promise q :=
  destruct q; cbn [shared_state stored future_retrieved] in *.

(** *** What holds of a worker between calls *)

(** Whenever [impersonated_] is clear, the inbox promise is unsatisfied:
    the worker replaces the inbox before it clears the flag. *)
Definition inbox_ready (w : World) : Prop :=
  impersonated_ (pimpl w) = false ->
  stored (impersonated_task_ (pimpl w)) = None.

(** That does not hold of every state: between lines 29 and 30 of
    [uninitialize_once] the inbox holds the signal to exit while the flag
    of an idle worker is clear.  What holds between any two steps is that
    a task waiting in the inbox was published by a holder: the flag is
    set and the outbox is unsatisfied. *)
Definition worker_invariant (w : World) : Prop :=
  forall task, stored (impersonated_task_ (pimpl w)) = Some (Some task) ->
    impersonated_ (pimpl w) = true
    /\ stored (impersonated_task_result_ (pimpl w)) = None.

Ltac invariant_cases :=
  unfold worker_invariant; cbn;
  repeat split; intros;
  repeat match goal with
         | H : forall task, Some (Some ?t) = Some (Some task) -> _ |- _ =>
             destruct (H t eq_refl); clear H
         | H : ?x = ?x -> _ |- _ => specialize (H eq_refl)
         end;
  try discriminate; try congruence; eauto.

Lemma new_world_invariant (id : ThreadId) : worker_invariant (new_world id).
Proof. invariant_cases. Qed.

Lemma initialize_once_invariant decompose_numa_node get_core_memory id :
  worker_invariant
    (snd (initialize_once decompose_numa_node get_core_memory (new_world id))).
Proof. invariant_cases. Qed.

Lemma try_impersonate_invariant meanwhile session w :
  worker_invariant w ->
  worker_invariant (snd (try_impersonate meanwhile session w)).
Proof.
  unfold worker_invariant. open_world w.
  open_promise impersonated_task_0. open_promise impersonated_task_result_0.
  intros H.
  destruct impersonated_0; [cbn; auto|].
  destruct (meanwhile false) eqn:Hrival, stored0 as [[t|]|];
    cbn; rewrite Hrival; invariant_cases.
Qed.

Lemma handle_tasks_resume_invariant NDEBUG w :
  worker_invariant w ->
  worker_invariant (snd (handle_tasks_resume NDEBUG w)).
Proof.
  unfold worker_invariant. open_world w.
  open_promise impersonated_task_0. open_promise impersonated_task_result_0.
  intros H.
  destruct stored0 as [[t|]|]; [| |cbn; auto].
  - destruct NDEBUG, impersonated_0, stored1; invariant_cases.
  - invariant_cases.
Qed.

Lemma signal_exit_invariant w :
  worker_invariant w -> worker_invariant (snd (signal_exit w)).
Proof.
  unfold worker_invariant. open_world w.
  open_promise impersonated_task_0. open_promise impersonated_task_result_0.
  intros H. destruct stored0 as [[t|]|]; invariant_cases.
Qed.

Lemma uninitialize_once_from_join_invariant NDEBUG w :
  worker_invariant w ->
  worker_invariant (snd (uninitialize_once_from_join NDEBUG w)).
Proof.
  unfold worker_invariant. open_world w.
  open_promise impersonated_task_0. open_promise impersonated_task_result_0.
  intros H.
  destruct raw_thread_0 as [[|]|], stored0 as [[t|]|];
    try (destruct NDEBUG, impersonated_0, stored1); invariant_cases.
Qed.

Lemma uninitialize_once_invariant NDEBUG w :
  worker_invariant w ->
  worker_invariant (snd (uninitialize_once NDEBUG w)).
Proof.
  unfold worker_invariant. open_world w.
  open_promise impersonated_task_0. open_promise impersonated_task_result_0.
  intros H.
  destruct raw_thread_0 as [[|]|], stored0 as [[t|]|]; invariant_cases.
Qed.

(** The states a worker goes through: constructed, started, and then any
    sequence of impersonation attempts, rounds of the worker, and
    shutdowns, a shutdown being one step or two: the signal of line 29,
    and after whatever the other threads do meanwhile, the rest of the
    call. *)
Inductive reachable (NDEBUG : bool) : World -> Prop :=
| reach_new id : reachable NDEBUG (new_world id)
| reach_initialize decompose_numa_node get_core_memory id :
    reachable NDEBUG
      (snd (initialize_once decompose_numa_node get_core_memory (new_world id)))
| reach_try_impersonate meanwhile session w :
    reachable NDEBUG w ->
    reachable NDEBUG (snd (try_impersonate meanwhile session w))
| reach_round w :
    reachable NDEBUG w ->
    raw_thread_ (pimpl w) = Some AtInbox ->
    reachable NDEBUG (snd (handle_tasks_resume NDEBUG w))
| reach_uninitialize w :
    reachable NDEBUG w ->
    reachable NDEBUG (snd (uninitialize_once NDEBUG w))
| reach_signal_exit w :
    reachable NDEBUG w ->
    is_Some (raw_thread_ (pimpl w)) ->
    reachable NDEBUG (snd (signal_exit w))
| reach_from_join w :
    reachable NDEBUG w ->
    reachable NDEBUG (snd (uninitialize_once_from_join NDEBUG w)).

Lemma reachable_invariant NDEBUG w : reachable NDEBUG w -> worker_invariant w.
Proof.
  induction 1.
  - apply new_world_invariant.
  - apply initialize_once_invariant.
  - apply try_impersonate_invariant. assumption.
  - apply handle_tasks_resume_invariant; assumption.
  - apply uninitialize_once_invariant. assumption.
  - apply signal_exit_invariant. assumption.
  - apply uninitialize_once_from_join_invariant. assumption.
Qed.

(** A worker in service: constructed, started, and then acted on by
    impersonation attempts and by rounds of its loop only, no
    [uninitialize_once] having begun. *)
Inductive in_service (NDEBUG : bool) : World -> Prop :=
| serve_new id : in_service NDEBUG (new_world id)
| serve_initialize decompose_numa_node get_core_memory id :
    in_service NDEBUG
      (snd (initialize_once decompose_numa_node get_core_memory (new_world id)))
| serve_try_impersonate meanwhile session w :
    in_service NDEBUG w ->
    in_service NDEBUG (snd (try_impersonate meanwhile session w))
| serve_round w :
    in_service NDEBUG w ->
    raw_thread_ (pimpl w) = Some AtInbox ->
    in_service NDEBUG (snd (handle_tasks_resume NDEBUG w)).

Lemma in_service_reachable NDEBUG w : in_service NDEBUG w -> reachable NDEBUG w.
Proof.
  induction 1;
    [apply reach_new|apply reach_initialize
    |apply reach_try_impersonate; assumption|apply reach_round; assumption].
Qed.

(** In service, the inbox is unsatisfied whenever the flag is clear. *)
Lemma in_service_inbox_ready NDEBUG w : in_service NDEBUG w -> inbox_ready w.
Proof.
  induction 1 as [id|? ? id|meanwhile session w _ IH|w _ IH Hat].
  - intros _. reflexivity.
  - intros _. reflexivity.
  - revert IH. unfold inbox_ready. open_world w.
    open_promise impersonated_task_0. open_promise impersonated_task_result_0.
    intros IH. destruct impersonated_0; [cbn; discriminate|].
    specialize (IH eq_refl). subst.
    destruct (meanwhile false) eqn:Hrival; cbn; rewrite Hrival; cbn; discriminate.
  - revert IH. unfold inbox_ready. open_world w.
    open_promise impersonated_task_0. open_promise impersonated_task_result_0.
    subst. intros IH.
    destruct stored0 as [[t|]|]; [| |cbn; auto].
    + destruct impersonated_0; [|specialize (IH eq_refl); discriminate].
      destruct NDEBUG, stored1; cbn; intros; first [reflexivity|discriminate].
    + cbn. intros; reflexivity.
Qed.


(** Without that, the compare-and-set succeeds and the publication
    throws: the call neither returns [true] nor [false]. *)
Lemma try_impersonate_inbox_taken meanwhile session w :
  impersonated_ (pimpl w) = false ->
  meanwhile false = false ->
  is_Some (stored (impersonated_task_ (pimpl w))) ->
  fst (try_impersonate meanwhile session w) = Thrown promise_already_satisfied.
Proof.
  intros Hflag Hquiet [v Hv]. open_world w. open_promise impersonated_task_0.
  subst. cbn. rewrite Hquiet. reflexivity.
Qed.

(** A worker started by [initialize_once], and a session carrying a task. *)
Definition started_world : World :=
  snd (initialize_once (fun id => Nat.div id 256) (fun id => id) (new_world 3%nat)).

Definition ok_task : ImpersonateTask := mkImpersonateTask 7%nat (fun _ => RET_OK).

Definition fresh_session : ImpersonateSession :=
  mkImpersonateSession None None (Some ok_task).


(** *** The worker loop *)

(** A task waiting in the inbox of a reachable worker was published by
    [try_impersonate]: the flag is set and the outbox is unsatisfied. *)
Lemma published_task_ready NDEBUG w task :
  reachable NDEBUG w ->
  stored (impersonated_task_ (pimpl w)) = Some (Some task) ->
  impersonated_ (pimpl w) = true
  /\ stored (impersonated_task_result_ (pimpl w)) = None.
Proof.
  intros Hreach Hinbox. exact (reachable_invariant _ _ Hreach task Hinbox).
Qed.

(** X21.  One round of the worker loop, from the moment the inbox holds a
    value.  The value is received, a new inbox promise is installed, and
    then: for a task (delivered with [impersonated_] set and the outbox
    unsatisfied, as [try_impersonate] leaves them) the task runs, its
    result is written to the outbox, [impersonated_] is cleared after that
    write, and the next round fetches the future of the new inbox; for
    [nullptr] the loop is left, [exitted_] is set and after that the
    release fence is issued, and [handle_tasks] has returned. *)
Theorem handle_tasks_round
    (NDEBUG : bool) (w : World) (functor : option ImpersonateTask) :
  stored (impersonated_task_ (pimpl w)) = Some functor ->
  (is_Some functor ->
   impersonated_ (pimpl w) = true
   /\ stored (impersonated_task_result_ (pimpl w)) = None) ->
  exists w',
    handle_tasks_resume NDEBUG w = (Done tt, w')
    /\ let inbox := shared_state (impersonated_task_ (pimpl w)) in
       let outbox := shared_state (impersonated_task_result_ (pimpl w)) in
       let inbox' := next_shared_state w in
       match functor with
       | Some task =>
           let result := run task (holder_ (pimpl w)) in
           log w' = log w ++ [ReceiveTask inbox (Some task);
                              NewInbox inbox';
                              RunTask task result;
                              WriteResult outbox result;
                              StoreImpersonated false;
                              GetTaskFuture inbox']
           /\ impersonated_task_ (pimpl w') = mkPromise inbox' None true
           /\ stored (impersonated_task_result_ (pimpl w')) = Some result
           /\ impersonated_ (pimpl w') = false
           /\ exitted_ (pimpl w') = exitted_ (pimpl w)
           /\ raw_thread_ (pimpl w') = raw_thread_ (pimpl w)
       | None =>
           log w' = log w ++ [ReceiveTask inbox None;
                              NewInbox inbox';
                              StoreExitted true;
                              FenceRelease]
           /\ impersonated_task_ (pimpl w') = mkPromise inbox' None false
           /\ exitted_ (pimpl w') = true
           /\ raw_thread_ (pimpl w') = Some Finished
           /\ impersonated_ (pimpl w') = impersonated_ (pimpl w)
       end.
Proof.
  intros Hinbox Hdelivered. open_world w.
  open_promise impersonated_task_0. subst stored0.
  destruct functor as [task|].
  - destruct (Hdelivered ltac:(eauto)) as [-> Hout].
    open_promise impersonated_task_result_0. subst stored0.
    eexists. destruct NDEBUG; (cbn; split; [reflexivity|]; cbn;
      rewrite <- !app_assoc; cbn; repeat split).
  - eexists. cbn. split; [reflexivity|]. cbn.
    rewrite <- !app_assoc. cbn. repeat split.
Qed.

Lemma handle_tasks_round_witness :
  let published :=
    snd (try_impersonate (fun flag => flag) fresh_session started_world) in
  stored (impersonated_task_ (pimpl published)) = Some (Some ok_task)
  /\ exists w',
       handle_tasks_resume false published = (Done tt, w')
       /\ impersonated_ (pimpl w') = false
       /\ stored (impersonated_task_result_ (pimpl w')) = Some RET_OK.
Proof.
  intros published. split; [reflexivity|].
  destruct (handle_tasks_round false published (Some ok_task) eq_refl)
    as (w' & Hrun & _ & _ & Hres & Hflag & _).
  - intros _. split; reflexivity.
  - exists w'. split; [exact Hrun|]. split; [exact Hflag|exact Hres].
Defined.

(** *** Shutdown *)



(** *** Start, hand-over and what goes wrong *)

(** X4.  On a worker whose inbox future was not fetched yet, [initialize_once]
    returns ok, never [ERROR_CODE_OUTOFMEMORY]: it stores the core memory
    of [id_], starts the thread, and the thread pins itself to the node of
    [id_], fetches the future of the inbox and waits there.  The flag and
    the outbox are untouched. *)
Theorem initialize_once_starts_worker
    (decompose_numa_node : ThreadId -> nat) (get_core_memory : ThreadId -> nat)
    (w : World) :
  future_retrieved (impersonated_task_ (pimpl w)) = false ->
  exists w',
    initialize_once decompose_numa_node get_core_memory w = (Done RET_OK, w')
    /\ log w' = log w ++ [SpawnThread;
                          NumaRunOnNode (decompose_numa_node (id_ (pimpl w)));
                          GetTaskFuture (shared_state (impersonated_task_ (pimpl w)))]
    /\ core_memory_ (pimpl w') = Some (get_core_memory (id_ (pimpl w)))
    /\ raw_thread_ (pimpl w') = Some AtInbox
    /\ impersonated_task_ (pimpl w')
       = mkPromise (shared_state (impersonated_task_ (pimpl w)))
                   (stored (impersonated_task_ (pimpl w))) true
    /\ impersonated_ (pimpl w') = impersonated_ (pimpl w)
    /\ exitted_ (pimpl w') = exitted_ (pimpl w)
    /\ impersonated_task_result_ (pimpl w') = impersonated_task_result_ (pimpl w).
Proof.
  intros Hfuture. open_world w. open_promise impersonated_task_0. subst.
  eexists. cbn. split; [reflexivity|]. cbn. rewrite <- !app_assoc. cbn.
  repeat split.
Qed.

Lemma initialize_once_starts_worker_witness :
  exists w',
    initialize_once (fun id => Nat.div id 256) (fun id => id) (new_world 700%nat)
      = (Done RET_OK, w')
    /\ log w' = [SpawnThread; NumaRunOnNode 2%nat; GetTaskFuture 0%nat].
Proof.
  destruct (initialize_once_starts_worker (fun id => Nat.div id 256) (fun id => id)
              (new_world 700%nat) eq_refl) as (w' & Hrun & Hlog & _).
  exists w'. split; [exact Hrun|exact Hlog].
Defined.

Ltac run_world :=
  repeat progress (cbn; unfold emit; cbn [pimpl next_shared_state log];
                   rewrite <- ?app_assoc).

(** The world after a [try_impersonate] that acquires the worker. *)
Definition acquired_world (session : ImpersonateSession) (w : World) : World :=
  let p := pimpl w in
  let outbox := next_shared_state w in
  mkWorld
    (mkThreadPimpl (id_ p) (holder_ p) (core_memory_ p) (raw_thread_ p) true
       (exitted_ p)
       (mkPromise (shared_state (impersonated_task_ p)) (Some (task_ session))
                  (future_retrieved (impersonated_task_ p)))
       (mkPromise outbox None true))
    (S outbox)
    (log w ++ [LoadImpersonated false;
               CompareExchangeImpersonated false true;
               NewOutbox outbox;
               BindSession (holder_ p);
               ShareResultFuture outbox;
               PublishTask (shared_state (impersonated_task_ p)) (task_ session)]).

Lemma try_impersonate_free meanwhile session w :
  impersonated_ (pimpl w) = false ->
  stored (impersonated_task_ (pimpl w)) = None ->
  meanwhile false = false ->
  try_impersonate meanwhile session w
  = (Done (true, mkImpersonateSession (Some (holder_ (pimpl w)))
                   (Some (next_shared_state w)) (task_ session)),
     acquired_world session w).
Proof.
  intros Hflag Hinbox Hquiet. open_world w. open_promise impersonated_task_0.
  subst. unfold acquired_world. cbn. rewrite Hquiet. cbn.
  run_world. reflexivity.
Qed.

(** The world after the round that runs [task]. *)
Definition served_world (task : ImpersonateTask) (w : World) : World :=
  let p := pimpl w in
  let inbox' := next_shared_state w in
  let result := run task (holder_ p) in
  mkWorld
    (mkThreadPimpl (id_ p) (holder_ p) (core_memory_ p) (raw_thread_ p) false
       (exitted_ p)
       (mkPromise inbox' None true)
       (mkPromise (shared_state (impersonated_task_result_ p)) (Some result)
                  (future_retrieved (impersonated_task_result_ p))))
    (S inbox')
    (log w ++ [ReceiveTask (shared_state (impersonated_task_ p)) (Some task);
               NewInbox inbox';
               RunTask task result;
               WriteResult (shared_state (impersonated_task_result_ p)) result;
               StoreImpersonated false;
               GetTaskFuture inbox']).

Lemma handle_tasks_resume_task NDEBUG task w :
  stored (impersonated_task_ (pimpl w)) = Some (Some task) ->
  impersonated_ (pimpl w) = true ->
  stored (impersonated_task_result_ (pimpl w)) = None ->
  handle_tasks_resume NDEBUG w = (Done tt, served_world task w).
Proof.
  intros Hinbox Hflag Hout. open_world w. open_promise impersonated_task_0.
  open_promise impersonated_task_result_0. subst. unfold served_world.
  destruct NDEBUG; run_world; reflexivity.
Qed.

(** The world after the round that receives [nullptr]. *)
Definition stopped_world (w : World) : World :=
  let p := pimpl w in
  let inbox' := next_shared_state w in
  mkWorld
    (mkThreadPimpl (id_ p) (holder_ p) (core_memory_ p) (Some Finished)
       (impersonated_ p) true
       (mkPromise inbox' None false)
       (impersonated_task_result_ p))
    (S inbox')
    (log w ++ [ReceiveTask (shared_state (impersonated_task_ p)) None;
               NewInbox inbox';
               StoreExitted true;
               FenceRelease]).

Lemma handle_tasks_resume_null NDEBUG w :
  stored (impersonated_task_ (pimpl w)) = Some None ->
  handle_tasks_resume NDEBUG w = (Done tt, stopped_world w).
Proof.
  intros Hinbox. open_world w. open_promise impersonated_task_0.
  subst. unfold stopped_world. cbn. run_world. reflexivity.
Qed.

(** The world after [uninitialize_once] has stopped a worker that waited
    at an empty inbox. *)
Definition shut_down_world (w : World) : World :=
  let p := pimpl w in
  let inbox' := next_shared_state w in
  mkWorld
    (mkThreadPimpl (id_ p) (holder_ p) None None (impersonated_ p) true
       (mkPromise inbox' None false)
       (impersonated_task_result_ p))
    (S inbox')
    (log w ++ [PublishTask (shared_state (impersonated_task_ p)) None;
               ReceiveTask (shared_state (impersonated_task_ p)) None;
               NewInbox inbox';
               StoreExitted true;
               FenceRelease;
               JoinThread;
               DeleteThread]).

Lemma uninitialize_once_idle NDEBUG w :
  raw_thread_ (pimpl w) = Some AtInbox ->
  stored (impersonated_task_ (pimpl w)) = None ->
  uninitialize_once NDEBUG w = (Done RET_OK, shut_down_world w).
Proof.
  intros Hraw Hinbox. open_world w. open_promise impersonated_task_0.
  subst. unfold shut_down_world. cbn. run_world. reflexivity.
Qed.

(** X5.  A task handed over by [try_impersonate] and one round of
    [handle_tasks]: the round runs the session's task on [holder_], the
    result lands in the shared state whose future the session was given,
    the flag is cleared over a new, unsatisfied inbox, and the next
    [try_impersonate] acquires the worker again. *)
Theorem impersonation_round_trip
    (NDEBUG : bool) (meanwhile : bool -> bool) (session : ImpersonateSession)
    (task : ImpersonateTask) (w : World) :
  impersonated_ (pimpl w) = false ->
  stored (impersonated_task_ (pimpl w)) = None ->
  meanwhile false = false ->
  task_ session = Some task ->
  exists session' w1 w2,
    try_impersonate meanwhile session w = (Done (true, session'), w1)
    /\ handle_tasks_resume NDEBUG w1 = (Done tt, w2)
    /\ thread_ session' = Some (holder_ (pimpl w))
    /\ result_future_ session'
       = Some (shared_state (impersonated_task_result_ (pimpl w2)))
    /\ stored (impersonated_task_result_ (pimpl w2))
       = Some (run task (holder_ (pimpl w)))
    /\ In (RunTask task (run task (holder_ (pimpl w)))) (log w2)
    /\ impersonated_ (pimpl w2) = false
    /\ stored (impersonated_task_ (pimpl w2)) = None
    /\ forall next,
         exists next' w3,
           try_impersonate meanwhile next w2 = (Done (true, next'), w3)
           /\ stored (impersonated_task_ (pimpl w3)) = Some (task_ next).
Proof.
  intros Hflag Hinbox Hquiet Htask.
  exists (mkImpersonateSession (Some (holder_ (pimpl w)))
            (Some (next_shared_state w)) (task_ session)),
         (acquired_world session w),
         (served_world task (acquired_world session w)).
  split; [apply try_impersonate_free; assumption|].
  split.
  { apply handle_tasks_resume_task; cbn [acquired_world pimpl stored
      impersonated_task_ impersonated_ impersonated_task_result_];
      [rewrite Htask|..]; reflexivity. }
  cbn [thread_ result_future_ served_world acquired_world pimpl log
       next_shared_state impersonated_task_result_ impersonated_task_
       impersonated_ holder_ shared_state stored].
  repeat split.
  - rewrite <- !app_assoc. apply in_or_app. right. apply in_or_app. right.
    cbn. tauto.
  - intros next.
    exists (mkImpersonateSession
              (Some (holder_ (pimpl (served_world task (acquired_world session w)))))
              (Some (next_shared_state (served_world task (acquired_world session w))))
              (task_ next)),
           (acquired_world next (served_world task (acquired_world session w))).
    split; [apply try_impersonate_free; [reflexivity|reflexivity|assumption]
           |reflexivity].
Qed.

Lemma impersonation_round_trip_witness :
  exists session' w1 w2,
    try_impersonate (fun flag => flag) fresh_session started_world
      = (Done (true, session'), w1)
    /\ handle_tasks_resume false w1 = (Done tt, w2)
    /\ result_future_ session'
       = Some (shared_state (impersonated_task_result_ (pimpl w2)))
    /\ stored (impersonated_task_result_ (pimpl w2)) = Some RET_OK.
Proof.
  destruct (impersonation_round_trip false (fun flag => flag) fresh_session ok_task
              started_world eq_refl eq_refl eq_refl eq_refl)
    as (session' & w1 & w2 & H1 & H2 & _ & H3 & H4 & _).
  exists session', w1, w2. repeat split; assumption.
Defined.

(** Several requesters, one after the other: each with its own session and
    its own interference between load and compare-and-set. *)
Fixpoint try_all (attempts : list ((bool -> bool) * ImpersonateSession)) (w : World)
  : list (Result (bool * ImpersonateSession)) * World :=
  match attempts with
  | [] => ([], w)
  | (meanwhile, session) :: rest =>
      let '(r, w1) := try_impersonate meanwhile session w in
      let '(rs, w2) := try_all rest w1 in
      (r :: rs, w2)
  end.

(** X6.  While [impersonated_] is set, every [try_impersonate] returns [false]
    with its session as it was, however many requesters try and whatever
    the other threads do: each call only loads the flag (the
    compare-and-set is not reached), and the worker, both promises
    included, stays as the holder left it. *)
Theorem held_worker_refuses
    (attempts : list ((bool -> bool) * ImpersonateSession)) (w : World) :
  impersonated_ (pimpl w) = true ->
  fst (try_all attempts w) = map (fun a => Done (false, snd a)) attempts
  /\ pimpl (snd (try_all attempts w)) = pimpl w
  /\ next_shared_state (snd (try_all attempts w)) = next_shared_state w
  /\ log (snd (try_all attempts w))
     = log w ++ map (fun _ => LoadImpersonated true) attempts.
Proof.
  revert w. induction attempts as [|[meanwhile session] rest IH]; intros w Hflag.
  - cbn. rewrite app_nil_r. repeat split.
  - cbn [try_all].
    assert (try_impersonate meanwhile session w
            = (Done (false, session),
               mkWorld (pimpl w) (next_shared_state w)
                       (log w ++ [LoadImpersonated true]))) as ->.
    { open_world w. subst. reflexivity. }
    specialize (IH (mkWorld (pimpl w) (next_shared_state w)
                            (log w ++ [LoadImpersonated true])) Hflag).
    destruct (try_all rest _) as [rs w2]. cbn [fst snd pimpl next_shared_state log] in *.
    destruct IH as (-> & -> & -> & ->).
    rewrite <- app_assoc. repeat split.
Qed.

Lemma held_worker_refuses_witness :
  let held := snd (try_impersonate (fun flag => flag) fresh_session started_world) in
  fst (try_all [(fun flag => flag, fresh_session);
                (fun _ => false, mkImpersonateSession None None None)] held)
  = [Done (false, fresh_session);
     Done (false, mkImpersonateSession None None None)].
Proof.
  intros held.
  exact (proj1 (held_worker_refuses
                  [(fun flag => flag, fresh_session);
                   (fun _ => false, mkImpersonateSession None None None)]
                  held eq_refl)).
Defined.

(** X7.  A session whose task is [nullptr] acquires the worker like any other,
    and the worker takes the [nullptr] as the signal to leave its loop:
    [handle_tasks] returns with [exitted_] set, nothing is ever written to
    the outbox whose future the session holds, and [impersonated_] stays
    set, so every later [try_impersonate] returns [false]. *)
Theorem null_task_stops_worker
    (NDEBUG : bool) (meanwhile : bool -> bool) (session : ImpersonateSession)
    (w : World) :
  impersonated_ (pimpl w) = false ->
  stored (impersonated_task_ (pimpl w)) = None ->
  meanwhile false = false ->
  task_ session = None ->
  exists session' w1 w2,
    try_impersonate meanwhile session w = (Done (true, session'), w1)
    /\ handle_tasks_resume NDEBUG w1 = (Done tt, w2)
    /\ raw_thread_ (pimpl w2) = Some Finished
    /\ exitted_ (pimpl w2) = true
    /\ result_future_ session'
       = Some (shared_state (impersonated_task_result_ (pimpl w2)))
    /\ stored (impersonated_task_result_ (pimpl w2)) = None
    /\ impersonated_ (pimpl w2) = true
    /\ forall rival next,
         fst (try_impersonate rival next w2) = Done (false, next).
Proof.
  intros Hflag Hinbox Hquiet Htask.
  exists (mkImpersonateSession (Some (holder_ (pimpl w)))
            (Some (next_shared_state w)) (task_ session)),
         (acquired_world session w),
         (stopped_world (acquired_world session w)).
  split; [apply try_impersonate_free; assumption|].
  split.
  { apply handle_tasks_resume_null; cbn [acquired_world pimpl stored
      impersonated_task_]; rewrite Htask; reflexivity. }
  cbn [result_future_ stopped_world acquired_world pimpl
       impersonated_task_result_ impersonated_ raw_thread_ exitted_
       shared_state stored].
  repeat split.
Qed.

Lemma null_task_stops_worker_witness :
  exists session' w1 w2,
    try_impersonate (fun flag => flag) (mkImpersonateSession None None None)
      started_world = (Done (true, session'), w1)
    /\ handle_tasks_resume false w1 = (Done tt, w2)
    /\ raw_thread_ (pimpl w2) = Some Finished
    /\ impersonated_ (pimpl w2) = true.
Proof.
  destruct (null_task_stops_worker false (fun flag => flag)
              (mkImpersonateSession None None None) started_world
              eq_refl eq_refl eq_refl eq_refl)
    as (session' & w1 & w2 & H1 & H2 & H3 & _ & _ & _ & H4 & _).
  exists session', w1, w2. repeat split; assumption.
Defined.

(** X8.  [uninitialize_once] on a started worker whose inbox already holds a
    value the worker has not taken (a task just published, or the
    [nullptr] of an earlier call): [set_value(nullptr)] throws
    [promise_already_satisfied], and the call leaves through it before
    anything else: the thread is neither joined nor deleted,
    [raw_thread_] and [core_memory_] stay set. *)
Theorem uninitialize_once_inbox_taken
    (NDEBUG : bool) (w : World) (control : WorkerControl)
    (functor : option ImpersonateTask) :
  raw_thread_ (pimpl w) = Some control ->
  stored (impersonated_task_ (pimpl w)) = Some functor ->
  uninitialize_once NDEBUG w = (Thrown promise_already_satisfied, w).
Proof.
  intros Hraw Hinbox. open_world w. open_promise impersonated_task_0. subst.
  reflexivity.
Qed.

Lemma uninitialize_once_inbox_taken_witness :
  let published :=
    snd (try_impersonate (fun flag => flag) fresh_session started_world) in
  uninitialize_once false published = (Thrown promise_already_satisfied, published).
Proof.
  intros published.
  exact (uninitialize_once_inbox_taken false published AtInbox (Some ok_task)
           eq_refl eq_refl).
Defined.

(** X9.  [try_impersonate] looks at neither [raw_thread_] nor [exitted_]: after
    [uninitialize_once] has stopped an idle worker, a requester still
    acquires it and publishes its task into the inbox the worker left
    behind, where no thread remains to take it. *)
Theorem impersonate_after_shutdown
    (NDEBUG : bool) (meanwhile : bool -> bool) (session : ImpersonateSession)
    (w : World) :
  raw_thread_ (pimpl w) = Some AtInbox ->
  impersonated_ (pimpl w) = false ->
  stored (impersonated_task_ (pimpl w)) = None ->
  meanwhile false = false ->
  exists w1 session' w2,
    uninitialize_once NDEBUG w = (Done RET_OK, w1)
    /\ try_impersonate meanwhile session w1 = (Done (true, session'), w2)
    /\ raw_thread_ (pimpl w2) = None
    /\ exitted_ (pimpl w2) = true
    /\ stored (impersonated_task_ (pimpl w2)) = Some (task_ session)
    /\ stored (impersonated_task_result_ (pimpl w2)) = None
    /\ result_future_ session'
       = Some (shared_state (impersonated_task_result_ (pimpl w2))).
Proof.
  intros Hraw Hflag Hinbox Hquiet.
  exists (shut_down_world w),
         (mkImpersonateSession (Some (holder_ (pimpl (shut_down_world w))))
            (Some (next_shared_state (shut_down_world w))) (task_ session)),
         (acquired_world session (shut_down_world w)).
  split; [apply uninitialize_once_idle; assumption|].
  split; [apply try_impersonate_free; [exact Hflag|reflexivity|assumption]|].
  cbn [result_future_ acquired_world shut_down_world pimpl
       impersonated_task_result_ impersonated_task_ raw_thread_ exitted_
       shared_state stored].
  repeat split.
Qed.

Lemma impersonate_after_shutdown_witness :
  exists w1 session' w2,
    uninitialize_once false started_world = (Done RET_OK, w1)
    /\ try_impersonate (fun flag => flag) fresh_session w1
       = (Done (true, session'), w2)
    /\ raw_thread_ (pimpl w2) = None
    /\ stored (impersonated_task_ (pimpl w2)) = Some (Some ok_task).
Proof.
  destruct (impersonate_after_shutdown false (fun flag => flag) fresh_session
              started_world eq_refl eq_refl eq_refl eq_refl)
    as (w1 & session' & w2 & H1 & H2 & H3 & _ & H4 & _).
  exists w1, session', w2. repeat split; assumption.
Defined.

(** X10.  In every state a worker goes through, a round of [handle_tasks] ends
    in one of two ways: it waits at an empty inbox, or it runs to its next
    wait or to its return.  So [assert(impersonated_)] never fails, and
    neither [set_value] on the outbox nor [get_future] on the inbox ever
    throws in the worker. *)
Theorem worker_round_never_fails (NDEBUG : bool) (w : World) :
  reachable NDEBUG w ->
  (stored (impersonated_task_ (pimpl w)) = None /\
   handle_tasks_resume NDEBUG w = (Blocked, w))
  \/ (is_Some (stored (impersonated_task_ (pimpl w))) /\
      exists w', handle_tasks_resume NDEBUG w = (Done tt, w')).
Proof.
  intros Hreach.
  destruct (stored (impersonated_task_ (pimpl w))) as [functor|] eqn:Hinbox.
  - right. split; [eauto|].
    destruct functor as [task|].
    + destruct (published_task_ready _ _ _ Hreach Hinbox) as [Hflag Hout].
      exists (served_world task w).
      apply handle_tasks_resume_task; assumption.
    + exists (stopped_world w). apply handle_tasks_resume_null. assumption.
  - left. split; [reflexivity|].
    open_world w. open_promise impersonated_task_0. subst. reflexivity.
Qed.

Lemma worker_round_never_fails_witness :
  let published :=
    snd (try_impersonate (fun flag => flag) fresh_session started_world) in
  exists w', handle_tasks_resume false published = (Done tt, w').
Proof.
  intros published.
  destruct (worker_round_never_fails false published) as [[Hnone _]|[_ Hdone]].
  - apply reach_try_impersonate. apply reach_initialize.
  - discriminate Hnone.
  - exact Hdone.
Defined.

(** *** Between the signal to exit and the join *)








End Thread.

(** ** Commit conflicts ([test_xct_commit_conflict.cpp]) *)

Module Xct.
Import Errors Words.

Record Payload : Type := mkPayload {
  id_ : Z;
  data_ : Z }.

Definition RECORDS : nat := 10.
Definition THREADS : nat := 10.

Definition Payload_eqb (p q : Payload) : bool :=
  (id_ p =? id_ q) && (data_ p =? data_ q).

(** *** The transaction manager and the array storage

    Neither is among the sources; the test reaches them through
    [begin_xct], [get_record], [overwrite_record], [precommit_xct],
    [abort_xct] and [is_running_xct]. *)

(** Modelled from the spec: the array storage (["test"], created by
    [InitTask]) holds one payload per offset. *)
Abbreviation Storage := (list Payload).

(** Modelled from the spec: the per-worker transaction record, with its
    [active] flag, its read-set (offset and value seen) and its write-set
    (offset and private new value). *)
Record Xct : Type := mkXct {
  active : bool;
  read_set : list (nat * Payload);
  write_set : list (nat * Payload) }.

Definition inactive_xct : Xct := mkXct false [] [].

(** Error codes of the collaborators that no source file names. *)
Definition ERROR_CODE_XCT_ALREADY_RUNNING : ErrorCode := ERROR_CODE_OTHER 1.
Definition ERROR_CODE_XCT_NO_XCT : ErrorCode := ERROR_CODE_OTHER 2.
Definition ERROR_CODE_STR_OFFSET_OUT_OF_RANGE : ErrorCode := ERROR_CODE_OTHER 3.

(** Modelled from the spec: [begin_xct] goes from inactive to active and
    fails when a transaction is already active. *)
Definition begin_xct (x : Xct) : ErrorStack * Xct :=
  if active x then (ERROR_STACK ERROR_CODE_XCT_ALREADY_RUNNING, x)
  else (RET_OK, mkXct true [] []).

(** Modelled from the spec: [get_record] is called within an active
    transaction, records the read in the read-set and returns the current
    value of the record. *)
Definition get_record (st : Storage) (x : Xct) (offset : nat)
  : ErrorStack * Xct * option Payload :=
  if negb (active x) then (ERROR_STACK ERROR_CODE_XCT_NO_XCT, x, None)
  else
    match st !! offset with
    | None => (ERROR_STACK ERROR_CODE_STR_OFFSET_OUT_OF_RANGE, x, None)
    | Some p =>
        (RET_OK, mkXct true (read_set x ++ [(offset, p)]) (write_set x), Some p)
    end.

(** Modelled from the spec: [overwrite_record] records a write; the new
    value becomes visible at commit. *)
Definition overwrite_record (st : Storage) (x : Xct) (offset : nat) (p : Payload)
  : ErrorStack * Xct :=
  if negb (active x) then (ERROR_STACK ERROR_CODE_XCT_NO_XCT, x)
  else if negb (offset <? length st)%nat then
    (ERROR_STACK ERROR_CODE_STR_OFFSET_OUT_OF_RANGE, x)
  else (RET_OK, mkXct true (read_set x) (write_set x ++ [(offset, p)])).

Definition apply_writes (writes : list (nat * Payload)) (st : Storage) : Storage :=
  fold_left (fun st w => <[fst w := snd w]> st) writes st.

(** Modelled from the spec: [precommit_xct] validates and either publishes
    the writes or fails with race-abort; either way the transaction is
    inactive afterwards.  The validation step is [validate]. *)
Definition precommit_xct
    (validate : Storage -> list (nat * Payload) -> bool) (st : Storage) (x : Xct)
  : ErrorStack * Storage * Xct :=
  if negb (active x) then (ERROR_STACK ERROR_CODE_XCT_NO_XCT, st, x)
  else if validate st (read_set x) then
    (RET_OK, apply_writes (write_set x) st, inactive_xct)
  else (ERROR_STACK ERROR_CODE_XCT_RACE_ABORT, st, inactive_xct).

(** Modelled from the spec: [abort_xct] discards the transaction in flight. *)
Definition abort_xct (x : Xct) : ErrorStack * Xct :=
  if negb (active x) then (ERROR_STACK ERROR_CODE_XCT_NO_XCT, x)
  else (RET_OK, inactive_xct).

(** Modelled from the spec: [is_running_xct] tells whether the worker's
    transaction record is active. *)
Definition is_running_xct (x : Xct) : bool := active x.

(** Modelled from the spec: a validation step provides serializability
    when it accepts only transactions whose reads are still current.  It
    may refuse any transaction it likes. *)
Definition validate_sound (validate : Storage -> list (nat * Payload) -> bool) : Prop :=
  forall st reads, validate st reads = true ->
    forall offset p, In (offset, p) reads -> st !! offset = Some p.

(** The validation that refuses exactly the stale reads. *)
Definition validate_reads (st : Storage) (reads : list (nat * Payload)) : bool :=
  forallb (fun r => match st !! fst r with
                    | Some q => Payload_eqb (snd r) q
                    | None => false
                    end) reads.

(** *** The tasks of the test *)

(** [InitTask::run]: the array is created, and one transaction writes
    [{i, 0}] at every offset [i]. *)
Fixpoint InitTask_overwrite_all (st : Storage) (x : Xct) (count i : nat)
  : ErrorStack * Xct :=
  match count with
  | O => (RET_OK, x)
  | S count' =>
      let payload := mkPayload (Z.of_nat i) 0 in
      let '(e, x') := overwrite_record st x i payload in
      if is_error e then (e, x')
      else InitTask_overwrite_all st x' count' (S i)
  end.

Definition InitTask_run
    (validate : Storage -> list (nat * Payload) -> bool) (x : Xct)
  : ErrorStack * Storage * Xct :=
  (* create_array(context, "test", sizeof(Payload), RECORDS, &storage) *)
  let st := replicate RECORDS (mkPayload 0 0) in
  let '(e, x1) := begin_xct x in
  if is_error e then (e, st, x1)
  else
    let '(e, x2) := InitTask_overwrite_all st x1 RECORDS 0 in
    if is_error e then (e, st, x2)
    else precommit_xct validate st x2.

(** [GetAllRecordsTask::run]: one transaction reads every record into
    [output_]. *)
Fixpoint GetAllRecordsTask_get_all
    (st : Storage) (x : Xct) (output : list Payload) (count i : nat)
  : ErrorStack * Xct * list Payload :=
  match count with
  | O => (RET_OK, x, output)
  | S count' =>
      let '(e, x', out) := get_record st x i in
      if is_error e then (e, x', output)
      else
        let output' := match out with
                       | Some p => <[i := p]> output
                       | None => output
                       end in
        GetAllRecordsTask_get_all st x' output' count' (S i)
  end.

Definition GetAllRecordsTask_run
    (validate : Storage -> list (nat * Payload) -> bool)
    (st : Storage) (x : Xct) (output : list Payload)
  : ErrorStack * Storage * Xct * list Payload :=
  let '(e, x1) := begin_xct x in
  if is_error e then (e, st, x1, output)
  else
    let '(e, x2, output') := GetAllRecordsTask_get_all st x1 output RECORDS 0 in
    if is_error e then (e, st, x2, output')
    else
      let '(e, st', x3) := precommit_xct validate st x2 in
      (e, st', x3, output').

(** Where a [TestTask] stands in [run] and [try_transaction]; a task moves
    from one point to the next in one step, and the steps of the ten
    tasks interleave. *)
Inductive Pc : Type :=
| AtStart                              (* line 64: start_future_.get() *)
| AtBegin                              (* line 84: begin_xct *)
| AtGet                                (* line 87: get_record *)
| AtOverwrite                          (* lines 88-90 *)
| AtPrecommit                          (* line 93: precommit_xct *)
| AtCheck (error_stack : ErrorStack)   (* line 68: try_transaction returned *)
| HasReturned (result : ErrorStack)    (* run returned *)
| HasAborted (error : ErrorStack).     (* COERCE_ERROR stopped the process *)

(** What a task asked of the transaction manager, in order. *)
Inductive Call : Type :=
| CallBegin
| CallGet (offset : nat)
| CallOverwrite (offset : nat) (p : Payload)
| CallPrecommit (result : ErrorStack)
| CallAbort.

(** A [TestTask] on its worker: the fields [offset_] and [amount_], the
    local [payload], the worker's transaction record, the number of
    [EXPECT_EQ] that failed, and the calls made. *)
Record Worker : Type := mkWorker {
  offset_ : nat;
  amount_ : Z;
  pc : Pc;
  payload : Payload;
  xct : Xct;
  failed_expectations : nat;
  calls : list Call }.

Definition new_worker (offset : nat) (amount : Z) : Worker :=
  mkWorker offset amount AtStart (mkPayload 0 0) inactive_xct 0 [].

Definition goto (next : Pc) (x : Xct) (call : list Call) (w : Worker) : Worker :=
  mkWorker (offset_ w) (amount_ w) next (payload w) x
           (failed_expectations w) (calls w ++ call).

Definition with_payload (p : Payload) (failed : nat) (w : Worker) : Worker :=
  mkWorker (offset_ w) (amount_ w) (pc w) p (xct w) failed (calls w).

(** [EXPECT_EQ] records a failure and goes on. *)
Definition EXPECT_EQ (expected actual : Z) (failed : nat) : nat :=
  if expected =? actual then failed else S failed.

(** What [run] does with the value of [try_transaction] (lines 68-77):
    leave the loop, retry after aborting a transaction still running,
    retry, or stop on [COERCE_ERROR]. *)
Inductive Verdict : Type :=
| Break
| AbortAndRetry
| Retry
| Coerce.

Definition run_dispatch (error_stack : ErrorStack) (running : bool) : Verdict :=
  if negb (is_error error_stack) then Break
  else if ErrorCode_eqb (get_error_code error_stack) ERROR_CODE_XCT_RACE_ABORT then
    if running then AbortAndRetry else Retry
  else Coerce.

Section Steps.

Variable validate : Storage -> list (nat * Payload) -> bool.

(** One step of a task against the shared storage.  [CHECK_ERROR] hands
    an error of a callee to [run], which is [AtCheck]. *)
Definition step_worker (st : Storage) (w : Worker) : Storage * Worker :=
  match pc w with
  | AtStart => (st, goto AtBegin (xct w) [] w)
  | AtBegin =>
      let '(e, x) := begin_xct (xct w) in
      (st, goto (if is_error e then AtCheck e else AtGet) x [CallBegin] w)
  | AtGet =>
      let '(e, x, out) := get_record st (xct w) (offset_ w) in
      let w' := match out with
                | Some p => with_payload p (failed_expectations w) w
                | None => w
                end in
      (st, goto (if is_error e then AtCheck e else AtOverwrite) x
                [CallGet (offset_ w)] w')
  | AtOverwrite =>
      let failed := EXPECT_EQ (Z.of_nat (offset_ w)) (id_ (payload w))
                              (failed_expectations w) in
      let p := mkPayload (id_ (payload w))
                         (uint64 (data_ (payload w) + amount_ w)) in
      let '(e, x) := overwrite_record st (xct w) (offset_ w) p in
      (st, goto (if is_error e then AtCheck e else AtPrecommit) x
                [CallOverwrite (offset_ w) p] (with_payload p failed w))
  | AtPrecommit =>
      let '(e, st', x) := precommit_xct validate st (xct w) in
      (st', goto (AtCheck e) x [CallPrecommit e] w)
  | AtCheck error_stack =>
      match run_dispatch error_stack (is_running_xct (xct w)) with
      | Break => (st, goto (HasReturned RET_OK) (xct w) [] w)
      | AbortAndRetry =>
          let '(e, x) := abort_xct (xct w) in
          (st, goto (if is_error e then HasReturned e else AtBegin) x [CallAbort] w)
      | Retry => (st, goto AtBegin (xct w) [] w)
      | Coerce => (st, goto (HasAborted error_stack) (xct w) [] w)
      end
  | HasReturned _ | HasAborted _ => (st, w)
  end.

(** The storage and the ten tasks. *)
Record System : Type := mkSystem {
  storage : Storage;
  workers : list Worker }.

(** The task on worker [i] takes its next step. *)
Definition step (i : nat) (s : System) : System :=
  match workers s !! i with
  | None => s
  | Some w =>
      let '(st', w') := step_worker (storage s) w in
      mkSystem st' (<[i := w']> (workers s))
  end.

(** A schedule names, step by step, the worker that moves. *)
Definition run_schedule (schedule : list nat) (s : System) : System :=
  fold_left (fun s i => step i s) schedule s.

(** [n] steps of one task with no other task moving. *)
Fixpoint run_alone (n : nat) (st : Storage) (w : Worker) : Storage * Worker :=
  match n with
  | O => (st, w)
  | S n' => let '(st', w') := step_worker st w in run_alone n' st' w'
  end.

End Steps.

(** *** [run_test] *)

(** [i * 20 + 4] *)
Definition amount_of (i : nat) : Z := Z.of_nat i * 20 + 4.

(** Lines 146-150: [answers[assign_func(i)] += i * 20 + 4].  An index
    outside [answers] is undefined in the source; here it writes nothing. *)
Definition add_answer (assign_func : nat -> nat) (answers : list Z) (i : nat) : list Z :=
  match answers !! assign_func i with
  | Some a => <[assign_func i := uint64 (a + amount_of i)]> answers
  | None => answers
  end.

Definition compute_answers (assign_func : nat -> nat) : list Z :=
  fold_left (add_answer assign_func) (seq 0 THREADS) (replicate THREADS 0).

(** How [run_test] ends: a [COERCE_ERROR] stopped it, the schedule ran out
    before every task had returned, or it reached its end with the
    payloads read back and the number of failed [EXPECT_EQ]. *)
Inductive TestOutcome : Type :=
| Fatal (error : ErrorStack)
| Unfinished
| Ran (payloads : list Payload) (failed : nat).

Definition pending (w : Worker) : bool :=
  match pc w with
  | HasReturned _ | HasAborted _ => false
  | _ => true
  end.

(** The first error among the tasks, as [COERCE_ERROR(sessions[i].get_result())]
    or the task's own [COERCE_ERROR] meets it. *)
Fixpoint first_error (ws : list Worker) : option ErrorStack :=
  match ws with
  | [] => None
  | w :: ws' =>
      match pc w with
      | HasAborted e => Some e
      | HasReturned e => if is_error e then Some e else first_error ws'
      | _ => first_error ws'
      end
  end.

(** Lines 154-157. *)
Fixpoint check_payloads (answers : list Z) (payloads : list Payload)
    (count i failed : nat) : nat :=
  match count with
  | O => failed
  | S count' =>
      let p := default (mkPayload 0 0) (payloads !! i) in
      let a := default 0 (answers !! i) in
      check_payloads answers payloads count' (S i)
        (EXPECT_EQ a (data_ p) (EXPECT_EQ (Z.of_nat i) (id_ p) failed))
  end.

Definition initial_system (assign_func : nat -> nat) (st : Storage) : System :=
  mkSystem st (map (fun i => new_worker (assign_func i) (amount_of i)) (seq 0 THREADS)).

(** [run_test]: [InitTask] runs alone, the ten [TestTask]s are handed to
    the ten workers of the pool (every impersonation finds an idle worker)
    and released together, their steps interleave as [schedule] says, and
    once all have returned [GetAllRecordsTask] runs alone. *)
Definition run_test
    (validate : Storage -> list (nat * Payload) -> bool)
    (assign_func : nat -> nat) (schedule : list nat) : TestOutcome :=
  let '(e, st, _) := InitTask_run validate inactive_xct in
  if is_error e then Fatal e
  else
    let s := run_schedule validate schedule (initial_system assign_func st) in
    match first_error (workers s) with
    | Some e => Fatal e
    | None =>
        if existsb pending (workers s) then Unfinished
        else
          let answers := compute_answers assign_func in
          let '(e, _, _, payloads) :=
            GetAllRecordsTask_run validate (storage s) inactive_xct
              (replicate RECORDS (mkPayload 0 0)) in
          if is_error e then Fatal e
          else Ran payloads
                   (check_payloads answers payloads THREADS 0
                      (list_sum (map failed_expectations (workers s))))
    end.

(** Every task runs to its end before the next one starts. *)
Definition one_by_one : list nat :=
  flat_map (fun i => replicate 7 i) (seq 0 THREADS).

(** All tasks move in lockstep, so that tasks on one record collide. *)
Definition round_robin (rounds : nat) : list nat :=
  flat_map (fun _ => seq 0 THREADS) (seq 0 rounds).

(** *** Invariants of the interleaved run *)

(** A task has committed once [precommit_xct] returned ok to it. *)
Definition committed (w : Worker) : bool :=
  match pc w with
  | AtCheck e | HasReturned e => negb (is_error e)
  | _ => false
  end.

(** What a task has added to record [r] so far, and the sum over the tasks. *)
Definition contribution (r : nat) (w : Worker) : Z :=
  if committed w && (offset_ w =? r)%nat then amount_ w else 0.

Definition total (r : nat) (ws : list Worker) : Z :=
  fold_right (fun w acc => contribution r w + acc) 0 ws.

(** The sum of [i * 20 + 4] over the tasks [i] assigned to record [r]. *)
Definition sum_assigned (assign_func : nat -> nat) (r : nat) : Z :=
  fold_right (fun i acc => (if (assign_func i =? r)%nat then amount_of i else 0) + acc)
             0 (seq 0 THREADS).

(** Every record carries its offset as [id_]. *)
Definition storage_ok (st : Storage) : Prop :=
  length st = RECORDS /\
  forall r p, st !! r = Some p -> id_ p = Z.of_nat r.

(** The transaction record and the locals of a task at each point. *)
Definition worker_ok (w : Worker) : Prop :=
  failed_expectations w = 0%nat /\
  match pc w with
  | AtGet => xct w = mkXct true [] []
  | AtOverwrite =>
      xct w = mkXct true [(offset_ w, payload w)] []
      /\ id_ (payload w) = Z.of_nat (offset_ w)
      /\ (offset_ w < RECORDS)%nat
  | AtPrecommit =>
      exists p0,
        xct w = mkXct true [(offset_ w, p0)] [(offset_ w, payload w)]
        /\ payload w = mkPayload (id_ p0) (uint64 (data_ p0 + amount_ w))
        /\ id_ p0 = Z.of_nat (offset_ w)
        /\ (offset_ w < RECORDS)%nat
  | AtCheck e => is_error e = false -> (offset_ w < RECORDS)%nat
  | HasReturned e => e = RET_OK /\ (offset_ w < RECORDS)%nat
  | _ => True
  end.

Lemma total_insert (r i : nat) (w w' : Worker) (ws : list Worker) :
  ws !! i = Some w ->
  total r (<[i := w']> ws) = total r ws - contribution r w + contribution r w'.
Proof.
  revert i. induction ws as [|v ws IH]; intros i Hi; [discriminate|].
  destruct i as [|i]; simpl in *.
  - inversion Hi; subst. lia.
  - rewrite (IH i Hi). lia.
Qed.

Ltac step_cases H :=
  repeat match type of H with
         | context [if ?c then _ else _] => destruct c eqn:?
         | context [match ?c with _ => _ end] => destruct c eqn:?
         end.

(** A step keeps the shape of the storage and of the task, never changes
    an [id_], and changes no record but the task's own. *)
Lemma step_worker_shape validate st w st' w' :
  storage_ok st -> worker_ok w ->
  step_worker validate st w = (st', w') ->
  storage_ok st' /\ worker_ok w'
  /\ offset_ w' = offset_ w /\ amount_ w' = amount_ w
  /\ (forall r, r <> offset_ w -> st' !! r = st !! r)
  /\ (forall r p, st !! r = Some p ->
        exists p', st' !! r = Some p' /\ id_ p' = id_ p).
Proof.
  intros [Hlen Hid] [Hfail Hw] H.
  assert (forall r p, st !! r = Some p -> exists p', st !! r = Some p' /\ id_ p' = id_ p)
    as Hsame by (intros r p Hr; exists p; auto).
  unfold step_worker in H. destruct w as [off amt pcw pay x fl cl].
  cbn [pc xct offset_ amount_ payload failed_expectations calls] in *. subst fl.
  destruct pcw.
  - (* AtStart *)
    inversion H; subst. unfold worker_ok. cbn. repeat split; auto.
  - (* AtBegin *)
    unfold begin_xct in H. destruct (active x); cbn in H; inversion H; subst;
      unfold worker_ok; cbn; repeat split; auto; discriminate.
  - (* AtGet *)
    subst x. unfold get_record in H. cbn in H.
    destruct (st !! off) as [p|] eqn:Hoff; cbn in H; inversion H; subst;
      unfold worker_ok; cbn; repeat split; auto; try discriminate.
    apply lookup_lt_Some in Hoff. lia.
  - (* AtOverwrite *)
    destruct Hw as (-> & Hpid & Hrange). unfold overwrite_record, EXPECT_EQ in H.
    assert ((off <? length st)%nat = true) as E by (apply Nat.ltb_lt; lia).
    rewrite E, Hpid, Z.eqb_refl in H. cbn in H.
    inversion H; subst. unfold worker_ok. cbn. repeat split; auto.
    exists pay. repeat split; auto. rewrite Hpid. reflexivity.
  - (* AtPrecommit *)
    destruct Hw as (p0 & -> & Hpay & Hp0 & Hrange). unfold precommit_xct in H.
    cbn [active negb read_set write_set] in H.
    destruct (validate st [(off, p0)]); inversion H; subst;
      unfold worker_ok; cbn [goto pc failed_expectations offset_ amount_ payload xct].
    + unfold apply_writes. cbn [fold_left fst snd].
      split; [|split; [|split; [|split; [|split]]]].
      * split; [rewrite length_insert; exact Hlen|].
        intros r p Hr. destruct (Nat.eq_dec off r) as [<-|Hne].
        -- rewrite list_lookup_insert_eq in Hr by lia. inversion Hr; subst.
           cbn. exact Hp0.
        -- rewrite list_lookup_insert_ne in Hr by exact Hne. eauto.
      * split; [reflexivity|]. intros _. exact Hrange.
      * reflexivity.
      * reflexivity.
      * intros r Hne. apply list_lookup_insert_ne. auto.
      * intros r p Hr. destruct (Nat.eq_dec off r) as [<-|Hne].
        -- rewrite list_lookup_insert_eq by lia. eexists. split; [reflexivity|].
           cbn. rewrite (Hid _ _ Hr). exact Hp0.
        -- rewrite list_lookup_insert_ne by exact Hne. eauto.
    + repeat split; auto; discriminate.
  - (* AtCheck *)
    unfold run_dispatch, abort_xct, is_running_xct in H.
    destruct (is_error error_stack) eqn:He; cbn in H.
    + destruct (ErrorCode_eqb (get_error_code error_stack) ERROR_CODE_XCT_RACE_ABORT).
      * destruct (active x) eqn:Ha; cbn in H; inversion H; subst;
          unfold worker_ok; cbn; repeat split; auto.
      * inversion H; subst. unfold worker_ok; cbn; repeat split; auto.
    + inversion H; subst. unfold worker_ok; cbn; repeat split; auto.
  - (* HasReturned *)
    inversion H; subst. unfold worker_ok; cbn. repeat split; auto; apply Hw.
  - (* HasAborted *)
    inversion H; subst. unfold worker_ok; cbn. repeat split; auto.
Qed.

(** With a sound validation, a step adds to a record exactly what the
    task newly contributes to it. *)
Lemma step_worker_data validate st w st' w' r p :
  validate_sound validate ->
  storage_ok st -> worker_ok w ->
  step_worker validate st w = (st', w') ->
  st !! r = Some p ->
  (st' !! r = Some p /\ contribution r w' = contribution r w)
  \/ (exists p', st' !! r = Some p'
                 /\ data_ p' = uint64 (data_ p + (contribution r w' - contribution r w))).
Proof.
  intros Hsound [Hlen Hid] [Hfail Hw] H Hr.
  unfold step_worker in H. destruct w as [off amt pcw pay x fl cl].
  cbn [pc xct offset_ amount_ payload failed_expectations calls] in *.
  destruct pcw.
  - inversion H; subst. left. auto.
  - unfold begin_xct in H. destruct (active x); cbn in H; inversion H; subst;
      left; auto.
  - unfold get_record in H. destruct (negb (active x)); [inversion H; subst; left; auto|].
    destruct (st !! off); cbn in H; inversion H; subst; left; auto.
  - unfold overwrite_record in H. destruct (negb (active x)); [inversion H; subst; left; auto|].
    destruct (negb (off <? length st)%nat); cbn in H; inversion H; subst; left; auto.
  - destruct Hw as (p0 & -> & Hpay & Hp0 & Hrange). unfold precommit_xct in H.
    cbn [active negb read_set write_set] in H.
    destruct (validate st [(off, p0)]) eqn:Hv; inversion H; subst; clear H.
    + pose proof (Hsound _ _ Hv off p0 ltac:(left; reflexivity)) as Hcur.
      unfold apply_writes. cbn [fold_left fst snd].
      unfold contribution, committed. cbn [goto pc offset_ amount_].
      change (negb (is_error RET_OK)) with true. cbn [andb].
      destruct (Nat.eqb_spec off r) as [<-|Hne].
      * right. rewrite list_lookup_insert_eq by (apply lookup_lt_Some in Hr; lia).
        eexists. split; [reflexivity|]. cbn [data_].
        rewrite Hcur in Hr. inversion Hr; subst. f_equal. lia.
      * left. rewrite list_lookup_insert_ne by exact Hne. auto.
    + left. auto.
  - unfold run_dispatch, abort_xct, is_running_xct in H.
    unfold contribution, committed. cbn [pc].
    destruct (is_error error_stack) eqn:He; cbn [negb] in H.
    + destruct (ErrorCode_eqb (get_error_code error_stack) ERROR_CODE_XCT_RACE_ABORT).
      * destruct (active x) eqn:Ha; cbn in H; inversion H; subst; left; auto.
      * inversion H; subst. left. auto.
    + inversion H; subst. left. auto.
  - inversion H; subst. left. auto.
  - inversion H; subst. left. auto.
Qed.

(** The system as a whole. *)
Definition system_ok (s : System) : Prop :=
  storage_ok (storage s) /\ Forall worker_ok (workers s).

Definition data_ok (s : System) : Prop :=
  forall r p, storage s !! r = Some p -> data_ p = uint64 (total r (workers s)).

Definition tasks_of (s : System) : list (nat * Z) :=
  map (fun w => (offset_ w, amount_ w)) (workers s).

Lemma map_insert_same {A B : Type} (f : A -> B) (l : list A) (i : nat) (x y : A) :
  l !! i = Some x -> f y = f x -> map f (<[i := y]> l) = map f l.
Proof.
  revert i. induction l as [|a l IH]; intros i Hi Hf; [discriminate|].
  destruct i as [|i]; simpl in *.
  - inversion Hi; subst. rewrite Hf. reflexivity.
  - rewrite (IH i Hi Hf). reflexivity.
Qed.

Lemma step_ok validate i s :
  system_ok s ->
  system_ok (step validate i s)
  /\ tasks_of (step validate i s) = tasks_of s
  /\ (forall r p, storage s !! r = Some p ->
        exists p', storage (step validate i s) !! r = Some p' /\ id_ p' = id_ p)
  /\ (forall r w, workers s !! i = Some w -> r <> offset_ w ->
        storage (step validate i s) !! r = storage s !! r)
  /\ (workers s !! i = None -> step validate i s = s).
Proof.
  intros [Hst Hws]. unfold step.
  destruct (workers s !! i) as [w|] eqn:Hi.
  - destruct (step_worker validate (storage s) w) as [st' w'] eqn:Hstep.
    assert (worker_ok w) as Hw by (eapply Forall_lookup_1; eauto).
    destruct (step_worker_shape _ _ _ _ _ Hst Hw Hstep)
      as (Hst' & Hw' & Hoff & Hamt & Hframe & Hids).
    cbn [storage workers].
    split; [split; [exact Hst'|apply Forall_insert; assumption]|].
    split.
    { unfold tasks_of. cbn [workers]. eapply map_insert_same; [exact Hi|].
      congruence. }
    split; [exact Hids|]. split; [|discriminate].
    intros r w0 Hw0 Hne. inversion Hw0; subst. apply Hframe. exact Hne.
  - split; [split; assumption|]. split; [reflexivity|].
    split; [intros r p Hr; eauto|]. split; [discriminate|reflexivity].
Qed.

Lemma step_data validate i s :
  validate_sound validate ->
  system_ok s -> data_ok s -> data_ok (step validate i s).
Proof.
  intros Hsound [Hst Hws] Hdata. unfold step.
  destruct (workers s !! i) as [w|] eqn:Hi; [|exact Hdata].
  destruct (step_worker validate (storage s) w) as [st' w'] eqn:Hstep.
  assert (worker_ok w) as Hw by (eapply Forall_lookup_1; eauto).
  destruct (step_worker_shape _ _ _ _ _ Hst Hw Hstep)
    as (Hst' & _ & _ & _ & _ & _).
  intros r p' Hr'. cbn [storage workers] in *.
  rewrite (total_insert r i w w' _ Hi).
  assert (is_Some (storage s !! r)) as [p Hr].
  { apply lookup_lt_is_Some. apply lookup_lt_Some in Hr'.
    destruct Hst as [-> _], Hst' as [Hl' _]. lia. }
  destruct (step_worker_data _ _ _ _ _ r p Hsound Hst Hw Hstep Hr)
    as [[Hsame Hc]|(q & Hq & Hd)].
  - rewrite Hsame in Hr'. inversion Hr'; subst. rewrite Hc.
    rewrite (Hdata r p' Hr). f_equal. lia.
  - rewrite Hq in Hr'. inversion Hr'; subst. rewrite Hd.
    rewrite (Hdata r p Hr). rewrite uint64_add_l. f_equal. lia.
Qed.

Lemma run_schedule_ok validate schedule :
  forall s,
    system_ok s ->
    system_ok (run_schedule validate schedule s)
    /\ tasks_of (run_schedule validate schedule s) = tasks_of s
    /\ (forall r p, storage s !! r = Some p ->
          exists p', storage (run_schedule validate schedule s) !! r = Some p'
                     /\ id_ p' = id_ p).
Proof.
  induction schedule as [|i schedule IH]; intros s Hs.
  - cbn. repeat split; try apply Hs. eauto.
  - cbn [run_schedule fold_left].
    destruct (step_ok validate i s Hs) as (Hs1 & Ht1 & Hid1 & _).
    destruct (IH _ Hs1) as (Hs2 & Ht2 & Hid2).
    split; [exact Hs2|]. split; [unfold run_schedule in Ht2; congruence|].
    intros r p Hr. destruct (Hid1 r p Hr) as (p1 & Hr1 & E1).
    destruct (Hid2 r p1 Hr1) as (p2 & Hr2 & E2).
    exists p2. split; [exact Hr2|congruence].
Qed.

Lemma run_schedule_data validate schedule :
  validate_sound validate ->
  forall s, system_ok s -> data_ok s ->
            data_ok (run_schedule validate schedule s).
Proof.
  intros Hsound. induction schedule as [|i schedule IH]; intros s Hs Hd.
  - exact Hd.
  - cbn [run_schedule fold_left]. apply IH.
    + apply step_ok. exact Hs.
    + apply step_data; assumption.
Qed.

(** *** The ends of [run_test] *)

Definition initial_storage : Storage :=
  map (fun i => mkPayload (Z.of_nat i) 0) (seq 0 RECORDS).

Lemma InitTask_run_storage validate e st x :
  InitTask_run validate inactive_xct = (e, st, x) ->
  is_error e = false ->
  st = initial_storage.
Proof.
  unfold InitTask_run. cbn. unfold precommit_xct. cbn [active negb read_set].
  destruct (validate _ []); intros H; inversion H; subst; [reflexivity|discriminate].
Qed.

Lemma initial_system_ok assign_func :
  system_ok (initial_system assign_func initial_storage)
  /\ data_ok (initial_system assign_func initial_storage).
Proof.
  split; [split|].
  - split; [reflexivity|]. intros r p Hr.
    do 10 (destruct r as [|r]; [inversion Hr; reflexivity|]). discriminate.
  - unfold initial_system. cbn [workers]. apply Forall_forall.
    intros w Hw. apply list_elem_of_In, in_map_iff in Hw.
    destruct Hw as (i & <- & _). split; [reflexivity|exact I].
  - intros r p Hr. cbn in Hr |- *.
    do 10 (destruct r as [|r]; [inversion Hr; subst; reflexivity|]). discriminate.
Qed.

(** [GetAllRecordsTask] returns the ten records as they are stored. *)
Lemma GetAllRecordsTask_run_output validate st e st' x output :
  length st = RECORDS ->
  GetAllRecordsTask_run validate st inactive_xct
    (replicate RECORDS (mkPayload 0 0)) = (e, st', x, output) ->
  is_error e = false ->
  output = st.
Proof.
  intros Hlen.
  do 10 (destruct st as [|? st]; [discriminate|]).
  destruct st; [|discriminate]. clear Hlen.
  unfold GetAllRecordsTask_run. cbn. unfold precommit_xct. cbn [active negb read_set].
  destruct (validate _ _); intros H; inversion H; subst; [reflexivity|discriminate].
Qed.

(** Once every task has returned without error, every task has committed. *)
Lemma all_returned_total (r : nat) (ws : list Worker) :
  first_error ws = None ->
  existsb pending ws = false ->
  total r ws
  = fold_right (fun w acc => (if (offset_ w =? r)%nat then amount_ w else 0) + acc) 0 ws
  /\ Forall (fun w => pc w = HasReturned RET_OK) ws.
Proof.
  induction ws as [|w ws IH]; intros Herr Hpend.
  - split; [reflexivity|constructor].
  - cbn [existsb] in Hpend. apply orb_false_iff in Hpend. destruct Hpend as [Hp Hps].
    cbn [first_error] in Herr. unfold pending in Hp.
    unfold total, contribution, committed in *. cbn [fold_right].
    destruct (pc w) eqn:Hpc; try discriminate.
    destruct (is_error result) eqn:He; [discriminate|].
    destruct (IH Herr Hps) as [IH1 IH2]. rewrite IH1. cbn [negb andb].
    split; [reflexivity|]. constructor; [|exact IH2].
    apply is_error_false in He. congruence.
Qed.

Lemma sum_over_tasks assign_func (r : nat) (l : list nat) (ws : list Worker) :
  map (fun w => (offset_ w, amount_ w)) ws
  = map (fun i => (assign_func i, amount_of i)) l ->
  fold_right (fun w acc => (if (offset_ w =? r)%nat then amount_ w else 0) + acc) 0 ws
  = fold_right (fun i acc => (if (assign_func i =? r)%nat then amount_of i else 0) + acc) 0 l.
Proof.
  revert l. induction ws as [|w ws IH]; intros [|i l] H; try discriminate.
  - reflexivity.
  - cbn in H. inversion H as [[Hoff Hamt Hrest]]. cbn [fold_right].
    rewrite (IH l Hrest), Hoff, Hamt. reflexivity.
Qed.

Lemma tasks_of_initial assign_func st :
  tasks_of (initial_system assign_func st)
  = map (fun i => (assign_func i, amount_of i)) (seq 0 THREADS).
Proof. unfold tasks_of, initial_system. cbn [workers]. rewrite map_map. reflexivity. Qed.

Lemma conditional_sum_bounds (c : nat -> bool) (l : list nat) :
  0 <= fold_right (fun i acc => (if c i then amount_of i else 0) + acc) 0 l
    <= fold_right (fun i acc => amount_of i + acc) 0 l.
Proof.
  induction l as [|i l IH]; cbn [fold_right]; [lia|].
  assert (0 <= amount_of i) by (unfold amount_of; lia).
  destruct (c i); lia.
Qed.

Lemma sum_assigned_bounds assign_func r : 0 <= sum_assigned assign_func r <= 940.
Proof.
  unfold sum_assigned.
  pose proof (conditional_sum_bounds (fun i => (assign_func i =? r)%nat)
                (seq 0 THREADS)) as H.
  change (fold_right (fun i acc => amount_of i + acc) 0 (seq 0 THREADS)) with 940 in H.
  exact H.
Qed.

Lemma sum_assigned_ext f g r :
  (forall i, (i < THREADS)%nat -> f i = g i) ->
  sum_assigned f r = sum_assigned g r.
Proof.
  intros H. unfold sum_assigned.
  assert (forall l, (forall i, In i l -> (i < THREADS)%nat) ->
            fold_right (fun i acc => (if (f i =? r)%nat then amount_of i else 0) + acc) 0 l
            = fold_right (fun i acc => (if (g i =? r)%nat then amount_of i else 0) + acc) 0 l)
    as Hl.
  { induction l as [|i l IH]; intros Hin; [reflexivity|].
    cbn [fold_right]. rewrite IH by (intros j Hj; apply Hin; right; exact Hj).
    rewrite (H i) by (apply Hin; left; reflexivity). reflexivity. }
  apply Hl. intros i Hi. apply in_seq in Hi. lia.
Qed.

Lemma map_by_offset {A : Type} (g : A -> Z) (f : nat -> Z) (l : list A) (start : nat) :
  (forall r x, l !! r = Some x -> g x = f (start + r)%nat) ->
  map g l = map f (seq start (length l)).
Proof.
  revert start. induction l as [|a l IH]; intros start H; [reflexivity|].
  cbn [map length seq]. f_equal.
  - rewrite (H 0%nat a eq_refl). f_equal. lia.
  - apply IH. intros r x Hr. rewrite (H (S r) x Hr). f_equal. lia.
Qed.

(** [answers], as lines 146-150 compute it, holds the sums by record. *)
Lemma fold_add_answer assign_func (l : list nat) :
  forall answers,
    length answers = THREADS ->
    Forall (fun a => 0 <= a < 2 ^ 64) answers ->
    (forall i, In i l -> (assign_func i < THREADS)%nat) ->
    let answers' := fold_left (add_answer assign_func) l answers in
    length answers' = THREADS
    /\ Forall (fun a => 0 <= a < 2 ^ 64) answers'
    /\ forall r a a', answers !! r = Some a -> answers' !! r = Some a' ->
         uint64 a'
         = uint64 (a + fold_right (fun i acc =>
                          (if (assign_func i =? r)%nat then amount_of i else 0) + acc) 0 l).
Proof.
  induction l as [|i l IH]; intros answers Hlen Hrange Hassign.
  - cbn. split; [exact Hlen|]. split; [exact Hrange|].
    intros r a a' Ha Ha'. rewrite Ha in Ha'. inversion Ha'; subst. f_equal. lia.
  - cbn [fold_left fold_right].
    assert (is_Some (answers !! assign_func i)) as [v Hv].
    { apply lookup_lt_is_Some. rewrite Hlen. apply Hassign. left. reflexivity. }
    set (next := add_answer assign_func answers i).
    assert (next = <[assign_func i := uint64 (v + amount_of i)]> answers) as Hnext
      by (unfold next, add_answer; rewrite Hv; reflexivity).
    destruct (IH next) as (Hlen' & Hrange' & Hsum).
    { rewrite Hnext, length_insert. exact Hlen. }
    { rewrite Hnext. apply Forall_insert; [exact Hrange|].
      unfold uint64. apply Z.mod_pos_bound. lia. }
    { intros j Hj. apply Hassign. right. exact Hj. }
    split; [exact Hlen'|]. split; [exact Hrange'|].
    intros r a a' Ha Ha'.
    destruct (Nat.eqb_spec (assign_func i) r) as [E|E].
    + assert (next !! r = Some (uint64 (v + amount_of i))) as Hn.
      { rewrite Hnext, <- E. apply list_lookup_insert_eq.
        apply lookup_lt_Some in Hv. exact Hv. }
      rewrite (Hsum r _ a' Hn Ha'). rewrite uint64_add_l.
      rewrite <- E in Ha. rewrite Hv in Ha. inversion Ha; subst. f_equal. lia.
    + assert (next !! r = Some a) as Hn.
      { rewrite Hnext, list_lookup_insert_ne by exact E. exact Ha. }
      rewrite (Hsum r a a' Hn Ha'). f_equal.
Qed.

Lemma compute_answers_sums assign_func :
  (forall i, (i < THREADS)%nat -> (assign_func i < THREADS)%nat) ->
  compute_answers assign_func = map (sum_assigned assign_func) (seq 0 THREADS).
Proof.
  intros Hassign. unfold compute_answers.
  destruct (fold_add_answer assign_func (seq 0 THREADS) (replicate THREADS 0))
    as (Hlen & Hrange & Hsum).
  - reflexivity.
  - apply Forall_forall. intros a Ha. apply elem_of_replicate in Ha.
    destruct Ha as [-> _]. lia.
  - intros i Hi. apply Hassign. apply in_seq in Hi. lia.
  - rewrite <- (map_id (fold_left _ _ _)).
    rewrite (map_by_offset (fun a => a) (sum_assigned assign_func) _ 0).
    + rewrite Hlen. reflexivity.
    + intros r a' Ha'. cbn [Nat.add].
      assert ((r < THREADS)%nat) as Hr by (apply lookup_lt_Some in Ha'; lia).
      assert (replicate THREADS 0 !! r = Some 0) as H0
        by (apply lookup_replicate_2; exact Hr).
      pose proof (Hsum r 0 a' H0 Ha') as E.
      change (uint64 a' = uint64 (sum_assigned assign_func r)) in E.
      rewrite (uint64_small (sum_assigned assign_func r)) in E
        by (pose proof (sum_assigned_bounds assign_func r); lia).
      rewrite uint64_small in E; [exact E|].
      eapply Forall_lookup_1 in Hrange; [|exact Ha']. exact Hrange.
Qed.

Lemma check_payloads_pass (answers : list Z) (payloads : list Payload) (count : nat) :
  forall i failed,
    (forall r, (i <= r < i + count)%nat ->
       exists p, payloads !! r = Some p
                 /\ id_ p = Z.of_nat r
                 /\ answers !! r = Some (data_ p)) ->
    check_payloads answers payloads count i failed = failed.
Proof.
  induction count as [|count IH]; intros i failed H; [reflexivity|].
  cbn [check_payloads].
  destruct (H i ltac:(lia)) as (p & -> & Hid & ->).
  unfold default, from_option, EXPECT_EQ, id. rewrite Hid, !Z.eqb_refl.
  apply IH. intros r Hr. apply H. lia.
Qed.

Lemma list_sum_zero (l : list nat) :
  Forall (fun n => n = 0%nat) l -> list_sum l = 0%nat.
Proof.
  unfold list_sum. induction 1 as [|n l Hn _ IH]; [reflexivity|].
  cbn [fold_right]. rewrite Hn, IH. reflexivity.
Qed.

(** What a run that reaches the end of [run_test] went through. *)
Lemma run_test_ran validate assign_func schedule payloads failed :
  run_test validate assign_func schedule = Ran payloads failed ->
  let s := run_schedule validate schedule
             (initial_system assign_func initial_storage) in
  payloads = storage s
  /\ system_ok s
  /\ tasks_of s = map (fun i => (assign_func i, amount_of i)) (seq 0 THREADS)
  /\ first_error (workers s) = None
  /\ existsb pending (workers s) = false
  /\ failed = check_payloads (compute_answers assign_func) payloads THREADS 0
                (list_sum (map failed_expectations (workers s))).
Proof.
  intros H s. unfold run_test in H.
  destruct (InitTask_run validate inactive_xct) as [[e st] x] eqn:Hinit.
  destruct (is_error e) eqn:He; [discriminate|].
  pose proof (InitTask_run_storage _ _ _ _ Hinit He) as ->.
  fold s in H.
  destruct (initial_system_ok assign_func) as [Hok0 _].
  destruct (run_schedule_ok validate schedule _ Hok0) as (Hok & Htasks & _).
  fold s in Hok, Htasks. rewrite tasks_of_initial in Htasks.
  destruct (first_error (workers s)) eqn:Herr; [discriminate|].
  destruct (existsb pending (workers s)) eqn:Hpend; [discriminate|].
  destruct (GetAllRecordsTask_run validate (storage s) inactive_xct
              (replicate RECORDS (mkPayload 0 0))) as [[[e' st'] x'] output] eqn:Hget.
  destruct (is_error e') eqn:He'; [discriminate|].
  pose proof (GetAllRecordsTask_run_output _ _ _ _ _ _
                (proj1 (proj1 Hok)) Hget He') as ->.
  inversion H; subst. repeat split; try assumption; apply Hok.
Qed.

(** In such a run every task was assigned a record of the array. *)
Lemma run_test_ran_in_range validate assign_func schedule payloads failed :
  run_test validate assign_func schedule = Ran payloads failed ->
  forall i, (i < THREADS)%nat -> (assign_func i < RECORDS)%nat.
Proof.
  intros H i Hi.
  destruct (run_test_ran _ _ _ _ _ H) as (_ & [_ Hws] & Htasks & Herr & Hpend & _).
  set (s := run_schedule validate schedule
              (initial_system assign_func initial_storage)) in *.
  destruct (all_returned_total 0 _ Herr Hpend) as [_ Hret].
  assert (tasks_of s !! i = Some (assign_func i, amount_of i)) as Hl.
  { rewrite Htasks. rewrite list_lookup_fmap_Some. exists i. split; [reflexivity|].
    apply lookup_seq. split; [reflexivity|exact Hi]. }
  unfold tasks_of in Hl. apply list_lookup_fmap_Some in Hl.
  destruct Hl as (w & Hw & E). inversion Hw as [[Hoff Hamt]].
  pose proof (Forall_lookup_1 _ _ _ _ Hws E) as [_ Hshape].
  pose proof (Forall_lookup_1 _ _ _ _ Hret E) as Hpc. cbn beta in Hpc.
  rewrite Hpc in Hshape. rewrite Hoff. apply Hshape.
Qed.

(** *** A run that reaches the end

    With the exact validation and the tasks run one after the other, no
    transaction is refused and [run_test] reaches its end, whatever the
    assignment into the array. *)

Lemma run_schedule_app validate l1 l2 s :
  run_schedule validate (l1 ++ l2) s
  = run_schedule validate l2 (run_schedule validate l1 s).
Proof. unfold run_schedule. apply fold_left_app. Qed.

Lemma run_replicate validate (n i : nat) :
  forall s w,
    workers s !! i = Some w ->
    run_schedule validate (replicate n i) s
    = mkSystem (fst (run_alone validate n (storage s) w))
               (<[i := snd (run_alone validate n (storage s) w)]> (workers s)).
Proof.
  induction n as [|n IH]; intros s w Hw.
  - cbn. rewrite list_insert_id by exact Hw. destruct s. reflexivity.
  - cbn [replicate run_schedule fold_left run_alone]. unfold step at 2. rewrite Hw.
    destruct (step_worker validate (storage s) w) as [st' w'].
    assert (i < length (workers s))%nat as Hi by (eapply lookup_lt_Some; eauto).
    change (fold_left (fun s0 i0 => step validate i0 s0) (replicate n i) ?x)
      with (run_schedule validate (replicate n i) x).
    rewrite (IH _ w') by (cbn [workers]; apply list_lookup_insert_eq; exact Hi).
    cbn [storage workers]. rewrite list_insert_insert_eq. reflexivity.
Qed.

Lemma progress_start validate st w :
  pc w = AtStart ->
  step_worker validate st w = (st, goto AtBegin (xct w) [] w).
Proof. intros H. unfold step_worker. rewrite H. reflexivity. Qed.

Lemma progress_begin validate st w :
  pc w = AtBegin -> active (xct w) = false ->
  step_worker validate st w = (st, goto AtGet (mkXct true [] []) [CallBegin] w).
Proof.
  intros H Ha. unfold step_worker, begin_xct. rewrite H, Ha. reflexivity.
Qed.

Lemma progress_get validate st w p :
  pc w = AtGet -> xct w = mkXct true [] [] -> st !! offset_ w = Some p ->
  step_worker validate st w
  = (st, goto AtOverwrite (mkXct true [(offset_ w, p)] []) [CallGet (offset_ w)]
              (with_payload p (failed_expectations w) w)).
Proof.
  intros H Hx Hp. unfold step_worker, get_record. rewrite H, Hx. cbn [active negb].
  rewrite Hp. reflexivity.
Qed.

Lemma progress_overwrite validate st w reads :
  pc w = AtOverwrite -> xct w = mkXct true reads [] ->
  (offset_ w < length st)%nat ->
  let p := mkPayload (id_ (payload w)) (uint64 (data_ (payload w) + amount_ w)) in
  step_worker validate st w
  = (st, goto AtPrecommit (mkXct true reads [(offset_ w, p)])
              [CallOverwrite (offset_ w) p]
              (with_payload p (EXPECT_EQ (Z.of_nat (offset_ w)) (id_ (payload w))
                                         (failed_expectations w)) w)).
Proof.
  intros H Hx Hlt p. unfold step_worker, overwrite_record. rewrite H, Hx.
  cbn [active negb read_set write_set].
  assert ((offset_ w <? length st)%nat = true) as -> by (apply Nat.ltb_lt; exact Hlt).
  reflexivity.
Qed.

Lemma progress_precommit validate st w reads writes :
  pc w = AtPrecommit -> xct w = mkXct true reads writes ->
  validate st reads = true ->
  step_worker validate st w
  = (apply_writes writes st,
     goto (AtCheck RET_OK) inactive_xct [CallPrecommit RET_OK] w).
Proof.
  intros H Hx Hv. unfold step_worker, precommit_xct. rewrite H, Hx.
  cbn [active negb read_set write_set]. rewrite Hv. reflexivity.
Qed.

Lemma progress_check_ok validate st w :
  pc w = AtCheck RET_OK ->
  step_worker validate st w = (st, goto (HasReturned RET_OK) (xct w) [] w).
Proof. intros H. unfold step_worker. rewrite H. reflexivity. Qed.

Lemma Payload_eqb_refl p : Payload_eqb p p = true.
Proof. unfold Payload_eqb. rewrite !Z.eqb_refl. reflexivity. Qed.

Lemma run_alone_step validate (n : nat) st w st' w' :
  step_worker validate st w = (st', w') ->
  run_alone validate (S n) st w = run_alone validate n st' w'.
Proof. intros H. cbn [run_alone]. rewrite H. reflexivity. Qed.

Lemma validate_reads_current st offset p :
  st !! offset = Some p -> validate_reads st [(offset, p)] = true.
Proof.
  intros Hp. cbn [validate_reads forallb fst snd].
  rewrite Hp, Payload_eqb_refl. reflexivity.
Qed.

(** Seven steps take a task from its start to its return when no other
    task moves. *)
Lemma task_alone st offset amount :
  (offset < length st)%nat ->
  pc (snd (run_alone validate_reads 7 st (new_worker offset amount)))
  = HasReturned RET_OK.
Proof.
  intros Hoff.
  assert (is_Some (st !! offset)) as [p Hp] by (apply lookup_lt_is_Some; exact Hoff).
  erewrite (run_alone_step _ 6) by (apply progress_start; reflexivity).
  erewrite (run_alone_step _ 5) by (apply progress_begin; reflexivity).
  erewrite (run_alone_step _ 4)
    by (apply (progress_get _ _ _ p); [reflexivity|reflexivity|exact Hp]).
  erewrite (run_alone_step _ 3)
    by (apply (progress_overwrite _ _ _ [(offset, p)]);
        [reflexivity|reflexivity|exact Hoff]).
  erewrite (run_alone_step _ 2)
    by (eapply progress_precommit;
        [reflexivity|reflexivity|apply validate_reads_current; exact Hp]).
  erewrite (run_alone_step _ 1) by (apply progress_check_ok; reflexivity).
  reflexivity.
Qed.

Lemma one_by_one_prefix assign_func (k : nat) :
  (k <= THREADS)%nat ->
  (forall i, (i < THREADS)%nat -> (assign_func i < RECORDS)%nat) ->
  let s := run_schedule validate_reads
             (flat_map (fun i => replicate 7 i) (seq 0 k))
             (initial_system assign_func initial_storage) in
  length (storage s) = RECORDS
  /\ length (workers s) = THREADS
  /\ forall j w, workers s !! j = Some w ->
       if (j <? k)%nat then pc w = HasReturned RET_OK
       else w = new_worker (assign_func j) (amount_of j).
Proof.
  intros Hk Hassign. induction k as [|k IH].
  - cbn [seq flat_map run_schedule fold_left]. split; [reflexivity|].
    split; [reflexivity|]. intros j w Hw. cbn [Nat.ltb Nat.leb].
    unfold initial_system in Hw. cbn [workers] in Hw.
    apply list_lookup_fmap_Some in Hw. destruct Hw as (i & -> & Hi).
    apply lookup_seq in Hi. destruct Hi as [-> _]. reflexivity.
  - intros s. subst s. rewrite seq_S, flat_map_app, run_schedule_app.
    cbn [flat_map Nat.add]. rewrite app_nil_r.
    destruct (IH ltac:(lia)) as (Hlen & Hws & Hshape).
    set (s := run_schedule validate_reads
                (flat_map (fun i => replicate 7 i) (seq 0 k))
                (initial_system assign_func initial_storage)) in *.
    assert (is_Some (workers s !! k)) as [w Hw]
      by (apply lookup_lt_is_Some; lia).
    pose proof (Hshape k w Hw) as Hnew. rewrite Nat.ltb_irrefl in Hnew. subst w.
    rewrite (run_replicate _ _ _ _ _ Hw). cbn [storage workers].
    destruct (initial_system_ok assign_func) as [Hok0 _].
    destruct (run_schedule_ok validate_reads
                (flat_map (fun i => replicate 7 i) (seq 0 k) ++ replicate 7 k)
                _ Hok0) as ([[Hlen' _] _] & _).
    rewrite run_schedule_app in Hlen'. fold s in Hlen'.
    rewrite (run_replicate _ _ _ _ _ Hw) in Hlen'. cbn [storage] in Hlen'.
    split; [exact Hlen'|]. split; [rewrite length_insert; exact Hws|].
    intros j w Hj. destruct (Nat.eq_dec k j) as [<-|Hne].
    + rewrite list_lookup_insert_eq in Hj by lia. inversion Hj; subst.
      assert ((k <? S k)%nat = true) as -> by (apply Nat.ltb_lt; lia).
      apply task_alone. rewrite Hlen. apply Hassign. lia.
    + rewrite list_lookup_insert_ne in Hj by exact Hne.
      pose proof (Hshape j w Hj) as Hold.
      destruct (Nat.ltb_spec j k), (Nat.ltb_spec j (S k)); try lia; exact Hold.
Qed.

Lemma GetAllRecordsTask_run_reads st :
  length st = RECORDS ->
  exists x, GetAllRecordsTask_run validate_reads st inactive_xct
              (replicate RECORDS (mkPayload 0 0)) = (RET_OK, st, x, st).
Proof.
  intros Hlen.
  do 10 (destruct st as [|? st]; [discriminate|]).
  destruct st; [|discriminate]. clear Hlen.
  unfold GetAllRecordsTask_run. cbn. unfold precommit_xct.
  cbn [active negb read_set validate_reads forallb fst snd lookup list_lookup].
  rewrite !Payload_eqb_refl. cbn. eauto.
Qed.

Lemma all_returned_no_error (ws : list Worker) :
  Forall (fun w => pc w = HasReturned RET_OK) ws ->
  first_error ws = None /\ existsb pending ws = false.
Proof.
  induction ws as [|w ws IH]; intros H; [split; reflexivity|].
  apply Forall_cons in H. destruct H as [Hw Hws].
  destruct (IH Hws) as [IH1 IH2].
  cbn [first_error existsb]. unfold pending. rewrite Hw.
  cbn [is_error RET_OK get_error_code ErrorCode_eqb negb orb]. auto.
Qed.

(** For every assignment into the array, the run one task after the
    other reaches the end of [run_test]. *)
Lemma one_by_one_completes assign_func :
  (forall i, (i < THREADS)%nat -> (assign_func i < RECORDS)%nat) ->
  exists payloads failed,
    run_test validate_reads assign_func one_by_one = Ran payloads failed.
Proof.
  intros Hassign. unfold run_test.
  change (InitTask_run validate_reads inactive_xct)
    with (RET_OK, initial_storage, inactive_xct).
  cbn [is_error RET_OK get_error_code ErrorCode_eqb negb].
  destruct (one_by_one_prefix assign_func THREADS (Nat.le_refl _) Hassign)
    as (Hlen & _ & Hshape).
  fold one_by_one in Hlen, Hshape.
  set (s := run_schedule validate_reads one_by_one
              (initial_system assign_func initial_storage)) in *.
  assert (Forall (fun w => pc w = HasReturned RET_OK) (workers s)) as Hret.
  { apply Forall_lookup_2. intros j w Hj. pose proof (Hshape j w Hj) as H.
    assert ((j <? THREADS)%nat = true) as E.
    { apply Nat.ltb_lt. apply lookup_lt_Some in Hj.
      destruct (one_by_one_prefix assign_func THREADS (Nat.le_refl _) Hassign)
        as (_ & Hws & _). fold one_by_one in Hws. fold s in Hws. lia. }
    rewrite E in H. exact H. }
  assert (first_error (workers s) = None /\ existsb pending (workers s) = false)
    as [-> ->].
  { apply all_returned_no_error. exact Hret. }
  destruct (GetAllRecordsTask_run_reads (storage s) Hlen) as [x ->].
  cbn [is_error RET_OK get_error_code ErrorCode_eqb negb]. eauto.
Qed.

Lemma validate_reads_sound : validate_sound validate_reads.
Proof.
  intros st reads H offset p Hin. unfold validate_reads in H.
  rewrite forallb_forall in H. specialize (H _ Hin). cbn [fst snd] in H.
  destruct (st !! offset) as [q|]; [|discriminate].
  unfold Payload_eqb in H. apply andb_true_iff in H. destruct H as [H1 H2].
  apply Z.eqb_eq in H1, H2. destruct p, q. cbn in *. congruence.
Qed.

(** The table a run ends with, whatever the schedule. *)
Lemma run_test_final_table validate assign_func schedule payloads failed :
  validate_sound validate ->
  run_test validate assign_func schedule = Ran payloads failed ->
  payloads = map (fun r => mkPayload (Z.of_nat r) (sum_assigned assign_func r))
                 (seq 0 RECORDS)
  /\ failed = 0%nat.
Proof.
  intros Hsound H.
  pose proof (run_test_ran_in_range _ _ _ _ _ H) as Hrange.
  destruct (run_test_ran _ _ _ _ _ H) as (-> & Hok & Htasks & Herr & Hpend & ->).
  set (s := run_schedule validate schedule
              (initial_system assign_func initial_storage)) in *.
  destruct (initial_system_ok assign_func) as [Hok0 Hdata0].
  pose proof (run_schedule_data validate schedule Hsound _ Hok0 Hdata0) as Hdata.
  fold s in Hdata. destruct Hok as [[Hlen Hid] Hws].
  assert (forall r p, storage s !! r = Some p ->
            p = mkPayload (Z.of_nat r) (sum_assigned assign_func r)) as Hrec.
  { intros r p Hr. destruct p as [i d]. f_equal.
    - exact (Hid _ _ Hr).
    - rewrite (Hdata _ _ Hr : d = _).
      destruct (all_returned_total r _ Herr Hpend) as [-> _].
      rewrite (sum_over_tasks assign_func r (seq 0 THREADS)) by exact Htasks.
      apply uint64_small. pose proof (sum_assigned_bounds assign_func r).
      unfold sum_assigned in *. lia. }
  assert (storage s = map (fun r => mkPayload (Z.of_nat r) (sum_assigned assign_func r))
                          (seq 0 RECORDS)) as Htable.
  { apply list_eq. intros r. rewrite list_lookup_fmap.
    destruct (storage s !! r) as [p|] eqn:Hr.
    - rewrite (Hrec _ _ Hr). rewrite (lookup_seq_lt 0 RECORDS r); [reflexivity|].
      apply lookup_lt_Some in Hr. lia.
    - apply lookup_ge_None in Hr. rewrite lookup_seq_ge by lia. reflexivity. }
  split; [exact Htable|].
  rewrite list_sum_zero.
  - apply check_payloads_pass. intros r Hr. rewrite Htable.
    eexists. split; [|split].
    + rewrite list_lookup_fmap, (lookup_seq_lt 0 RECORDS r) by (unfold THREADS, RECORDS in *; lia).
      reflexivity.
    + reflexivity.
    + rewrite compute_answers_sums by exact Hrange.
      rewrite list_lookup_fmap, (lookup_seq_lt 0 THREADS r) by lia. reflexivity.
  - apply Forall_forall. intros n Hn. apply list_elem_of_In, in_map_iff in Hn.
    destruct Hn as (w & <- & Hw). apply list_elem_of_In in Hw.
    rewrite Forall_forall in Hws. apply (Hws w Hw).
Qed.

(** The table that depends on the assignment alone. *)
Definition final_table (assign_func : nat -> nat) : list Payload :=
  map (fun r => mkPayload (Z.of_nat r) (sum_assigned assign_func r)) (seq 0 RECORDS).

(** C6.  For every assignment of the ten tasks to records of the array:
    the run of [run_test] with the tasks one after the other reaches its
    end; and every run that reaches its end, under any interleaving of the
    tasks (hence any commit order and any number of race-aborts) and any
    validation step that accepts only transactions whose reads are still
    current, ends with the same table, in which record [r] holds [id_ = r]
    and [data_] the sum of [i * 20 + 4] over the tasks [i] assigned to [r],
    and with no failed [EXPECT_EQ].  These sums are the [answers] the test
    computes, and when every task is assigned record 0 they are 940
    followed by nine zeros. *)
Theorem increments_commute assign_func :
  (forall i, (i < THREADS)%nat -> (assign_func i < RECORDS)%nat) ->
  run_test validate_reads assign_func one_by_one = Ran (final_table assign_func) 0
  /\ (forall validate schedule payloads failed,
        validate_sound validate ->
        run_test validate assign_func schedule = Ran payloads failed ->
        payloads = final_table assign_func /\ failed = 0%nat)
  /\ map data_ (final_table assign_func) = compute_answers assign_func
  /\ ((forall i, (i < THREADS)%nat -> assign_func i = 0%nat) ->
      map data_ (final_table assign_func) = [940; 0; 0; 0; 0; 0; 0; 0; 0; 0]).
Proof.
  intros Hassign. split; [|split; [|split]].
  - destruct (one_by_one_completes assign_func Hassign) as (payloads & failed & H).
    destruct (run_test_final_table _ _ _ _ _ validate_reads_sound H) as [-> ->].
    exact H.
  - intros validate schedule payloads failed Hsound H.
    exact (run_test_final_table _ _ _ _ _ Hsound H).
  - rewrite compute_answers_sums by exact Hassign.
    unfold final_table. rewrite map_map. reflexivity.
  - intros Hzero. unfold final_table. rewrite map_map. cbn [data_].
    rewrite (map_ext _ (sum_assigned (fun _ => 0%nat)))
      by (intros r; apply sum_assigned_ext; exact Hzero).
    reflexivity.
Qed.

Lemma increments_commute_witness :
  (forall i, (i < THREADS)%nat -> ((fun _ : nat => 0%nat) i < RECORDS)%nat)
  /\ run_test validate_reads (fun _ => 0%nat) one_by_one
     = Ran (final_table (fun _ => 0%nat)) 0
  /\ (forall payloads failed,
        run_test validate_reads (fun _ => 0%nat) (round_robin 60)
          = Ran payloads failed ->
        map data_ payloads = [940; 0; 0; 0; 0; 0; 0; 0; 0; 0]).
Proof.
  assert (forall i, (i < THREADS)%nat -> ((fun _ : nat => 0%nat) i < RECORDS)%nat)
    as Hassign by (intros i _; unfold RECORDS; lia).
  split; [exact Hassign|].
  destruct (increments_commute (fun _ => 0%nat) Hassign)
    as (Hrun & Hall & _ & Hzero).
  split; [exact Hrun|].
  intros payloads failed H.
  destruct (Hall validate_reads (round_robin 60) payloads failed
              validate_reads_sound H) as [-> _].
  apply Hzero. reflexivity.
Defined.

(** C7 (as amended).  In the LightConflict scenario, [assign(i) = i / 2],
    the run with the tasks one after the other reaches its end, and every
    run that reaches its end, under a validation step that accepts only
    transactions whose reads are still current, leaves [data_] at 28, 108,
    188, 268 and 348 in records 0 to 4 and at 0 in records 5 to 9. *)
Theorem light_conflict_final_data :
  (exists payloads, run_test validate_reads (fun i => i / 2)%nat one_by_one
                    = Ran payloads 0)
  /\ forall validate schedule payloads failed,
       validate_sound validate ->
       run_test validate (fun i => i / 2)%nat schedule = Ran payloads failed ->
       map data_ payloads = [28; 108; 188; 268; 348; 0; 0; 0; 0; 0].
Proof.
  split.
  - exists (final_table (fun i => i / 2)%nat). vm_compute. reflexivity.
  - intros validate schedule payloads failed Hsound H.
    destruct (run_test_final_table _ _ _ _ _ Hsound H) as [-> _].
    reflexivity.
Qed.

Lemma light_conflict_final_data_witness :
  validate_sound validate_reads
  /\ exists payloads failed,
       run_test validate_reads (fun i => i / 2)%nat (round_robin 20)
         = Ran payloads failed
       /\ map data_ payloads = [28; 108; 188; 268; 348; 0; 0; 0; 0; 0].
Proof.
  split; [exact validate_reads_sound|].
  destruct (run_test validate_reads (fun i => i / 2)%nat (round_robin 20))
    as [e| |payloads failed] eqn:Hrun; try (vm_compute in Hrun; discriminate).
  exists payloads, failed. split; [reflexivity|].
  exact (proj2 light_conflict_final_data validate_reads (round_robin 20)
           payloads failed validate_reads_sound Hrun).
Defined.

(** C7 as stated fails: with the tasks run one after the other, records 1
    to 4 end at 108, 188, 268 and 348, which are also the [answers] the
    test computes, not at 112, 192, 272 and 352. *)
Lemma light_conflict_not_as_listed :
  exists payloads,
    run_test validate_reads (fun i => i / 2)%nat one_by_one = Ran payloads 0
    /\ map data_ payloads = [28; 108; 188; 268; 348; 0; 0; 0; 0; 0]
    /\ compute_answers (fun i => i / 2)%nat = [28; 108; 188; 268; 348; 0; 0; 0; 0; 0]
    /\ map data_ payloads <> [28; 112; 192; 272; 352; 0; 0; 0; 0; 0].
Proof.
  eexists. split; [vm_compute; reflexivity|].
  split; [reflexivity|]. split; [reflexivity|]. discriminate.
Qed.

(** *** The [id_] fields *)

Lemma storage_ok_ids (st : Storage) :
  storage_ok st -> map id_ st = map Z.of_nat (seq 0 RECORDS).
Proof.
  intros [Hlen Hid]. rewrite <- Hlen. apply map_by_offset. exact Hid.
Qed.

Lemma worker_of_task validate assign_func schedule i w :
  workers (run_schedule validate schedule
             (initial_system assign_func initial_storage)) !! i = Some w ->
  offset_ w = assign_func i /\ amount_ w = amount_of i.
Proof.
  intros Hw.
  destruct (initial_system_ok assign_func) as [Hok0 _].
  destruct (run_schedule_ok validate schedule _ Hok0) as (_ & Htasks & _).
  rewrite tasks_of_initial in Htasks.
  assert (tasks_of (run_schedule validate schedule
                      (initial_system assign_func initial_storage)) !! i
          = Some (offset_ w, amount_ w)) as Hl.
  { unfold tasks_of. rewrite list_lookup_fmap_Some. exists w. split; [reflexivity|exact Hw]. }
  rewrite Htasks in Hl. apply list_lookup_fmap_Some in Hl.
  destruct Hl as (j & Hj & E). apply lookup_seq in E. destruct E as [E _].
  cbn in E. subst j. inversion Hj. split; reflexivity.
Qed.

(** C8.  After [InitTask] record [i] has [id_ = i]; at every point of every
    interleaving of the ten tasks it still has; a step of task [i] leaves
    every record other than the one assigned to it as it was, and changes
    no [id_]; and the payloads read back at the end of [run_test] have
    [id_ = i]. *)
Theorem id_unchanged validate assign_func schedule :
  let before := initial_system assign_func initial_storage in
  let after := run_schedule validate schedule before in
  map id_ (storage before) = map Z.of_nat (seq 0 RECORDS)
  /\ map id_ (storage after) = map Z.of_nat (seq 0 RECORDS)
  /\ (forall i r, r <> assign_func i ->
        storage (step validate i after) !! r = storage after !! r)
  /\ (forall i r p, storage after !! r = Some p ->
        exists p', storage (step validate i after) !! r = Some p'
                   /\ id_ p' = id_ p)
  /\ (forall payloads failed,
        run_test validate assign_func schedule = Ran payloads failed ->
        map id_ payloads = map Z.of_nat (seq 0 RECORDS)).
Proof.
  intros before after.
  destruct (initial_system_ok assign_func) as [Hok0 _].
  destruct (run_schedule_ok validate schedule _ Hok0) as (Hok & _ & _).
  fold before in Hok0, Hok. fold after in Hok.
  split; [apply storage_ok_ids, Hok0|].
  split; [apply storage_ok_ids, Hok|].
  split; [|split].
  - intros i r Hne.
    destruct (step_ok validate i after Hok) as (_ & _ & _ & Hframe & Hnone).
    destruct (workers after !! i) as [w|] eqn:Hw.
    + apply (Hframe r w eq_refl).
      destruct (worker_of_task _ _ _ _ _ Hw) as [-> _]. exact Hne.
    + rewrite (Hnone eq_refl). reflexivity.
  - intros i r p Hr.
    destruct (step_ok validate i after Hok) as (_ & _ & Hids & _).
    exact (Hids r p Hr).
  - intros payloads failed H.
    destruct (run_test_ran _ _ _ _ _ H) as (-> & Hs & _).
    apply storage_ok_ids, Hs.
Qed.

Lemma id_unchanged_witness :
  exists payloads,
    run_test validate_reads (fun i => i / 5)%nat (round_robin 40) = Ran payloads 0
    /\ map id_ payloads = [0; 1; 2; 3; 4; 5; 6; 7; 8; 9].
Proof.
  destruct (run_test validate_reads (fun i => i / 5)%nat (round_robin 40))
    as [e| |payloads failed] eqn:Hrun; try (vm_compute in Hrun; discriminate).
  exists payloads.
  assert (failed = 0%nat) as ->
    by (vm_compute in Hrun; inversion Hrun; reflexivity).
  split; [reflexivity|].
  exact (proj2 (proj2 (proj2 (proj2
           (id_unchanged validate_reads (fun i => i / 5)%nat (round_robin 40)))))
           payloads 0%nat Hrun).
Defined.

(** *** The retry driver *)

Lemma step_worker_returns validate st w :
  (forall e, pc w = HasReturned e -> e = RET_OK) ->
  forall e, pc (snd (step_worker validate st w)) = HasReturned e -> e = RET_OK.
Proof.
  intros Hw e. unfold step_worker. destruct w as [off amt pcw pay x fl cl].
  cbn [pc xct offset_ amount_ payload failed_expectations calls] in *.
  destruct pcw.
  - cbn. discriminate.
  - destruct (begin_xct x) as [e1 x1]. cbn. destruct (is_error e1); discriminate.
  - destruct (get_record st x off) as [[e1 x1] out]. cbn.
    destruct (is_error e1); discriminate.
  - destruct (overwrite_record st x off _) as [e1 x1]. cbn.
    destruct (is_error e1); discriminate.
  - destruct (precommit_xct validate st x) as [[e1 st1] x1]. cbn. discriminate.
  - unfold run_dispatch, is_running_xct, abort_xct.
    destruct (is_error error_stack); cbn [negb].
    + destruct (ErrorCode_eqb _ _); [|cbn; discriminate].
      destruct (active x); cbn; discriminate.
    + cbn. intros H. inversion H. reflexivity.
  - cbn. apply Hw.
  - cbn. discriminate.
Qed.

Lemma run_schedule_returns validate schedule :
  forall s,
    Forall (fun w => forall e, pc w = HasReturned e -> e = RET_OK) (workers s) ->
    Forall (fun w => forall e, pc w = HasReturned e -> e = RET_OK)
           (workers (run_schedule validate schedule s)).
Proof.
  induction schedule as [|i schedule IH]; intros s Hs; [exact Hs|].
  cbn [run_schedule fold_left]. apply IH. unfold step.
  destruct (workers s !! i) as [w|] eqn:Hw; [|exact Hs].
  pose proof (step_worker_returns validate (storage s) w
                (Forall_lookup_1 _ _ _ _ Hs Hw)) as Hstep.
  destruct (step_worker validate (storage s) w) as [st' w']. cbn [workers].
  apply Forall_insert; [exact Hs|exact Hstep].
Qed.

(** C2.  What [TestTask::run] does with the value of [try_transaction],
    whatever the storage and the transaction record: on ok it returns ok;
    on race-abort it calls [abort_xct] exactly when a transaction is still
    running, and starts [try_transaction] again; on any other error it
    stops in [COERCE_ERROR] with that error and does not retry.  And in
    every interleaved run of the ten tasks, a task that has returned has
    returned ok, never race-abort. *)
Theorem retry_driver validate :
  (forall st w error_stack,
     pc w = AtCheck error_stack ->
     let w' := snd (step_worker validate st w) in
     fst (step_worker validate st w) = st
     /\ (is_error error_stack = false ->
         pc w' = HasReturned RET_OK /\ calls w' = calls w)
     /\ (get_error_code error_stack = ERROR_CODE_XCT_RACE_ABORT ->
         is_running_xct (xct w) = true ->
         pc w' = AtBegin /\ calls w' = calls w ++ [CallAbort]
         /\ is_running_xct (xct w') = false)
     /\ (get_error_code error_stack = ERROR_CODE_XCT_RACE_ABORT ->
         is_running_xct (xct w) = false ->
         pc w' = AtBegin /\ calls w' = calls w /\ xct w' = xct w)
     /\ (is_error error_stack = true ->
         get_error_code error_stack <> ERROR_CODE_XCT_RACE_ABORT ->
         pc w' = HasAborted error_stack /\ calls w' = calls w))
  /\ (forall assign_func st schedule i w result,
        workers (run_schedule validate schedule (initial_system assign_func st)) !! i
          = Some w ->
        pc w = HasReturned result ->
        result = RET_OK
        /\ get_error_code result <> ERROR_CODE_XCT_RACE_ABORT).
Proof.
  split.
  - intros st w error_stack Hpc w'. subst w'. unfold step_worker. rewrite Hpc.
    unfold run_dispatch, is_running_xct, abort_xct.
    destruct (is_error error_stack) eqn:He; cbn [negb].
    + destruct (ErrorCode_eqb (get_error_code error_stack) ERROR_CODE_XCT_RACE_ABORT)
        eqn:Hrace.
      * apply ErrorCode_eqb_eq in Hrace.
        destruct (active (xct w)) eqn:Ha; cbn;
          rewrite ?app_nil_r; repeat split; try discriminate; try reflexivity;
          try (intros; congruence); destruct (xct w); reflexivity.
      * assert (get_error_code error_stack <> ERROR_CODE_XCT_RACE_ABORT) as Hne.
        { intros E. apply ErrorCode_eqb_eq in E. congruence. }
        cbn. rewrite ?app_nil_r. repeat split; try discriminate; try reflexivity;
          intros; congruence.
    + assert (get_error_code error_stack <> ERROR_CODE_XCT_RACE_ABORT) as Hne.
      { apply is_error_false in He. subst. discriminate. }
      cbn. rewrite ?app_nil_r. repeat split; try discriminate; try reflexivity;
        intros; congruence.
  - intros assign_func st schedule i w result Hw Hpc.
    assert (result = RET_OK) as ->; [|split; [reflexivity|discriminate]].
    assert (Forall (fun w => forall e, pc w = HasReturned e -> e = RET_OK)
              (workers (initial_system assign_func st))) as H0.
    { apply Forall_forall. intros v Hv. apply list_elem_of_In, in_map_iff in Hv.
      destruct Hv as (j & <- & _). discriminate. }
    pose proof (run_schedule_returns validate schedule _ H0) as H.
    exact (Forall_lookup_1 _ _ _ _ H Hw result Hpc).
Qed.

(** A task whose [precommit_xct] has just lost a race. *)
Definition raced_worker : Worker :=
  mkWorker 0 4 (AtCheck (ERROR_STACK ERROR_CODE_XCT_RACE_ABORT)) (mkPayload 0 4)
           inactive_xct 0
           [CallBegin; CallGet 0; CallOverwrite 0 (mkPayload 0 4);
            CallPrecommit (ERROR_STACK ERROR_CODE_XCT_RACE_ABORT)].

Lemma retry_driver_witness :
  pc (snd (step_worker validate_reads initial_storage raced_worker)) = AtBegin
  /\ forall i w result,
       workers (run_schedule validate_reads (round_robin 60)
                  (initial_system (fun _ => 0%nat) initial_storage)) !! i = Some w ->
       pc w = HasReturned result -> result = RET_OK.
Proof.
  pose proof (retry_driver validate_reads) as [Hstep Hrun]. split.
  - destruct (Hstep initial_storage raced_worker
                (ERROR_STACK ERROR_CODE_XCT_RACE_ABORT) eq_refl)
      as (_ & _ & _ & Hretry & _).
    apply (Hretry eq_refl eq_refl).
  - intros i w result Hw Hpc.
    apply (Hrun (fun _ => 0%nat) initial_storage (round_robin 60) i w result Hw Hpc).
Defined.

(** *** The calls of a task *)

(** One pass through [try_transaction] that got as far as
    [precommit_xct], which returned [result]. *)
Definition attempt (offset : nat) (p : Payload) (result : ErrorStack) : list Call :=
  [CallBegin; CallGet offset; CallOverwrite offset p; CallPrecommit result].

(** The passes that [precommit_xct] refused, each with the payload it had
    tried to write. *)
Definition refused_attempts (offset : nat) (refused : list Payload) : list Call :=
  flat_map (fun p => attempt offset p (ERROR_STACK ERROR_CODE_XCT_RACE_ABORT)) refused.

(** [abort_xct] was not called, and a task that is handed race-abort has no
    transaction running. *)
Definition no_abort (w : Worker) : Prop :=
  ~ In CallAbort (calls w)
  /\ forall e, pc w = AtCheck e ->
       get_error_code e = ERROR_CODE_XCT_RACE_ABORT -> active (xct w) = false.

(** The calls made so far: refused passes, and then the pass under way. *)
Definition history (w : Worker) : Prop :=
  exists refused,
    let past := refused_attempts (offset_ w) refused in
    match pc w with
    | AtStart | AtBegin => calls w = past
    | AtGet => calls w = past ++ [CallBegin]
    | AtOverwrite => calls w = past ++ [CallBegin; CallGet (offset_ w)]
    | AtPrecommit =>
        calls w = past ++ [CallBegin; CallGet (offset_ w);
                           CallOverwrite (offset_ w) (payload w)]
    | AtCheck e =>
        if is_error e then
          get_error_code e = ERROR_CODE_XCT_RACE_ABORT ->
          calls w = past /\ active (xct w) = false
        else calls w = past ++ attempt (offset_ w) (payload w) RET_OK
    | HasReturned e =>
        e = RET_OK /\ calls w = past ++ attempt (offset_ w) (payload w) RET_OK
    | HasAborted _ => True
    end.

Lemma not_in_snoc {A : Type} (x y : A) (l : list A) :
  ~ In x l -> x <> y -> ~ In x (l ++ [y]).
Proof.
  intros Hl Hne Hin. apply in_app_or in Hin. destruct Hin as [Hin|[E|[]]]; auto.
Qed.

Lemma step_worker_no_abort validate st w :
  no_abort w -> no_abort (snd (step_worker validate st w)).
Proof.
  intros [Hcalls Hrace]. unfold step_worker, no_abort.
  destruct w as [off amt pcw pay x fl cl].
  cbn [pc xct offset_ amount_ payload failed_expectations calls] in *.
  assert (forall c, c <> CallAbort -> ~ In CallAbort (cl ++ [c])) as Hsnoc.
  { intros c Hc. apply not_in_snoc; [exact Hcalls|congruence]. }
  destruct pcw.
  - cbn. rewrite app_nil_r. split; [exact Hcalls|discriminate].
  - unfold begin_xct. destruct (active x);
      cbn [snd goto calls pc xct is_error negb ERROR_STACK RET_OK get_error_code
           ErrorCode_eqb];
      (split; [apply Hsnoc; discriminate|]);
      [intros e H; inversion H; subst; discriminate|discriminate].
  - unfold get_record. destruct (negb (active x)); [|destruct (st !! off)];
      cbn [snd goto calls pc xct is_error negb ERROR_STACK RET_OK get_error_code
           ErrorCode_eqb with_payload];
      (split; [apply Hsnoc; discriminate|]);
      try discriminate; intros e H; inversion H; subst; discriminate.
  - unfold overwrite_record.
    destruct (negb (active x)); [|destruct (negb (off <? length st)%nat)];
      cbn [snd goto calls pc xct is_error negb ERROR_STACK RET_OK get_error_code
           ErrorCode_eqb with_payload];
      (split; [apply Hsnoc; discriminate|]);
      try discriminate; intros e H; inversion H; subst; discriminate.
  - unfold precommit_xct.
    destruct (negb (active x)); [|destruct (validate st (read_set x))];
      cbn [snd goto calls pc xct];
      (split; [apply Hsnoc; discriminate|]).
    + intros e H; inversion H; subst; discriminate.
    + intros e H _; reflexivity.
    + intros e H _; reflexivity.
  - unfold run_dispatch, is_running_xct, abort_xct.
    destruct (is_error error_stack); cbn [negb].
    + destruct (ErrorCode_eqb (get_error_code error_stack) ERROR_CODE_XCT_RACE_ABORT)
        eqn:Hcode.
      * apply ErrorCode_eqb_eq in Hcode. rewrite (Hrace _ eq_refl Hcode).
        cbn. rewrite app_nil_r. split; [exact Hcalls|discriminate].
      * cbn. rewrite app_nil_r. split; [exact Hcalls|discriminate].
    + cbn. rewrite app_nil_r. split; [exact Hcalls|discriminate].
  - cbn. split; [exact Hcalls|discriminate].
  - cbn. split; [exact Hcalls|discriminate].
Qed.

Lemma run_schedule_forall validate (P : Worker -> Prop) :
  (forall st w, P w -> P (snd (step_worker validate st w))) ->
  forall schedule s,
    Forall P (workers s) ->
    Forall P (workers (run_schedule validate schedule s)).
Proof.
  intros Hstep. induction schedule as [|i schedule IH]; intros s Hs; [exact Hs|].
  cbn [run_schedule fold_left]. apply IH. unfold step.
  destruct (workers s !! i) as [w|] eqn:Hw; [|exact Hs].
  pose proof (Hstep (storage s) w (Forall_lookup_1 _ _ _ _ Hs Hw)) as Hw'.
  destruct (step_worker validate (storage s) w) as [st' w']. cbn [workers].
  apply Forall_insert; [exact Hs|exact Hw'].
Qed.

Lemma initial_workers_forall (P : Worker -> Prop) assign_func st :
  (forall offset amount, P (new_worker offset amount)) ->
  Forall P (workers (initial_system assign_func st)).
Proof.
  intros H. apply Forall_forall. intros v Hv.
  apply list_elem_of_In, in_map_iff in Hv. destruct Hv as (j & <- & _). apply H.
Qed.

(** X11.  [TestTask::run] never calls [abort_xct].  Whatever the validation
    step, the assignment, the array and the interleaving: race-abort
    reaches [run] only from [precommit_xct], which has ended the
    transaction, so [is_running_xct] is false at line 72 and line 73 is
    not executed. *)
Theorem abort_xct_never_called validate assign_func st schedule i w :
  workers (run_schedule validate schedule (initial_system assign_func st)) !! i
    = Some w ->
  ~ In CallAbort (calls w)
  /\ forall e, pc w = AtCheck e ->
       get_error_code e = ERROR_CODE_XCT_RACE_ABORT ->
       is_running_xct (xct w) = false.
Proof.
  intros Hw.
  assert (Forall no_abort (workers (initial_system assign_func st))) as H0.
  { apply initial_workers_forall. intros offset amount.
    split; [intros []|discriminate]. }
  pose proof (run_schedule_forall validate no_abort
                (step_worker_no_abort validate) schedule _ H0) as H.
  exact (Forall_lookup_1 _ _ _ _ H Hw).
Qed.

Lemma abort_xct_never_called_witness :
  let s := run_schedule validate_reads (round_robin 60)
             (initial_system (fun _ => 0%nat) initial_storage) in
  exists w, workers s !! 9%nat = Some w /\ ~ In CallAbort (calls w).
Proof.
  intros s.
  destruct (workers s !! 9%nat) as [w|] eqn:Hw; [|vm_compute in Hw; discriminate].
  exists w. split; [reflexivity|].
  exact (proj1 (abort_xct_never_called validate_reads (fun _ => 0%nat)
                  initial_storage (round_robin 60) 9%nat w Hw)).
Defined.

Lemma refused_attempts_snoc offset refused p :
  refused_attempts offset (refused ++ [p])
  = refused_attempts offset refused
    ++ attempt offset p (ERROR_STACK ERROR_CODE_XCT_RACE_ABORT).
Proof.
  unfold refused_attempts. rewrite flat_map_app. cbn [flat_map].
  rewrite app_nil_r. reflexivity.
Qed.

Lemma step_worker_history validate st w :
  history w -> history (snd (step_worker validate st w)).
Proof.
  intros [refused H]. unfold step_worker, history.
  destruct w as [off amt pcw pay x fl cl].
  cbn [pc xct offset_ amount_ payload failed_expectations calls] in *.
  destruct pcw.
  - exists refused. cbn. rewrite app_nil_r. exact H.
  - unfold begin_xct. destruct (active x); exists refused;
      cbn [snd goto calls pc xct offset_ payload is_error negb ERROR_STACK RET_OK
           get_error_code ErrorCode_eqb];
      [discriminate|rewrite H; reflexivity].
  - unfold get_record. destruct (negb (active x)); [|destruct (st !! off)];
      exists refused;
      cbn [snd goto calls pc xct offset_ payload is_error negb ERROR_STACK RET_OK
           get_error_code ErrorCode_eqb with_payload];
      try discriminate.
    rewrite H, <- app_assoc. reflexivity.
  - unfold overwrite_record.
    destruct (negb (active x)); [|destruct (negb (off <? length st)%nat)];
      exists refused;
      cbn [snd goto calls pc xct offset_ payload is_error negb ERROR_STACK RET_OK
           get_error_code ErrorCode_eqb with_payload];
      try discriminate.
    rewrite H, <- app_assoc. reflexivity.
  - unfold precommit_xct.
    destruct (negb (active x)); [|destruct (validate st (read_set x))].
    + exists refused.
      cbn [snd goto calls pc xct offset_ payload is_error negb ERROR_STACK RET_OK
           get_error_code ErrorCode_eqb].
      discriminate.
    + exists refused.
      cbn [snd goto calls pc xct offset_ payload is_error negb ERROR_STACK RET_OK
           get_error_code ErrorCode_eqb].
      rewrite H, <- app_assoc. reflexivity.
    + exists (refused ++ [pay]).
      cbn [snd goto calls pc xct offset_ payload is_error negb ERROR_STACK RET_OK
           get_error_code ErrorCode_eqb].
      intros _. split; [|reflexivity].
      rewrite refused_attempts_snoc, H, <- app_assoc. reflexivity.
  - unfold run_dispatch, is_running_xct, abort_xct.
    destruct (is_error error_stack) eqn:He; cbn [negb].
    + destruct (ErrorCode_eqb (get_error_code error_stack) ERROR_CODE_XCT_RACE_ABORT)
        eqn:Hcode.
      * apply ErrorCode_eqb_eq in Hcode. destruct (H Hcode) as [Hcl Hx].
        rewrite Hx. exists refused. cbn. rewrite app_nil_r. exact Hcl.
      * exists refused. exact I.
    + exists refused. cbn. rewrite app_nil_r. split; [reflexivity|exact H].
  - exists refused. exact H.
  - exists refused. exact I.
Qed.

(** X12.  The calls of a task that has returned, whatever the validation step,
    the assignment, the array and the interleaving: some passes through
    [try_transaction], each of [begin_xct], [get_record],
    [overwrite_record] on the task's record and a [precommit_xct] that
    returned race-abort, and then one pass of the same four calls whose
    [precommit_xct] returned ok, which is the last thing the task did. *)
Theorem returned_task_calls validate assign_func st schedule i w result :
  workers (run_schedule validate schedule (initial_system assign_func st)) !! i
    = Some w ->
  pc w = HasReturned result ->
  exists refused,
    calls w = refused_attempts (offset_ w) refused
              ++ attempt (offset_ w) (payload w) RET_OK.
Proof.
  intros Hw Hpc.
  assert (Forall history (workers (initial_system assign_func st))) as H0.
  { apply initial_workers_forall. intros offset amount. exists []. reflexivity. }
  pose proof (run_schedule_forall validate history
                (step_worker_history validate) schedule _ H0) as H.
  destruct (Forall_lookup_1 _ _ _ _ H Hw) as [refused Hh].
  rewrite Hpc in Hh. exists refused. apply Hh.
Qed.

Lemma returned_task_calls_witness :
  let s := run_schedule validate_reads (round_robin 20)
             (initial_system (fun i => i / 2)%nat initial_storage) in
  exists w refused,
    workers s !! 1%nat = Some w
    /\ pc w = HasReturned RET_OK
    /\ calls w = refused_attempts 0 refused ++ attempt 0 (payload w) RET_OK.
Proof.
  intros s.
  destruct (workers s !! 1%nat) as [w|] eqn:Hw; [|vm_compute in Hw; discriminate].
  assert (pc w = HasReturned RET_OK) as Hpc
    by (vm_compute in Hw; inversion Hw; reflexivity).
  assert (offset_ w = 0%nat) as Hoff
    by (vm_compute in Hw; inversion Hw; reflexivity).
  destruct (returned_task_calls validate_reads (fun i => i / 2)%nat initial_storage
              (round_robin 20) 1%nat w RET_OK Hw Hpc) as [refused Hcalls].
  rewrite Hoff in Hcalls. exists w, refused. auto.
Defined.

(** *** How often a task is refused *)

(** The [precommit_xct] calls of a task that returned an error. *)
Fixpoint refusals_in (cs : list Call) : nat :=
  match cs with
  | [] => 0
  | CallPrecommit e :: cs' => (if is_error e then 1 else 0) + refusals_in cs'
  | _ :: cs' => refusals_in cs'
  end.

Definition refusals (w : Worker) : nat := refusals_in (calls w).

(** The tasks on record [r] that have committed, and the tasks assigned to
    record [r]. *)
Definition commit_count (r : nat) (w : Worker) : nat :=
  if committed w && (offset_ w =? r)%nat then 1 else 0.

Definition commits (r : nat) (ws : list Worker) : nat :=
  fold_right (fun w acc => commit_count r w + acc)%nat 0%nat ws.

Definition tasks_on (assign_func : nat -> nat) (r : nat) : nat :=
  fold_right (fun i acc => (if (assign_func i =? r)%nat then 1 else 0) + acc)%nat
             0%nat (seq 0 THREADS).

(** Whether the record has changed since the task read it. *)
Definition stale (st : Storage) (w : Worker) : nat :=
  match pc w with
  | AtOverwrite | AtPrecommit =>
      if validate_reads st (read_set (xct w)) then 0 else 1
  | _ => 0
  end.

(** Every refusal of a task, and a change of its record that it has yet to
    meet, is accounted for by a task that committed on the same record,
    other than the task itself. *)
Definition retries_ok (s : System) : Prop :=
  forall i w, workers s !! i = Some w ->
    (refusals w + stale (storage s) w + (if committed w then 1 else 0)
     <= commits (offset_ w) (workers s))%nat.

Lemma refusals_in_app (l1 l2 : list Call) :
  refusals_in (l1 ++ l2) = (refusals_in l1 + refusals_in l2)%nat.
Proof.
  induction l1 as [|c l1 IH]; [reflexivity|].
  destruct c; cbn [app refusals_in]; rewrite IH; lia.
Qed.

Lemma commits_insert (r i : nat) (w w' : Worker) (ws : list Worker) :
  ws !! i = Some w ->
  (commits r (<[i := w']> ws) + commit_count r w
   = commits r ws + commit_count r w')%nat.
Proof.
  revert i. induction ws as [|v ws IH]; intros i Hi; [discriminate|].
  destruct i as [|i]; simpl in *.
  - inversion Hi; subst. lia.
  - pose proof (IH i Hi). lia.
Qed.

(** One step of a task under the exact validation. *)
Lemma step_worker_retries st w st' w' :
  storage_ok st -> worker_ok w ->
  step_worker validate_reads st w = (st', w') ->
  let cm := fun v : Worker => if committed v then 1%nat else 0%nat in
  (cm w <= cm w')%nat
  /\ (refusals w' + stale st' w' + cm w' + cm w
      <= refusals w + stale st w + cm w + cm w')%nat
  /\ (st' = st \/ (cm w = 0%nat /\ cm w' = 1%nat)).
Proof.
  intros [Hlen Hid] [Hfail Hw] H cm. subst cm.
  unfold step_worker in H. destruct w as [off amt pcw pay x fl cl].
  unfold refusals, stale, committed in *.
  cbn [pc xct offset_ amount_ payload failed_expectations calls] in *.
  destruct pcw.
  - inversion H; subst. cbn. rewrite app_nil_r. repeat split; auto; lia.
  - unfold begin_xct in H. destruct (active x); inversion H; subst;
      cbn [goto pc calls xct is_error negb ERROR_STACK RET_OK get_error_code
           ErrorCode_eqb];
      rewrite refusals_in_app; cbn [refusals_in]; repeat split; auto; lia.
  - subst x. unfold get_record in H. cbn [active negb] in H.
    destruct (st !! off) as [p|] eqn:Hoff; inversion H; subst;
      cbn [goto pc calls xct with_payload is_error negb ERROR_STACK RET_OK
           get_error_code ErrorCode_eqb read_set app];
      rewrite refusals_in_app; cbn [refusals_in];
      rewrite ?(validate_reads_current _ _ _ Hoff); repeat split; auto; lia.
  - destruct Hw as (-> & Hpid & Hrange). unfold overwrite_record in H.
    assert ((off <? length st)%nat = true) as E by (apply Nat.ltb_lt; lia).
    rewrite E in H. cbn [active negb] in H. inversion H; subst.
    cbn [goto pc calls xct with_payload read_set].
    rewrite refusals_in_app; cbn [refusals_in]. repeat split; auto; lia.
  - destruct Hw as (p0 & -> & Hpay & Hp0 & Hrange). unfold precommit_xct in H.
    cbn [active negb read_set write_set] in *.
    destruct (validate_reads st [(off, p0)]) eqn:Hv; inversion H; subst;
      cbn [goto pc calls xct is_error negb ERROR_STACK RET_OK get_error_code
           ErrorCode_eqb];
      rewrite refusals_in_app; cbn [refusals_in is_error negb ERROR_STACK RET_OK
           get_error_code ErrorCode_eqb]; repeat split; auto; lia.
  - unfold run_dispatch, abort_xct, is_running_xct in H.
    destruct (is_error error_stack) eqn:He; cbn [negb] in H.
    + destruct (ErrorCode_eqb (get_error_code error_stack) ERROR_CODE_XCT_RACE_ABORT).
      * destruct (active x) eqn:Ha; cbn in H; inversion H; subst;
          cbn [goto pc calls negb]; rewrite ?refusals_in_app, ?app_nil_r;
          cbn [refusals_in]; repeat split; auto; lia.
      * inversion H; subst. cbn [goto pc calls negb]. rewrite app_nil_r.
        repeat split; auto; lia.
    + inversion H; subst.
      cbn [goto pc calls negb is_error RET_OK get_error_code ErrorCode_eqb].
      rewrite app_nil_r. repeat split; auto; lia.
  - inversion H; subst. repeat split; auto; lia.
  - inversion H; subst. repeat split; auto; lia.
Qed.

(** A task that waits between its read and its commit is stale or not by
    the value of its own record alone. *)
Lemma stale_frame st st' w :
  worker_ok w ->
  st' !! offset_ w = st !! offset_ w ->
  stale st' w = stale st w.
Proof.
  intros [_ Hw] Hsame. unfold stale.
  destruct (pc w); try reflexivity.
  - destruct Hw as (-> & _). cbn [read_set validate_reads forallb fst snd].
    rewrite Hsame. reflexivity.
  - destruct Hw as (p0 & -> & _). cbn [read_set validate_reads forallb fst snd].
    rewrite Hsame. reflexivity.
Qed.

Lemma stale_le_1 st w : (stale st w <= 1)%nat.
Proof.
  unfold stale. destruct (pc w); try lia;
    destruct (validate_reads st (read_set (xct w))); lia.
Qed.

Lemma step_retries i s :
  system_ok s -> retries_ok s -> retries_ok (step validate_reads i s).
Proof.
  intros [Hst Hws] Hretries. unfold step.
  destruct (workers s !! i) as [w|] eqn:Hi; [|exact Hretries].
  destruct (step_worker validate_reads (storage s) w) as [st' w'] eqn:Hstep.
  assert (worker_ok w) as Hw by (eapply Forall_lookup_1; eauto).
  destruct (step_worker_shape _ _ _ _ _ Hst Hw Hstep)
    as (_ & _ & Hoff & _ & Hframe & _).
  destruct (step_worker_retries _ _ _ _ Hst Hw Hstep) as (Hmono & Hown & Hcommit).
  assert (i < length (workers s))%nat as Hlt by (eapply lookup_lt_Some; eauto).
  pose proof (Hretries i w Hi) as Hi_ok.
  assert (forall v : Worker, commit_count (offset_ v) v
                             = if committed v then 1%nat else 0%nat) as Hcc.
  { intros v. unfold commit_count. rewrite Nat.eqb_refl, andb_true_r. reflexivity. }
  intros j v Hj. cbn [storage workers] in *.
  pose proof (commits_insert (offset_ v) i w w' _ Hi) as Hins.
  destruct (Nat.eq_dec i j) as [<-|Hne].
  - rewrite list_lookup_insert_eq in Hj by exact Hlt. inversion Hj; subst v.
    pose proof (Hcc w) as E1.
    assert (commit_count (offset_ w) w' = if committed w' then 1%nat else 0%nat)
      as E2 by (rewrite <- Hoff; apply Hcc).
    rewrite Hoff in Hins |- *. rewrite E1, E2 in Hins. lia.
  - rewrite list_lookup_insert_ne in Hj by exact Hne.
    pose proof (Hretries j v Hj) as Hj_ok.
    assert (worker_ok v) as Hv by (eapply Forall_lookup_1; eauto).
    assert (commit_count (offset_ v) w <= commit_count (offset_ v) w')%nat as Hcm.
    { unfold commit_count. rewrite Hoff.
      destruct (offset_ w =? offset_ v)%nat; rewrite ?andb_false_r, ?andb_true_r; lia. }
    destruct Hcommit as [->|[Hc Hc']].
    + lia.
    + destruct (Nat.eq_dec (offset_ v) (offset_ w)) as [E|E].
      * assert (commit_count (offset_ v) w = 0%nat
                /\ commit_count (offset_ v) w' = 1%nat) as [E0 E1].
        { unfold commit_count. rewrite Hoff, E, Nat.eqb_refl, !andb_true_r.
          split; assumption. }
        pose proof (stale_le_1 st' v). pose proof (stale_le_1 (storage s) v).
        unfold stale in *. destruct (pc v); try lia;
          destruct (validate_reads (storage s) (read_set (xct v)));
          destruct (validate_reads st' (read_set (xct v))); lia.
      * rewrite (stale_frame (storage s) st' v Hv (Hframe _ E)). lia.
Qed.

Lemma run_schedule_retries schedule :
  forall s, system_ok s -> retries_ok s ->
            retries_ok (run_schedule validate_reads schedule s).
Proof.
  induction schedule as [|i schedule IH]; intros s Hs Hr; [exact Hr|].
  cbn [run_schedule fold_left]. apply IH.
  - apply step_ok. exact Hs.
  - apply step_retries; assumption.
Qed.

(** A task on record [r] that has not committed leaves room for itself
    among the tasks assigned to [r]. *)
Lemma commits_below_assigned (r : nat) (ws : list Worker) :
  forall i w, ws !! i = Some w -> offset_ w = r ->
    (commits r ws + 1
     <= fold_right (fun v acc => (if (offset_ v =? r)%nat then 1 else 0) + acc) 0 ws
        + (if committed w then 1 else 0))%nat.
Proof.
  induction ws as [|v ws IH]; intros i w Hi Hoff; [discriminate|].
  assert (forall l, (commits r l
            <= fold_right (fun v acc => (if (offset_ v =? r)%nat then 1 else 0) + acc)
                          0 l)%nat) as Hle.
  { induction l as [|u l IHl]; [reflexivity|]. cbn [commits fold_right] in *.
    unfold commit_count at 1. fold (commits r l).
    destruct (committed u), (offset_ u =? r)%nat; cbn [andb]; lia. }
  destruct i as [|i]; cbn [commits fold_right] in *.
  - inversion Hi; subst v. unfold commit_count at 1.
    rewrite Hoff, Nat.eqb_refl, andb_true_r. fold (commits r ws).
    pose proof (Hle ws). destruct (committed w); lia.
  - pose proof (IH i w Hi Hoff). unfold commit_count at 1. fold (commits r ws) in *.
    destruct (committed v), (offset_ v =? r)%nat; cbn [andb]; lia.
Qed.

Lemma count_over_tasks assign_func (r : nat) (l : list nat) (ws : list Worker) :
  map (fun w => (offset_ w, amount_ w)) ws
  = map (fun i => (assign_func i, amount_of i)) l ->
  fold_right (fun v acc => (if (offset_ v =? r)%nat then 1 else 0) + acc)%nat 0%nat ws
  = fold_right (fun i acc => (if (assign_func i =? r)%nat then 1 else 0) + acc)%nat
               0%nat l.
Proof.
  revert l. induction ws as [|w ws IH]; intros [|i l] H; try discriminate.
  - reflexivity.
  - cbn in H. inversion H as [[Hoff Hamt Hrest]]. cbn [fold_right].
    rewrite (IH l Hrest), Hoff. reflexivity.
Qed.

Lemma count_single (f : nat -> bool) (i : nat) (l : list nat) :
  NoDup l -> In i l -> f i = true ->
  (forall j, In j l -> j <> i -> f j = false) ->
  fold_right (fun j acc => (if f j then 1 else 0) + acc)%nat 0%nat l = 1%nat.
Proof.
  assert (forall l, (forall j, In j l -> f j = false) ->
            fold_right (fun j acc => (if f j then 1 else 0) + acc)%nat 0%nat l = 0%nat)
    as Hzero.
  { induction l0 as [|j l0 IH]; intros H; [reflexivity|]. cbn [fold_right].
    rewrite (H j ltac:(left; reflexivity)), IH; [reflexivity|].
    intros k Hk. apply H. right. exact Hk. }
  induction l as [|j l IH]; intros Hnd Hin Hi Hothers; [destruct Hin|].
  apply NoDup_cons in Hnd. destruct Hnd as [Hj Hnd]. cbn [fold_right].
  destruct Hin as [->|Hin].
  - rewrite Hi, Hzero; [reflexivity|].
    intros k Hk. apply Hothers; [right; exact Hk|].
    intros ->. apply Hj. apply list_elem_of_In. exact Hk.
  - rewrite (Hothers j ltac:(left; reflexivity)).
    + rewrite IH; auto. intros k Hk. apply Hothers. right. exact Hk.
    + intros ->. apply Hj. apply list_elem_of_In. exact Hin.
Qed.

Lemma refusals_below_tasks assign_func schedule i w :
  workers (run_schedule validate_reads schedule
             (initial_system assign_func initial_storage)) !! i = Some w ->
  (refusals w < tasks_on assign_func (assign_func i))%nat.
Proof.
  intros Hw.
  destruct (initial_system_ok assign_func) as [Hok0 _].
  assert (retries_ok (initial_system assign_func initial_storage)) as Hr0.
  { intros j v Hv. unfold initial_system in Hv. cbn [workers] in Hv.
    apply list_lookup_fmap_Some in Hv. destruct Hv as (k & -> & _).
    cbn. lia. }
  pose proof (run_schedule_retries schedule _ Hok0 Hr0 i w Hw) as Hbound.
  destruct (run_schedule_ok validate_reads schedule _ Hok0) as (_ & Htasks & _).
  rewrite tasks_of_initial in Htasks.
  destruct (worker_of_task _ _ _ _ _ Hw) as [Hoff _].
  pose proof (commits_below_assigned (assign_func i) _ i w Hw Hoff) as Hroom.
  rewrite (count_over_tasks assign_func (assign_func i) (seq 0 THREADS))
    in Hroom by exact Htasks.
  fold (tasks_on assign_func (assign_func i)) in Hroom. rewrite Hoff in Hbound.
  destruct (committed w); lia.
Qed.

Lemma tasks_on_le assign_func r : (tasks_on assign_func r <= THREADS)%nat.
Proof.
  unfold tasks_on.
  assert (forall l, (fold_right (fun j acc =>
              (if (assign_func j =? r)%nat then 1 else 0) + acc) 0 l <= length l)%nat)
    as Hlen.
  { induction l as [|j l IH]; [reflexivity|]. cbn [fold_right length].
    destruct (assign_func j =? r)%nat; lia. }
  specialize (Hlen (seq 0 THREADS)). rewrite length_seq in Hlen. exact Hlen.
Qed.

Lemma worker_index validate assign_func st schedule i w :
  workers (run_schedule validate schedule (initial_system assign_func st)) !! i
    = Some w ->
  (i < THREADS)%nat.
Proof.
  intros Hw. apply lookup_lt_Some in Hw.
  assert (forall schedule s,
            length (workers (run_schedule validate schedule s)) = length (workers s))
    as Hlen.
  { clear. induction schedule as [|k schedule IH]; intros s; [reflexivity|].
    cbn [run_schedule fold_left]. unfold run_schedule in IH. rewrite IH.
    unfold step. destruct (workers s !! k); [|reflexivity].
    destruct (step_worker validate (storage s) w). cbn [workers].
    apply length_insert. }
  rewrite Hlen in Hw. unfold initial_system in Hw. cbn [workers] in Hw.
  rewrite length_map, length_seq in Hw. exact Hw.
Qed.

(** X13.  With the validation that refuses exactly the stale reads, whatever the
    assignment and the interleaving, [precommit_xct] refuses a task fewer
    times than there are tasks assigned to its record: at most once for
    each other task on the record.  A task alone on its record is never
    refused, which is the NoConflict scenario; with every task on record 0
    a task is refused at most nine times. *)
Theorem refusals_bounded assign_func schedule i w :
  workers (run_schedule validate_reads schedule
             (initial_system assign_func initial_storage)) !! i = Some w ->
  (refusals w < tasks_on assign_func (assign_func i))%nat
  /\ (tasks_on assign_func (assign_func i) <= THREADS)%nat
  /\ ((forall j, (j < THREADS)%nat -> j <> i -> assign_func j <> assign_func i) ->
      refusals w = 0%nat).
Proof.
  intros Hw.
  pose proof (refusals_below_tasks _ _ _ _ Hw) as Hlt.
  pose proof (worker_index _ _ _ _ _ _ Hw) as Hi.
  split; [exact Hlt|]. split; [apply tasks_on_le|].
  intros Halone.
  assert (tasks_on assign_func (assign_func i) = 1%nat) as E.
  { unfold tasks_on.
    apply (count_single (fun j => (assign_func j =? assign_func i)%nat) i).
    - apply NoDup_ListNoDup, seq_NoDup.
    - apply in_seq. lia.
    - apply Nat.eqb_refl.
    - intros j Hj Hne. apply in_seq in Hj. apply Nat.eqb_neq.
      apply Halone; [lia|exact Hne]. }
  lia.
Qed.

Lemma refusals_bounded_witness :
  let s := run_schedule validate_reads (round_robin 20)
             (initial_system (fun i => i / 2)%nat initial_storage) in
  exists w, workers s !! 1%nat = Some w /\ (refusals w < 2)%nat.
Proof.
  intros s.
  destruct (workers s !! 1%nat) as [w|] eqn:Hw; [|vm_compute in Hw; discriminate].
  exists w. split; [reflexivity|].
  exact (proj1 (refusals_bounded (fun i => i / 2)%nat (round_robin 20) 1%nat w Hw)).
Defined.

(** *** Nothing is lost *)

Definition Zsum (l : list Z) : Z := fold_right Z.add 0 l.

Lemma Zsum_map_add {A : Type} (g h : A -> Z) (l : list A) :
  Zsum (map (fun r => g r + h r) l) = Zsum (map g l) + Zsum (map h l).
Proof.
  unfold Zsum. induction l as [|a l IH]; cbn [map fold_right]; [reflexivity|lia].
Qed.

Lemma Zsum_indicator (c : nat) (a : Z) (n : nat) :
  forall start,
    Zsum (map (fun r => if (c =? r)%nat then a else 0) (seq start n))
    = if ((start <=? c) && (c <? start + n))%nat then a else 0.
Proof.
  induction n as [|n IH]; intros start.
  - cbn [seq map Zsum fold_right].
    destruct (Nat.leb_spec start c), (Nat.ltb_spec c (start + 0)); cbn [andb];
      try reflexivity; lia.
  - cbn [seq map]. unfold Zsum in *. cbn [fold_right]. rewrite IH.
    destruct (Nat.eqb_spec c start), (Nat.leb_spec start c),
      (Nat.leb_spec (S start) c), (Nat.ltb_spec c (S start + n)),
      (Nat.ltb_spec c (start + S n)); cbn [andb]; lia.
Qed.

Lemma sum_by_record (f : nat -> nat) (n : nat) (l : list nat) :
  (forall i, In i l -> (f i < n)%nat) ->
  Zsum (map (fun r => fold_right (fun i acc =>
                        (if (f i =? r)%nat then amount_of i else 0) + acc) 0 l)
            (seq 0 n))
  = fold_right (fun i acc => amount_of i + acc) 0 l.
Proof.
  induction l as [|i l IH]; intros Hin.
  - cbn [fold_right]. induction (seq 0 n) as [|r rs IHr]; [reflexivity|].
    cbn in *. exact IHr.
  - cbn [fold_right].
    rewrite (Zsum_map_add (fun r => if (f i =? r)%nat then amount_of i else 0)).
    rewrite IH by (intros j Hj; apply Hin; right; exact Hj).
    rewrite Zsum_indicator.
    pose proof (Hin i ltac:(left; reflexivity)) as Hi.
    destruct (Nat.leb_spec 0 (f i)), (Nat.ltb_spec (f i) (0 + n)); cbn [andb]; lia.
Qed.

(** X14.  No increment is lost and none is applied twice: in every run of
    [run_test] that reaches its end, under a validation step that accepts
    only transactions whose reads are still current, the [data_] of the
    records read back add up to 940, the sum of the ten amounts
    [i * 20 + 4], however the tasks are assigned to records and however
    they interleave. *)
Theorem increments_conserved validate assign_func schedule payloads failed :
  validate_sound validate ->
  run_test validate assign_func schedule = Ran payloads failed ->
  Zsum (map data_ payloads) = Zsum (map amount_of (seq 0 THREADS))
  /\ Zsum (map data_ payloads) = 940.
Proof.
  intros Hsound H.
  pose proof (run_test_ran_in_range _ _ _ _ _ H) as Hrange.
  destruct (run_test_final_table _ _ _ _ _ Hsound H) as [-> _].
  rewrite map_map. cbn [data_]. unfold sum_assigned.
  rewrite (sum_by_record assign_func RECORDS (seq 0 THREADS))
    by (intros i Hi; apply Hrange; apply in_seq in Hi; lia).
  split; reflexivity.
Qed.

Lemma increments_conserved_witness :
  exists payloads failed,
    run_test validate_reads (fun i => i / 5)%nat (round_robin 40)
      = Ran payloads failed
    /\ Zsum (map data_ payloads) = 940.
Proof.
  destruct (run_test validate_reads (fun i => i / 5)%nat (round_robin 40))
    as [e| |payloads failed] eqn:Hrun; try (vm_compute in Hrun; discriminate).
  exists payloads, failed. split; [reflexivity|].
  exact (proj2 (increments_conserved validate_reads (fun i => i / 5)%nat
                  (round_robin 40) payloads failed validate_reads_sound Hrun)).
Defined.

(** *** Reading the table back *)

(** X15.  [GetAllRecordsTask::run] on an idle worker, for every array of ten
    records, every output buffer and every validation step: the ten reads
    succeed and leave the ten records in [output_], in order; the array is
    as it was whether or not the commit is accepted, since the transaction
    writes nothing; the worker's transaction is over when [run] returns;
    and [run] returns ok when the validation accepts the ten reads and
    race-abort otherwise. *)
Theorem GetAllRecordsTask_reads_table validate (st : Storage) (output : list Payload) :
  length st = RECORDS ->
  length output = RECORDS ->
  GetAllRecordsTask_run validate st inactive_xct output
  = (if validate st (combine (seq 0 RECORDS) st) then RET_OK
     else ERROR_STACK ERROR_CODE_XCT_RACE_ABORT,
     st, inactive_xct, st).
Proof.
  intros Hst Hout.
  do 10 (destruct st as [|? st]; [discriminate|]).
  destruct st; [|discriminate]. clear Hst.
  do 10 (destruct output as [|? output]; [discriminate|]).
  destruct output; [|discriminate]. clear Hout.
  unfold GetAllRecordsTask_run. cbn. unfold precommit_xct.
  cbn [active negb read_set write_set].
  destruct (validate _ _); reflexivity.
Qed.

Lemma GetAllRecordsTask_reads_table_witness :
  GetAllRecordsTask_run validate_reads initial_storage inactive_xct
    (replicate RECORDS (mkPayload 7 7))
  = (RET_OK, initial_storage, inactive_xct, initial_storage).
Proof.
  exact (GetAllRecordsTask_reads_table validate_reads initial_storage
           (replicate RECORDS (mkPayload 7 7)) eq_refl eq_refl).
Defined.

(** *** Every task returns *)

(** How far a task has got: one for leaving its start, and five for every
    pass through [try_transaction] and the check of its result. *)
Definition progress (w : Worker) : nat :=
  match pc w with
  | AtStart => 0
  | AtBegin => 1 + 5 * refusals w
  | AtGet => 2 + 5 * refusals w
  | AtOverwrite => 3 + 5 * refusals w
  | AtPrecommit => 4 + 5 * refusals w
  | AtCheck e => if is_error e then 5 * refusals w else 5 + 5 * refusals w
  | HasReturned _ | HasAborted _ => 0
  end.

(** A task on a record of the array meets no error but race-abort. *)
Definition on_track (w : Worker) : Prop :=
  (offset_ w < RECORDS)%nat
  /\ match pc w with
     | AtStart => calls w = [] /\ active (xct w) = false
     | AtBegin => active (xct w) = false
     | AtCheck e =>
         is_error e = true ->
         e = ERROR_STACK ERROR_CODE_XCT_RACE_ABORT /\ active (xct w) = false
     | HasAborted _ => False
     | _ => True
     end.

(** The steps of task [i] in a schedule. *)
Fixpoint steps_of (i : nat) (schedule : list nat) : nat :=
  match schedule with
  | [] => 0
  | k :: rest => (if (k =? i)%nat then 1 else 0) + steps_of i rest
  end.

Lemma step_worker_on_track st w st' w' :
  storage_ok st -> worker_ok w -> on_track w ->
  step_worker validate_reads st w = (st', w') ->
  on_track w'
  /\ (pending w = false -> pending w' = false)
  /\ (pending w' = true -> progress w' = S (progress w)).
Proof.
  intros [Hlen Hid] [Hfail Hw] [Hrange Ht] H.
  unfold step_worker in H. destruct w as [off amt pcw pay x fl cl].
  unfold on_track, progress, pending, refusals in *.
  cbn [pc xct offset_ amount_ payload failed_expectations calls] in *.
  destruct pcw.
  - destruct Ht as [-> Hx]. inversion H; subst. cbn. auto.
  - unfold begin_xct in H. rewrite Ht in H. inversion H; subst.
    cbn [goto pc calls xct offset_ is_error negb RET_OK get_error_code ErrorCode_eqb].
    rewrite refusals_in_app. cbn [refusals_in].
    repeat split; auto; try discriminate; intros; lia.
  - subst x. unfold get_record in H. cbn [active negb] in H.
    assert (is_Some (st !! off)) as [p Hp] by (apply lookup_lt_is_Some; lia).
    rewrite Hp in H. inversion H; subst.
    cbn [goto pc calls xct offset_ with_payload is_error negb RET_OK get_error_code
         ErrorCode_eqb].
    rewrite refusals_in_app. cbn [refusals_in].
    repeat split; auto; try discriminate; intros; lia.
  - destruct Hw as (-> & Hpid & _). unfold overwrite_record in H.
    assert ((off <? length st)%nat = true) as E by (apply Nat.ltb_lt; lia).
    rewrite E in H. cbn [active negb] in H. inversion H; subst.
    cbn [goto pc calls xct offset_ with_payload is_error negb RET_OK get_error_code
         ErrorCode_eqb].
    rewrite refusals_in_app. cbn [refusals_in].
    repeat split; auto; try discriminate; intros; lia.
  - destruct Hw as (p0 & -> & _). unfold precommit_xct in H.
    cbn [active negb read_set write_set] in H.
    destruct (validate_reads st [(off, p0)]); inversion H; subst;
      cbn [goto pc calls xct offset_ is_error negb RET_OK ERROR_STACK get_error_code
           ErrorCode_eqb active inactive_xct];
      rewrite refusals_in_app;
      cbn [refusals_in is_error negb RET_OK ERROR_STACK get_error_code ErrorCode_eqb];
      repeat split; auto; try discriminate; intros; lia.
  - unfold run_dispatch, abort_xct, is_running_xct in H.
    destruct (is_error error_stack) eqn:He; cbn [negb] in H.
    + destruct (Ht eq_refl) as [-> Hx]. rewrite Hx in H.
      cbn [get_error_code ERROR_STACK ErrorCode_eqb] in H. inversion H; subst.
      cbn [goto pc calls xct offset_]. rewrite app_nil_r.
      repeat split; auto; try discriminate; intros; lia.
    + inversion H; subst. cbn [goto pc calls xct offset_].
      repeat split; auto; discriminate.
  - inversion H; subst. repeat split; auto; discriminate.
  - destruct Ht.
Qed.

Lemma run_schedule_progress schedule :
  forall s (counts : nat -> nat),
    system_ok s ->
    Forall on_track (workers s) ->
    (forall i w, workers s !! i = Some w -> pending w = true ->
                 progress w = counts i) ->
    Forall on_track (workers (run_schedule validate_reads schedule s))
    /\ forall i w,
         workers (run_schedule validate_reads schedule s) !! i = Some w ->
         pending w = true ->
         progress w = (counts i + steps_of i schedule)%nat.
Proof.
  induction schedule as [|k schedule IH]; intros s counts Hs Htrack Hcount.
  - cbn [run_schedule fold_left steps_of]. split; [exact Htrack|].
    intros i w Hw Hp. rewrite (Hcount i w Hw Hp). lia.
  - cbn [run_schedule fold_left steps_of].
    change (fold_left (fun s0 i0 => step validate_reads i0 s0) schedule ?x)
      with (run_schedule validate_reads schedule x).
    destruct (step_ok validate_reads k s Hs) as (Hs1 & _).
    assert (Forall on_track (workers (step validate_reads k s))
            /\ forall i w, workers (step validate_reads k s) !! i = Some w ->
                 pending w = true ->
                 progress w = (counts i + (if (k =? i)%nat then 1 else 0))%nat)
      as [Htrack1 Hcount1].
    { unfold step. destruct (workers s !! k) as [w|] eqn:Hk.
      - destruct (step_worker validate_reads (storage s) w) as [st' w'] eqn:Hstep.
        destruct Hs as [Hst Hws].
        destruct (step_worker_on_track _ _ _ _ Hst
                    (Forall_lookup_1 _ _ _ _ Hws Hk)
                    (Forall_lookup_1 _ _ _ _ Htrack Hk) Hstep)
          as (Ht' & Hstuck & Hnext).
        cbn [workers]. split; [apply Forall_insert; assumption|].
        intros i v Hv Hp. destruct (Nat.eqb_spec k i) as [<-|Hne].
        + rewrite list_lookup_insert_eq in Hv
            by (eapply lookup_lt_Some; eauto).
          inversion Hv; subst v. rewrite (Hnext Hp).
          destruct (pending w) eqn:Hpw.
          * rewrite (Hcount k w Hk Hpw). lia.
          * rewrite (Hstuck eq_refl) in Hp. discriminate.
        + rewrite list_lookup_insert_ne in Hv by exact Hne.
          rewrite (Hcount i v Hv Hp). lia.
      - split; [exact Htrack|]. intros i v Hv Hp.
        destruct (Nat.eqb_spec k i) as [<-|Hne]; [congruence|].
        rewrite (Hcount i v Hv Hp). lia. }
    destruct (IH _ (fun i => (counts i + (if (k =? i)%nat then 1 else 0))%nat)
                Hs1 Htrack1 Hcount1) as [Htrack2 Hcount2].
    split; [exact Htrack2|].
    intros i w Hw Hp. rewrite (Hcount2 i w Hw Hp). lia.
Qed.

Lemma fair_run_completes assign_func schedule :
  (forall i, (i < THREADS)%nat -> (assign_func i < RECORDS)%nat) ->
  (forall i, (i < THREADS)%nat ->
     (5 * tasks_on assign_func (assign_func i) + 1 <= steps_of i schedule)%nat) ->
  run_test validate_reads assign_func schedule = Ran (final_table assign_func) 0.
Proof.
  intros Hassign Hfair.
  set (s := run_schedule validate_reads schedule
              (initial_system assign_func initial_storage)).
  destruct (initial_system_ok assign_func) as [Hok0 _].
  destruct (run_schedule_ok validate_reads schedule _ Hok0) as (Hok & _ & _).
  fold s in Hok.
  destruct (run_schedule_progress schedule
              (initial_system assign_func initial_storage) (fun _ => 0%nat) Hok0)
    as [Htrack Hcount].
  { unfold initial_system. cbn [workers]. apply Forall_forall. intros v Hv.
    apply list_elem_of_In, in_map_iff in Hv. destruct Hv as (j & <- & Hj).
    apply in_seq in Hj. split; [apply Hassign; lia|]. split; reflexivity. }
  { intros i w Hw _. unfold initial_system in Hw. cbn [workers] in Hw.
    apply list_lookup_fmap_Some in Hw. destruct Hw as (j & -> & _). reflexivity. }
  fold s in Htrack, Hcount.
  assert (Forall (fun w => pc w = HasReturned RET_OK) (workers s)) as Hret.
  { apply Forall_lookup_2. intros i w Hw.
    pose proof (worker_index _ _ _ _ _ _ Hw) as Hi.
    pose proof (refusals_below_tasks _ _ _ _ Hw) as Hlt.
    pose proof (Forall_lookup_1 _ _ _ _ Htrack Hw) as [_ Ht].
    destruct Hok as [_ Hws].
    pose proof (Forall_lookup_1 _ _ _ _ Hws Hw) as [_ Hshape].
    destruct (pending w) eqn:Hp.
    - pose proof (Hcount i w Hw Hp) as E. specialize (Hfair i Hi).
      exfalso. unfold progress, pending in *.
      destruct (pc w); try discriminate; try lia.
      destruct (is_error error_stack); lia.
    - unfold pending in Hp. destruct (pc w); try discriminate.
      + destruct Hshape as [-> _]. reflexivity.
      + destruct Ht. }
  assert (run_test validate_reads assign_func schedule
          = Ran (storage s)
                (check_payloads (compute_answers assign_func) (storage s) THREADS 0
                   (list_sum (map failed_expectations (workers s))))) as Hrun.
  { unfold run_test.
    change (InitTask_run validate_reads inactive_xct)
      with (RET_OK, initial_storage, inactive_xct).
    cbn [is_error RET_OK get_error_code ErrorCode_eqb negb]. fold s.
    destruct (all_returned_no_error _ Hret) as [-> ->].
    destruct (GetAllRecordsTask_run_reads (storage s) (proj1 (proj1 Hok))) as [x ->].
    reflexivity. }
  destruct (run_test_final_table _ _ _ _ _ validate_reads_sound Hrun) as [E1 E2].
  rewrite Hrun, E2. f_equal. exact E1.
Qed.

(** X16.  With the validation that refuses exactly the stale reads and every
    task assigned a record of the array, [run_test] reaches its end under
    every interleaving that gives each task enough steps: five for each
    task assigned to the same record, and one more.  Fifty-one steps for
    each task are enough whatever the assignment.  The run then ends with
    the table of the sums and no failed [EXPECT_EQ]. *)
Theorem fair_schedule_completes assign_func schedule :
  (forall i, (i < THREADS)%nat -> (assign_func i < RECORDS)%nat) ->
  (forall i, (i < THREADS)%nat ->
     (5 * tasks_on assign_func (assign_func i) + 1 <= steps_of i schedule)%nat) ->
  run_test validate_reads assign_func schedule = Ran (final_table assign_func) 0
  /\ forall i, (i < THREADS)%nat ->
       (5 * tasks_on assign_func (assign_func i) + 1 <= 51)%nat.
Proof.
  intros Hassign Hfair. split; [apply fair_run_completes; assumption|].
  intros i _. pose proof (tasks_on_le assign_func (assign_func i)).
  unfold THREADS in *. lia.
Qed.

Lemma fair_schedule_completes_witness :
  run_test validate_reads (fun _ => 0%nat) (round_robin 51)
  = Ran (final_table (fun _ => 0%nat)) 0.
Proof.
  apply (fair_schedule_completes (fun _ => 0%nat) (round_robin 51)).
  - intros i _. unfold RECORDS. lia.
  - intros i Hi. unfold THREADS in Hi.
    do 10 (destruct i as [|i]; [vm_compute; lia|]). lia.
Defined.

(** *** The four tests *)

(** The table with [id_ = i] and the given [data_] in record [i]. *)
Definition table_of (data : list Z) : list Payload :=
  map (fun r => mkPayload (Z.of_nat (fst r)) (snd r))
      (combine (seq 0 (length data)) data).

(** X17.  The four tests of the file, NoConflict ([i]), LightConflict
    ([i / 2]), HeavyConflict ([i / 5]) and ExtremeConflict ([0]): with the
    validation that refuses exactly the stale reads, under every
    interleaving that gives each task fifty-one steps, [run_test] reaches
    its end with no failed [EXPECT_EQ], and the records hold [i * 20 + 4]
    each; 28, 108, 188, 268, 348; 220 and 720; and 940. *)
Theorem four_tests_pass (schedule : list nat) :
  (forall i, (i < THREADS)%nat -> (51 <= steps_of i schedule)%nat) ->
  run_test validate_reads (fun i => i) schedule
  = Ran (table_of [4; 24; 44; 64; 84; 104; 124; 144; 164; 184]) 0
  /\ run_test validate_reads (fun i => i / 2)%nat schedule
     = Ran (table_of [28; 108; 188; 268; 348; 0; 0; 0; 0; 0]) 0
  /\ run_test validate_reads (fun i => i / 5)%nat schedule
     = Ran (table_of [220; 720; 0; 0; 0; 0; 0; 0; 0; 0]) 0
  /\ run_test validate_reads (fun _ => 0%nat) schedule
     = Ran (table_of [940; 0; 0; 0; 0; 0; 0; 0; 0; 0]) 0.
Proof.
  intros Hfair.
  assert (forall assign_func,
            (forall i, (i < THREADS)%nat -> (assign_func i < RECORDS)%nat) ->
            run_test validate_reads assign_func schedule
            = Ran (final_table assign_func) 0) as Hrun.
  { intros assign_func Hassign. apply fair_run_completes; [exact Hassign|].
    intros i Hi. pose proof (tasks_on_le assign_func (assign_func i)).
    specialize (Hfair i Hi). unfold THREADS in *. lia. }
  assert (forall i d, (i < THREADS)%nat -> (0 < d)%nat -> (i / d < RECORDS)%nat)
    as Hdiv.
  { intros i d Hi Hd. unfold THREADS, RECORDS in *.
    pose proof (Nat.Div0.div_le_upper_bound i d i). nia. }
  repeat split.
  - rewrite Hrun; [reflexivity|]. intros i Hi. exact Hi.
  - rewrite Hrun; [reflexivity|]. intros i Hi. apply Hdiv; [exact Hi|lia].
  - rewrite Hrun; [reflexivity|]. intros i Hi. apply Hdiv; [exact Hi|lia].
  - rewrite Hrun; [reflexivity|]. intros i _. unfold RECORDS. lia.
Qed.

Lemma four_tests_pass_witness :
  run_test validate_reads (fun i => i / 5)%nat (round_robin 51)
  = Ran (table_of [220; 720; 0; 0; 0; 0; 0; 0; 0; 0]) 0.
Proof.
  apply (four_tests_pass (round_robin 51)).
  intros i Hi. unfold THREADS in Hi.
  do 10 (destruct i as [|i]; [vm_compute; lia|]). lia.
Defined.

End Xct.

(** ** TPC-E trade order ([tpce_trade_order.cpp]) *)

Module Tpce.
Import Errors.

(** The fields of the TPC-E records that [do_trade_order] touches. *)
Record TradeTypeData : Type := mkTradeTypeData {
  tt_id_ : string }.

Record TradeData : Type := mkTradeData {
  dts_ : Z;
  id_ : Z;
  symb_id_ : Z }.

(** What a client task can ask of the engine.  A storage call carries the
    code it returned. *)
Inductive Call : Type :=
| BeginXct
| PrecommitXct
| AbortXct
| GetTradeType (i : Z) (result : ErrorCode)
| InsertTrade (tid : Z) (record : TradeData) (size : Z) (result : ErrorCode)
| InsertTradeIndex (key : Z) (tid : Z) (size : Z) (result : ErrorCode).

Definition call_result (c : Call) : ErrorCode :=
  match c with
  | GetTradeType _ r | InsertTrade _ _ _ r | InsertTradeIndex _ _ _ r => r
  | _ => kErrorCodeOk
  end.

Definition is_storage_call (c : Call) : bool :=
  match c with
  | GetTradeType _ _ | InsertTrade _ _ _ _ | InsertTradeIndex _ _ _ _ => true
  | _ => false
  end.

Definition succeeded (c : Call) : Prop := call_result c = kErrorCodeOk.

(** How the call ends: it returns a code, or [ASSERT_ND] stops it. *)
Inductive Outcome : Type :=
| Returned (code : ErrorCode)
| AssertionFailed.

Section TradeOrder.

(** The state behind the task: its storages, its random generator and its
    counters; and the members and collaborators it calls, none of them
    among the sources. *)
Variable State : Type.
Variable next_uint32 : State -> Z * State.
Variable trade_types_get_record : Z -> State -> ErrorCode * TradeTypeData * State.
Variable get_articifical_current_dts : State -> Z * State.
Variable get_artificial_new_trade_id : State -> Z * State.
Variable trades_insert_record : Z -> TradeData -> Z -> State -> ErrorCode * State.
Variable trades_index_insert_record_normalized :
  Z -> Z -> Z -> State -> ErrorCode * State.
Variable to_symb_dts_key : Z -> Z -> Z -> Z.
Variable worker_id_ : Z.

(** The enumerators of [TradeTypeData], [sizeof(record)] and [sizeof(tid)]. *)
Variables kTlb kTls kTmb kTms kCount : Z.
Variables sizeof_record sizeof_tid : Z.

(** [TradeData record;] is not initialized: its fields hold what the stack
    held until they are assigned. *)
Variable uninitialized_record : TradeData.

(** [ASSERT_ND] expands to nothing when the build defines [NDEBUG]. *)
Variable NDEBUG : bool.

Definition ASSERT_ND (cond : bool) : bool := NDEBUG || cond.

(** The [switch] on [r]. *)
Definition trade_type_id_of (r : Z) : string :=
  if r =? kTlb then "TLB"%string
  else if r =? kTls then "TLS"%string
  else if r =? kTmb then "TMB"%string
  else if r =? kTms then "TMS"%string
  else "TSL"%string.

(** [memcmp(tt_record.id_, in_trade_type_id, sizeof(tt_record.id_)) == 0],
    the identifiers being as long as the field. *)
Definition same_id (tt_record : TradeTypeData) (in_trade_type_id : string) : bool :=
  String.eqb (tt_id_ tt_record) in_trade_type_id.

(** The scan of TRADE_TYPE: an error code handed back by
    [CHECK_ERROR_CODE], or [type_found] at the end of the loop. *)
Fixpoint find_trade_type (remaining : nat) (i : Z) (in_trade_type_id : string)
    (s : State) (trace : list Call) : (ErrorCode + bool) * State * list Call :=
  match remaining with
  | O => (inr false, s, trace)
  | S remaining' =>
      let '(code, tt_record, s') := trade_types_get_record i s in
      let trace' := trace ++ [GetTradeType i code] in
      if negb (ErrorCode_eqb code kErrorCodeOk) then (inl code, s', trace')
      else if same_id tt_record in_trade_type_id then (inr true, s', trace')
      else find_trade_type remaining' (i + 1) in_trade_type_id s' trace'
  end.

Definition do_trade_order (s : State) : Outcome * State * list Call :=
  let '(random, s1) := next_uint32 s in
  let r := random mod kCount in
  let in_trade_type_id := trade_type_id_of r in
  match find_trade_type (Z.to_nat kCount) 0 in_trade_type_id s1 [] with
  | (inl code, s2, trace) => (Returned code, s2, trace)
  | (inr type_found, s2, trace) =>
      if negb (ASSERT_ND type_found) then (AssertionFailed, s2, trace)
      else
        let '(now_dts, s3) := get_articifical_current_dts s2 in
        let '(tid, s4) := get_artificial_new_trade_id s3 in
        let record := mkTradeData now_dts tid (symb_id_ uninitialized_record) in
        let '(code, s5) := trades_insert_record tid record sizeof_record s4 in
        let trace1 := trace ++ [InsertTrade tid record sizeof_record code] in
        if negb (ErrorCode_eqb code kErrorCodeOk) then (Returned code, s5, trace1)
        else
          let secondary_key :=
            to_symb_dts_key (symb_id_ record) now_dts worker_id_ in
          let '(code, s6) :=
            trades_index_insert_record_normalized secondary_key tid sizeof_tid s5 in
          let trace2 :=
            trace1 ++ [InsertTradeIndex secondary_key tid sizeof_tid code] in
          if negb (ErrorCode_eqb code kErrorCodeOk) then (Returned code, s6, trace2)
          else (Returned kErrorCodeOk, s6, trace2)
  end.

(** The scan as [do_trade_order] runs it. *)
Definition trade_type_lookup (s : State) : (ErrorCode + bool) * State * list Call :=
  let '(random, s1) := next_uint32 s in
  find_trade_type (Z.to_nat kCount) 0 (trade_type_id_of (random mod kCount)) s1 [].

(** The reads [first], [first + 1], ... of TRADE_TYPE, all successful. *)
Definition reads_from (first : Z) (count : nat) : list Call :=
  map (fun j => GetTradeType (first + Z.of_nat j) kErrorCodeOk) (seq 0 count).

Lemma reads_from_S first count :
  reads_from first (S count)
  = GetTradeType first kErrorCodeOk :: reads_from (first + 1) count.
Proof.
  unfold reads_from. cbn [seq map]. rewrite <- seq_shift, map_map.
  f_equal; [f_equal; lia|]. apply map_ext. intros j. f_equal. lia.
Qed.

(** The state in which a scan from record [i] makes its read number [n],
    counting from 0, the reads before it having returned. *)
Fixpoint state_after_reads (n : nat) (i : Z) (s : State) : State :=
  match n with
  | O => s
  | S n' => state_after_reads n' (i + 1) (snd (trade_types_get_record i s))
  end.

(** What that read returns: the code, and the record shown. *)
Definition scan_read (i : Z) (s : State) (n : nat) : ErrorCode * TradeTypeData :=
  fst (trade_types_get_record (i + Z.of_nat n) (state_after_reads n i s)).

Lemma scan_read_S i s n :
  scan_read i s (S n) = scan_read (i + 1) (snd (trade_types_get_record i s)) n.
Proof.
  unfold scan_read. cbn [state_after_reads].
  replace (i + Z.of_nat (S n)) with (i + 1 + Z.of_nat n) by lia. reflexivity.
Qed.

(** The scan read by read: it reads records [i], [i + 1], ... in turn,
    goes on while the read succeeds and the record does not carry the
    identifier, and ends at the first record that carries it, at the first
    read that fails, or after [remaining] reads. *)
Lemma find_trade_type_reads (remaining : nat) (in_trade_type_id : string) :
  forall i s trace r s' trace',
    find_trade_type remaining i in_trade_type_id s trace = (r, s', trace') ->
    exists n,
      (forall j, (j < n)%nat ->
         fst (scan_read i s j) = kErrorCodeOk
         /\ same_id (snd (scan_read i s j)) in_trade_type_id = false)
      /\ match r with
         | inr true =>
             (n < remaining)%nat
             /\ trace' = trace ++ reads_from i (S n)
             /\ fst (scan_read i s n) = kErrorCodeOk
             /\ same_id (snd (scan_read i s n)) in_trade_type_id = true
         | inr false =>
             n = remaining /\ trace' = trace ++ reads_from i n
         | inl code =>
             (n < remaining)%nat
             /\ trace' = trace ++ reads_from i n ++ [GetTradeType (i + Z.of_nat n) code]
             /\ fst (scan_read i s n) = code
             /\ code <> kErrorCodeOk
         end.
Proof.
  induction remaining as [|remaining IH]; intros i s trace r s' trace' H.
  - cbn in H. inversion H; subst. exists 0%nat. split; [intros j Hj; lia|].
    split; [reflexivity|]. unfold reads_from. cbn. rewrite app_nil_r. reflexivity.
  - cbn [find_trade_type] in H.
    assert (scan_read i s 0 = fst (trade_types_get_record i s)) as Hfirst.
    { unfold scan_read. cbn [state_after_reads].
      replace (i + Z.of_nat 0) with i by lia. reflexivity. }
    destruct (trade_types_get_record i s) as [[code tt_record] s1] eqn:Hread.
    cbn [fst snd] in Hfirst.
    destruct (ErrorCode_eqb code kErrorCodeOk) eqn:Hcode; cbn [negb] in H.
    + apply ErrorCode_eqb_eq in Hcode. subst code.
      destruct (same_id tt_record in_trade_type_id) eqn:Hsame.
      * inversion H; subst. exists 0%nat. split; [intros j Hj; lia|].
        split; [lia|]. split; [rewrite reads_from_S; reflexivity|].
        rewrite Hfirst. split; [reflexivity|exact Hsame].
      * destruct (IH _ _ _ _ _ _ H) as (n & Hpass & Hend).
        exists (S n). split.
        { intros j Hj. destruct j as [|j].
          - rewrite Hfirst. split; [reflexivity|exact Hsame].
          - rewrite scan_read_S, Hread. cbn [snd]. apply Hpass. lia. }
        destruct r as [code|[|]].
        -- destruct Hend as (Hn & -> & Hc & Hne).
           split; [lia|]. rewrite scan_read_S, Hread. cbn [snd].
           split; [|split; [exact Hc|exact Hne]].
           rewrite <- !app_assoc, reads_from_S. cbn [app].
           replace (i + 1 + Z.of_nat n) with (i + Z.of_nat (S n)) by lia.
           reflexivity.
        -- destruct Hend as (Hn & -> & Hc & Hm).
           split; [lia|]. rewrite scan_read_S, Hread. cbn [snd].
           split; [|split; [exact Hc|exact Hm]].
           rewrite <- app_assoc, (reads_from_S i (S n)). reflexivity.
        -- destruct Hend as (-> & ->). split; [reflexivity|].
           rewrite <- app_assoc, (reads_from_S i remaining). reflexivity.
    + inversion H; subst. exists 0%nat. split; [intros j Hj; lia|].
      split; [lia|]. split; [|split; [rewrite Hfirst; reflexivity|]].
      * unfold reads_from. cbn [seq map app].
        replace (i + Z.of_nat 0) with i by lia. reflexivity.
      * intros E. subst. discriminate.
Qed.

(** The calls of the scan: reads of TRADE_TYPE, all successful but, when
    the scan hands back an error code, the last one, which returned it. *)
Lemma find_trade_type_trace (remaining : nat) (in_trade_type_id : string) :
  forall i s trace r s' trace',
    find_trade_type remaining i in_trade_type_id s trace = (r, s', trace') ->
    exists gets,
      trace' = trace ++ gets
      /\ match r with
         | inl code =>
             code <> kErrorCodeOk
             /\ exists earlier i',
                  gets = earlier ++ [GetTradeType i' code]
                  /\ Forall (fun c => exists j, c = GetTradeType j kErrorCodeOk) earlier
         | inr _ => Forall (fun c => exists j, c = GetTradeType j kErrorCodeOk) gets
         end.
Proof.
  induction remaining as [|remaining IH]; intros i s trace r s' trace' H.
  - cbn in H. inversion H; subst. exists []. rewrite app_nil_r.
    split; [reflexivity|constructor].
  - cbn [find_trade_type] in H.
    destruct (trade_types_get_record i s) as [[code tt_record] s1].
    destruct (ErrorCode_eqb code kErrorCodeOk) eqn:Hcode; cbn [negb] in H.
    + apply ErrorCode_eqb_eq in Hcode. subst code.
      destruct (same_id tt_record in_trade_type_id).
      * inversion H; subst. exists [GetTradeType i kErrorCodeOk].
        split; [reflexivity|]. constructor; [eauto|constructor].
      * destruct (IH _ _ _ _ _ _ H) as (gets & -> & Hgets).
        exists (GetTradeType i kErrorCodeOk :: gets).
        split; [rewrite <- app_assoc; reflexivity|].
        destruct r as [code|found].
        -- destruct Hgets as (Hne & earlier & i' & -> & Hok).
           split; [exact Hne|].
           exists (GetTradeType i kErrorCodeOk :: earlier), i'.
           split; [reflexivity|]. constructor; [eauto|exact Hok].
        -- constructor; [eauto|exact Hgets].
    + inversion H; subst. exists [GetTradeType i code]. split; [reflexivity|].
      split.
      * intros E. subst code. discriminate.
      * exists [], i. split; [reflexivity|constructor].
Qed.

Lemma reads_succeeded (gets : list Call) :
  Forall (fun c => exists j, c = GetTradeType j kErrorCodeOk) gets ->
  Forall succeeded gets /\ forallb is_storage_call gets = true.
Proof.
  induction 1 as [|c gets (j & ->) _ [IH1 IH2]]; [split; [constructor|reflexivity]|].
  split; [constructor; [reflexivity|exact IH1]|exact IH2].
Qed.

(** C9 (as amended).  On every state and in every build, [do_trade_order]
    makes storage calls only: no transaction is begun, committed or
    aborted.  It returns ok exactly when the scan of TRADE_TYPE ends
    without an error with [ASSERT_ND(type_found)] holding, and both
    inserts succeed; so in a build where [ASSERT_ND] is active, ok is
    returned only when the scan found the type, and with [NDEBUG] also
    when it read every record and found none.  A scan that found the type
    read records 0, 1, ... successfully up to the first record that
    carries the identifier drawn, and no further.  On ok the calls are
    those reads followed by one insert into TRADES, of a record carrying
    the generated trade id and the current dts under that trade id, and
    then one insert into the secondary index, of the trade id under the
    key composed from the record's symbol id, the dts and the worker id.
    When another code is returned, the last call made is the first that
    failed, and its code is the one returned. *)
Theorem do_trade_order_calls (s : State) :
  let in_trade_type_id := trade_type_id_of (fst (next_uint32 s) mod kCount) in
  let s1 := snd (next_uint32 s) in
  let type_found := fst (fst (trade_type_lookup s)) in
  let reads := snd (trade_type_lookup s) in
  let s2 := snd (fst (trade_type_lookup s)) in
  let now_dts := fst (get_articifical_current_dts s2) in
  let s3 := snd (get_articifical_current_dts s2) in
  let tid := fst (get_artificial_new_trade_id s3) in
  let s4 := snd (get_artificial_new_trade_id s3) in
  let record := mkTradeData now_dts tid (symb_id_ uninitialized_record) in
  let key := to_symb_dts_key (symb_id_ record) now_dts worker_id_ in
  let insert1 := trades_insert_record tid record sizeof_record s4 in
  let insert2 :=
    trades_index_insert_record_normalized key tid sizeof_tid (snd insert1) in
  let outcome := fst (fst (do_trade_order s)) in
  let trace := snd (do_trade_order s) in
  forallb is_storage_call trace = true
  /\ (outcome = Returned kErrorCodeOk
      <-> (exists found, type_found = inr found /\ ASSERT_ND found = true)
          /\ fst insert1 = kErrorCodeOk
          /\ fst insert2 = kErrorCodeOk)
  /\ (NDEBUG = false -> outcome = Returned kErrorCodeOk -> type_found = inr true)
  /\ (type_found = inr true ->
      exists n,
        (n < Z.to_nat kCount)%nat
        /\ reads = reads_from 0 (S n)
        /\ fst (scan_read 0 s1 n) = kErrorCodeOk
        /\ same_id (snd (scan_read 0 s1 n)) in_trade_type_id = true
        /\ forall j, (j < n)%nat ->
             fst (scan_read 0 s1 j) = kErrorCodeOk
             /\ same_id (snd (scan_read 0 s1 j)) in_trade_type_id = false)
  /\ (outcome = Returned kErrorCodeOk ->
      trace = reads ++ [InsertTrade tid record sizeof_record kErrorCodeOk;
                        InsertTradeIndex key tid sizeof_tid kErrorCodeOk]
      /\ Forall (fun c => exists j, c = GetTradeType j kErrorCodeOk) reads
      /\ id_ record = tid
      /\ dts_ record = now_dts)
  /\ (forall code,
        outcome = Returned code -> code <> kErrorCodeOk ->
        exists earlier failing,
          trace = earlier ++ [failing]
          /\ Forall succeeded earlier
          /\ call_result failing = code).
Proof.
  unfold trade_type_lookup, do_trade_order.
  destruct (next_uint32 s) as [random s1]. cbn [fst snd].
  destruct (find_trade_type (Z.to_nat kCount) 0
              (trade_type_id_of (random mod kCount)) s1 [])
    as [[r s2] trace] eqn:Hfind.
  cbn [fst snd].
  destruct (find_trade_type_trace _ _ _ _ _ _ _ _ Hfind) as (gets & Htrace & Hgets).
  cbn [app] in Htrace. subst trace.
  pose proof (find_trade_type_reads _ _ _ _ _ _ _ _ Hfind) as (n & Hpass & Hend).
  cbn [app] in Hend.
  destruct r as [code|type_found].
  - (* a read of TRADE_TYPE failed *)
    destruct Hgets as (Hne & earlier & i' & -> & Hok).
    destruct (reads_succeeded _ Hok) as [Hsucc Hstorage]. cbn [fst snd].
    split; [rewrite forallb_app, Hstorage; reflexivity|].
    split.
    { split.
      - intros E. inversion E. contradiction.
      - intros [(found & E & _) _]. discriminate. }
    split; [intros _ E; inversion E; contradiction|].
    split; [discriminate|].
    split; [intros E; inversion E; contradiction|].
    intros code' E _. inversion E; subst code'.
    exists earlier, (GetTradeType i' code). auto.
  - (* the scan ended without an error *)
    destruct (reads_succeeded _ Hgets) as [Hsucc Hstorage].
    assert (type_found = true ->
            exists n0, (n0 < Z.to_nat kCount)%nat
              /\ gets = reads_from 0 (S n0)
              /\ fst (scan_read 0 s1 n0) = kErrorCodeOk
              /\ same_id (snd (scan_read 0 s1 n0))
                   (trade_type_id_of (random mod kCount)) = true
              /\ forall j, (j < n0)%nat ->
                   fst (scan_read 0 s1 j) = kErrorCodeOk
                   /\ same_id (snd (scan_read 0 s1 j))
                        (trade_type_id_of (random mod kCount)) = false) as Hscan.
    { intros ->. destruct Hend as (Hn & -> & Hc & Hm). exists n. auto. }
    destruct (ASSERT_ND type_found) eqn:Hassert; cbn [negb fst snd].
    2: { (* the assertion stops the call *)
      split; [exact Hstorage|]. split.
      { split; [discriminate|].
        intros [(found & E & Hf) _]. inversion E; subst. congruence. }
      split; [discriminate|].
      split; [intros E; inversion E; subst; exact (Hscan eq_refl)|].
      split; [discriminate|]. discriminate. }
    destruct (get_articifical_current_dts s2) as [now_dts s3]. cbn [fst snd].
    destruct (get_artificial_new_trade_id s3) as [tid s4]. cbn [fst snd].
    set (record := mkTradeData now_dts tid (symb_id_ uninitialized_record)).
    destruct (trades_insert_record tid record sizeof_record s4) as [code1 s5].
    cbn [fst snd].
    assert (NDEBUG = false -> type_found = true) as Hdebug.
    { intros E. unfold ASSERT_ND in Hassert. rewrite E in Hassert. exact Hassert. }
    destruct (ErrorCode_eqb code1 kErrorCodeOk) eqn:H1; cbn [negb fst snd].
    + apply ErrorCode_eqb_eq in H1. subst code1.
      destruct (trades_index_insert_record_normalized _ tid sizeof_tid s5)
        as [code2 s6]. cbn [fst snd].
      destruct (ErrorCode_eqb code2 kErrorCodeOk) eqn:H2; cbn [negb fst snd].
      * apply ErrorCode_eqb_eq in H2. subst code2.
        split; [rewrite !forallb_app, Hstorage; reflexivity|].
        split; [split; [intros _; eauto|reflexivity]|].
        split; [intros E _; rewrite (Hdebug E); reflexivity|].
        split; [intros E; inversion E; subst; exact (Hscan eq_refl)|].
        split; [|intros code' E Hne; inversion E; subst; contradiction].
        intros _. rewrite <- app_assoc. repeat split; auto.
      * assert (code2 <> kErrorCodeOk) as Hne
          by (intros E; apply ErrorCode_eqb_eq in E; congruence).
        split; [rewrite !forallb_app, Hstorage; reflexivity|].
        split.
        { split; [intros E; inversion E; contradiction|].
          intros (_ & _ & E). contradiction. }
        split; [intros _ E; inversion E; contradiction|].
        split; [intros E; inversion E; subst; exact (Hscan eq_refl)|].
        split; [intros E; inversion E; contradiction|].
        intros code' E _. inversion E; subst code'.
        eexists _, _. split; [reflexivity|]. split; [|reflexivity].
        rewrite Forall_app. split; [exact Hsucc|].
        constructor; [reflexivity|constructor].
    + assert (code1 <> kErrorCodeOk) as Hne
        by (intros E; apply ErrorCode_eqb_eq in E; congruence).
      split; [rewrite !forallb_app, Hstorage; reflexivity|].
      split.
      { split; [intros E; inversion E; contradiction|].
        intros (_ & E & _). contradiction. }
      split; [intros _ E; inversion E; contradiction|].
      split; [intros E; inversion E; subst; exact (Hscan eq_refl)|].
      split; [intros E; inversion E; contradiction|].
      intros code' E _. inversion E; subst code'.
      exists gets, (InsertTrade tid record sizeof_record code1). auto.
Qed.

(** When the scan ends without a match, a build with [ASSERT_ND] active
    stops there, and a build with [NDEBUG] goes on to the inserts. *)
Lemma do_trade_order_type_missing (s : State) :
  fst (fst (trade_type_lookup s)) = inr false ->
  if NDEBUG
  then exists code, fst (fst (do_trade_order s)) = Returned code
  else fst (fst (do_trade_order s)) = AssertionFailed.
Proof.
  unfold trade_type_lookup, do_trade_order.
  destruct (next_uint32 s) as [random s1].
  destruct (find_trade_type _ _ _ _ _) as [[r s2] trace]. cbn [fst].
  intros ->. unfold ASSERT_ND. destruct NDEBUG; cbn [orb negb fst]; [|reflexivity].
  destruct (get_articifical_current_dts s2) as [now_dts s3].
  destruct (get_artificial_new_trade_id s3) as [tid s4].
  destruct (trades_insert_record _ _ _ _) as [code1 s5].
  destruct (negb (ErrorCode_eqb code1 kErrorCodeOk)); [eauto|].
  destruct (trades_index_insert_record_normalized _ _ _ _) as [code2 s6].
  destruct (negb (ErrorCode_eqb code2 kErrorCodeOk)); eauto.
Qed.

(** *** The scan and the inserts on every path *)

(** A scan over a TRADE_TYPE whose reads succeed and show [table]: when
    one of the records it may visit carries the identifier, the scan finds
    the first such record and reads no record after it. *)
Lemma find_trade_type_found (table : Z -> TradeTypeData) (in_trade_type_id : string) :
  (forall i s, fst (fst (trade_types_get_record i s)) = kErrorCodeOk
               /\ snd (fst (trade_types_get_record i s)) = table i) ->
  forall (k remaining : nat) (i : Z) (s : State) (trace : list Call),
    (k < remaining)%nat ->
    same_id (table (i + Z.of_nat k)) in_trade_type_id = true ->
    exists n s',
      (n <= k)%nat
      /\ same_id (table (i + Z.of_nat n)) in_trade_type_id = true
      /\ (forall j, (j < n)%nat ->
            same_id (table (i + Z.of_nat j)) in_trade_type_id = false)
      /\ find_trade_type remaining i in_trade_type_id s trace
         = (inr true, s', trace ++ reads_from i (S n)).
Proof.
  intros Hread. induction k as [|k IH]; intros remaining i s trace Hk Hmatch;
    (destruct remaining as [|remaining]; [lia|]); cbn [find_trade_type];
    destruct (Hread i s) as [Hcode Hrec];
    destruct (trade_types_get_record i s) as [[code tt_record] s1];
    cbn [fst snd] in Hcode, Hrec; subst code tt_record;
    cbn [ErrorCode_eqb negb].
  - replace (i + Z.of_nat 0) with i in Hmatch by lia. rewrite Hmatch.
    exists 0%nat, s1. replace (i + Z.of_nat 0) with i by lia.
    split; [lia|]. split; [exact Hmatch|]. split; [intros j Hj; lia|].
    rewrite reads_from_S. reflexivity.
  - destruct (same_id (table i) in_trade_type_id) eqn:Hhere.
    + exists 0%nat, s1. replace (i + Z.of_nat 0) with i by lia.
      split; [lia|]. split; [exact Hhere|]. split; [intros j Hj; lia|].
      rewrite reads_from_S. reflexivity.
    + destruct (IH remaining (i + 1) s1 (trace ++ [GetTradeType i kErrorCodeOk]))
        as (n & s' & Hn & Hfound & Hbefore & Hrun); [lia| |].
      { replace (i + 1 + Z.of_nat k) with (i + Z.of_nat (S k)) by lia. exact Hmatch. }
      exists (S n), s'. split; [lia|]. split.
      { replace (i + Z.of_nat (S n)) with (i + 1 + Z.of_nat n) by lia. exact Hfound. }
      split.
      { intros j Hj. destruct j as [|j].
        - replace (i + Z.of_nat 0) with i by lia. exact Hhere.
        - replace (i + Z.of_nat (S j)) with (i + 1 + Z.of_nat j) by lia.
          apply Hbefore. lia. }
      rewrite Hrun, <- app_assoc, (reads_from_S i (S n)). reflexivity.
Qed.

(** X18.  When every read of TRADE_TYPE succeeds and shows [table], and
    one of the first [kCount] records of [table] carries the identifier
    drawn, the scan reads records 0, 1, ... up to the first that carries
    it and no further, [type_found] is set, and [ASSERT_ND(type_found)]
    holds: [do_trade_order] returns a code in a build with or without
    [NDEBUG]. *)
Theorem trade_type_found (table : Z -> TradeTypeData) (s : State) (k : nat) :
  (forall i s', fst (fst (trade_types_get_record i s')) = kErrorCodeOk
                /\ snd (fst (trade_types_get_record i s')) = table i) ->
  (k < Z.to_nat kCount)%nat ->
  let in_trade_type_id := trade_type_id_of (fst (next_uint32 s) mod kCount) in
  same_id (table (Z.of_nat k)) in_trade_type_id = true ->
  exists n s2,
    (n <= k)%nat
    /\ same_id (table (Z.of_nat n)) in_trade_type_id = true
    /\ (forall j, (j < n)%nat -> same_id (table (Z.of_nat j)) in_trade_type_id = false)
    /\ trade_type_lookup s = (inr true, s2, reads_from 0 (S n))
    /\ exists code, fst (fst (do_trade_order s)) = Returned code.
Proof.
  intros Hread Hk in_trade_type_id Hmatch. subst in_trade_type_id.
  unfold trade_type_lookup, do_trade_order.
  destruct (next_uint32 s) as [random s1]. cbn [fst] in *.
  destruct (find_trade_type_found table _ Hread k (Z.to_nat kCount) 0 s1 [] Hk Hmatch)
    as (n & s2 & Hn & Hfound & Hbefore & Hrun).
  exists n, s2. split; [exact Hn|]. split; [exact Hfound|].
  split; [exact Hbefore|]. rewrite Hrun. cbn [app]. split; [reflexivity|].
  unfold ASSERT_ND. rewrite orb_true_r. cbn [negb].
  destruct (get_articifical_current_dts s2) as [now_dts s3].
  destruct (get_artificial_new_trade_id s3) as [tid s4].
  destruct (trades_insert_record _ _ _ _) as [code1 s5].
  destruct (negb (ErrorCode_eqb code1 kErrorCodeOk)); [eauto|].
  destruct (trades_index_insert_record_normalized _ _ _ _) as [code2 s6].
  destruct (negb (ErrorCode_eqb code2 kErrorCodeOk)); eauto.
Qed.

(** A scan that ends without a match and without an error has read all
    the records it was given. *)
Lemma find_trade_type_exhausted (remaining : nat) (in_trade_type_id : string) :
  forall i s trace s' trace',
    find_trade_type remaining i in_trade_type_id s trace = (inr false, s', trace') ->
    trace' = trace ++ reads_from i remaining.
Proof.
  induction remaining as [|remaining IH]; intros i s trace s' trace' H.
  - cbn in H. inversion H; subst. unfold reads_from. cbn. rewrite app_nil_r.
    reflexivity.
  - cbn [find_trade_type] in H.
    destruct (trade_types_get_record i s) as [[code tt_record] s1].
    destruct (ErrorCode_eqb code kErrorCodeOk) eqn:Hcode; cbn [negb] in H;
      [|discriminate].
    apply ErrorCode_eqb_eq in Hcode. subst code.
    destruct (same_id tt_record in_trade_type_id); [discriminate|].
    rewrite (IH _ _ _ _ _ H), <- app_assoc, reads_from_S. reflexivity.
Qed.

(** X19.  When the scan ends without having found the type, it has
    read all [kCount] records of TRADE_TYPE.  A build with [ASSERT_ND]
    active stops there: nothing is inserted, and neither the clock nor the
    trade id generator is consulted.  A build with [NDEBUG] goes on: it
    draws a dts and a trade id and inserts the trade into TRADES although
    its type does not exist. *)
Theorem trade_type_not_found (s : State) :
  fst (fst (trade_type_lookup s)) = inr false ->
  let s2 := snd (fst (trade_type_lookup s)) in
  let reads := snd (trade_type_lookup s) in
  reads = reads_from 0 (Z.to_nat kCount)
  /\ (NDEBUG = false -> do_trade_order s = (AssertionFailed, s2, reads))
  /\ (NDEBUG = true ->
      let now_dts := fst (get_articifical_current_dts s2) in
      let tid :=
        fst (get_artificial_new_trade_id (snd (get_articifical_current_dts s2))) in
      exists code s' code1 rest,
        do_trade_order s
        = (Returned code, s',
           reads ++ InsertTrade tid
                      (mkTradeData now_dts tid (symb_id_ uninitialized_record))
                      sizeof_record code1 :: rest)).
Proof.
  unfold trade_type_lookup, do_trade_order.
  destruct (next_uint32 s) as [random s1].
  destruct (find_trade_type _ _ _ _ _) as [[r s2] trace] eqn:Hfind. cbn [fst snd].
  intros ->. pose proof (find_trade_type_exhausted _ _ _ _ _ _ _ Hfind) as Htrace.
  cbn [app] in Htrace. split; [exact Htrace|]. unfold ASSERT_ND. split; intros ->.
  - reflexivity.
  - cbn [orb negb].
    destruct (get_articifical_current_dts s2) as [now_dts s3]. cbn [fst snd].
    destruct (get_artificial_new_trade_id s3) as [tid s4]. cbn [fst snd].
    destruct (trades_insert_record _ _ _ _) as [code1 s5].
    destruct (negb (ErrorCode_eqb code1 kErrorCodeOk)).
    + exists code1, s5, code1, []. reflexivity.
    + destruct (trades_index_insert_record_normalized _ _ _ _) as [code2 s6].
      destruct (negb (ErrorCode_eqb code2 kErrorCodeOk));
        eexists _, _, code1, _; rewrite <- app_assoc; reflexivity.
Qed.

(** X20.  Every run of [do_trade_order], in every build, takes one of
    four paths.  Each starts with reads of TRADE_TYPE that all succeeded.
    Then either (a) one more read fails: it is the last call, nothing is
    inserted and its code is returned; or (b) [ASSERT_ND(type_found)]
    stops the call, in a build where it is active: nothing is inserted; or
    (c) the insert into TRADES fails: it is the only insert and its code
    is returned; or (d) the insert into TRADES succeeds and is followed by
    one insert into the secondary index, of the same trade id, whose code
    is returned.  So the index is written only after TRADES was, ok is
    returned only on path (d), and no transaction is begun, committed or
    aborted.  The record inserted has its [symb_id_] as the declaration
    left it, never assigned, and the secondary key is composed from that
    value. *)
Theorem do_trade_order_writes (s : State) :
  let outcome := fst (fst (do_trade_order s)) in
  let trace := snd (do_trade_order s) in
  exists reads,
    Forall (fun c => exists j, c = GetTradeType j kErrorCodeOk) reads
    /\ ((exists i code,
           trace = reads ++ [GetTradeType i code]
           /\ code <> kErrorCodeOk
           /\ outcome = Returned code)
        \/ (trace = reads
            /\ outcome = AssertionFailed
            /\ NDEBUG = false)
        \/ (exists tid record code,
              trace = reads ++ [InsertTrade tid record sizeof_record code]
              /\ code <> kErrorCodeOk
              /\ outcome = Returned code
              /\ id_ record = tid
              /\ symb_id_ record = symb_id_ uninitialized_record)
        \/ (exists tid record key code,
              trace = reads ++ [InsertTrade tid record sizeof_record kErrorCodeOk;
                                InsertTradeIndex key tid sizeof_tid code]
              /\ outcome = Returned code
              /\ id_ record = tid
              /\ symb_id_ record = symb_id_ uninitialized_record
              /\ key = to_symb_dts_key (symb_id_ uninitialized_record)
                         (dts_ record) worker_id_)).
Proof.
  unfold do_trade_order.
  destruct (next_uint32 s) as [random s1].
  destruct (find_trade_type (Z.to_nat kCount) 0
              (trade_type_id_of (random mod kCount)) s1 [])
    as [[r s2] trace] eqn:Hfind.
  destruct (find_trade_type_trace _ _ _ _ _ _ _ _ Hfind) as (gets & Htrace & Hgets).
  cbn [app] in Htrace. subst trace.
  destruct r as [code|type_found].
  - destruct Hgets as (Hne & earlier & i' & -> & Hok). cbn [fst snd].
    exists earlier. split; [exact Hok|]. left. exists i', code. auto.
  - exists gets. split; [exact Hgets|].
    destruct (ASSERT_ND type_found) eqn:Hassert; cbn [negb fst snd].
    2: { right. left. split; [reflexivity|]. split; [reflexivity|].
         unfold ASSERT_ND in Hassert. destruct NDEBUG; [discriminate|reflexivity]. }
    destruct (get_articifical_current_dts s2) as [now_dts s3].
    destruct (get_artificial_new_trade_id s3) as [tid s4].
    set (record := mkTradeData now_dts tid (symb_id_ uninitialized_record)).
    destruct (trades_insert_record tid record sizeof_record s4) as [code1 s5].
    destruct (ErrorCode_eqb code1 kErrorCodeOk) eqn:H1; cbn [negb fst snd].
    + apply ErrorCode_eqb_eq in H1. subst code1.
      destruct (trades_index_insert_record_normalized _ tid sizeof_tid s5)
        as [code2 s6].
      right. right. right.
      exists tid, record, (to_symb_dts_key (symb_id_ record) now_dts worker_id_), code2.
      destruct (ErrorCode_eqb code2 kErrorCodeOk) eqn:H2; cbn [negb fst snd];
        rewrite <- app_assoc; cbn [app];
        [apply ErrorCode_eqb_eq in H2; subst code2|]; repeat split; auto.
    + assert (code1 <> kErrorCodeOk) as Hne
        by (intros E; apply ErrorCode_eqb_eq in E; congruence).
      right. right. left. exists tid, record, code1. repeat split; auto.
Qed.

End TradeOrder.

(** *** A concrete client *)

(** TRADE_TYPE as loaded: the five trade types. *)
Definition loaded_trade_types : list TradeTypeData :=
  map mkTradeTypeData ["TLB"; "TLS"; "TMB"; "TMS"; "TSL"]%string.

(** A client whose state counts the trades it has issued, whose storages
    accept every call, and whose keys pack symbol, dts and worker. *)
Definition demo_get_record (i : Z) (s : nat) : ErrorCode * TradeTypeData * nat :=
  (kErrorCodeOk, nth (Z.to_nat i) loaded_trade_types (mkTradeTypeData ""), s).

Definition demo_key (symb_id dts worker : Z) : Z :=
  symb_id * 2 ^ 48 + dts * 2 ^ 16 + worker.

Definition demo_do_trade_order (NDEBUG : bool) (s : nat)
  : Outcome * nat * list Call :=
  do_trade_order nat (fun s => (7, s)) demo_get_record
    (fun s => (1000 + Z.of_nat s, s)) (fun s => (Z.of_nat s, S s))
    (fun _ _ _ s => (kErrorCodeOk, s)) (fun _ _ _ s => (kErrorCodeOk, s))
    demo_key 3 0 1 2 3 5 24 8 (mkTradeData 0 0 9) NDEBUG s.

Lemma do_trade_order_calls_witness :
  fst (fst (demo_do_trade_order false 41)) = Returned kErrorCodeOk
  /\ snd (demo_do_trade_order false 41)
     = [GetTradeType 0 kErrorCodeOk; GetTradeType 1 kErrorCodeOk;
        GetTradeType 2 kErrorCodeOk;
        InsertTrade 41 (mkTradeData 1041 41 9) 24 kErrorCodeOk;
        InsertTradeIndex (demo_key 9 1041 3) 41 8 kErrorCodeOk].
Proof.
  pose proof (do_trade_order_calls nat (fun s => (7, s)) demo_get_record
                (fun s => (1000 + Z.of_nat s, s)) (fun s => (Z.of_nat s, S s))
                (fun _ _ _ s => (kErrorCodeOk, s)) (fun _ _ _ s => (kErrorCodeOk, s))
                demo_key 3 0 1 2 3 5 24 8 (mkTradeData 0 0 9) false 41%nat)
    as (_ & _ & _ & _ & Hok & _).
  split; [reflexivity|]. exact (proj1 (Hok eq_refl)).
Defined.

Lemma do_trade_order_writes_witness :
  exists reads tid record key,
    Forall (fun c => exists j, c = GetTradeType j kErrorCodeOk) reads
    /\ snd (demo_do_trade_order false 41)
       = reads ++ [InsertTrade tid record 24 kErrorCodeOk;
                   InsertTradeIndex key tid 8 kErrorCodeOk]
    /\ symb_id_ record = 9
    /\ key = demo_key 9 (dts_ record) 3.
Proof.
  destruct (do_trade_order_writes nat (fun s => (7, s)) demo_get_record
              (fun s => (1000 + Z.of_nat s, s)) (fun s => (Z.of_nat s, S s))
              (fun _ _ _ s => (kErrorCodeOk, s)) (fun _ _ _ s => (kErrorCodeOk, s))
              demo_key 3 0 1 2 3 5 24 8 (mkTradeData 0 0 9) false 41%nat)
    as (reads & Hreads & [(i & code & _ & Hne & Hout)
                         |[(_ & Hout & _)
                         |[(tid & record & code & _ & Hne & Hout & _)
                         |(tid & record & key & code & Htrace & Hout & _ & Hsymb & Hkey)]]]).
  - vm_compute in Hout. inversion Hout. subst code. contradiction.
  - vm_compute in Hout. discriminate.
  - vm_compute in Hout. inversion Hout. subst code. contradiction.
  - exists reads, tid, record, key.
    assert (code = kErrorCodeOk) as -> by (vm_compute in Hout; inversion Hout; reflexivity).
    split; [exact Hreads|]. split; [exact Htrace|]. split; [exact Hsymb|exact Hkey].
Defined.

(** A TRADE_TYPE that was not loaded: every read succeeds and shows an
    empty identifier. *)
Definition unloaded_get_record (i : Z) (s : nat) : ErrorCode * TradeTypeData * nat :=
  (kErrorCodeOk, mkTradeTypeData "", s).

Definition unloaded_do_trade_order (NDEBUG : bool) (s : nat)
  : Outcome * nat * list Call :=
  do_trade_order nat (fun s => (7, s)) unloaded_get_record
    (fun s => (1000 + Z.of_nat s, s)) (fun s => (Z.of_nat s, S s))
    (fun _ _ _ s => (kErrorCodeOk, s)) (fun _ _ _ s => (kErrorCodeOk, s))
    demo_key 3 0 1 2 3 5 24 8 (mkTradeData 0 0 9) NDEBUG s.

(** With [NDEBUG], on a TRADE_TYPE that does not hold the type drawn, the
    lookup ends with [type_found] false and [do_trade_order] still inserts
    the trade and returns ok. *)
Lemma do_trade_order_ok_without_trade_type :
  fst (fst (trade_type_lookup nat (fun s => (7, s)) unloaded_get_record
              0 1 2 3 5 41%nat)) = inr false
  /\ fst (fst (unloaded_do_trade_order true 41)) = Returned kErrorCodeOk
  /\ snd (unloaded_do_trade_order true 41)
     = [GetTradeType 0 kErrorCodeOk; GetTradeType 1 kErrorCodeOk;
        GetTradeType 2 kErrorCodeOk; GetTradeType 3 kErrorCodeOk;
        GetTradeType 4 kErrorCodeOk;
        InsertTrade 41 (mkTradeData 1041 41 9) 24 kErrorCodeOk;
        InsertTradeIndex (demo_key 9 1041 3) 41 8 kErrorCodeOk].
Proof. vm_compute. repeat split. Qed.

Lemma trade_type_found_witness :
  exists s2,
    trade_type_lookup nat (fun s => (7, s)) demo_get_record 0 1 2 3 5 41%nat
    = (inr true, s2,
       [GetTradeType 0 kErrorCodeOk; GetTradeType 1 kErrorCodeOk;
        GetTradeType 2 kErrorCodeOk]).
Proof.
  destruct (trade_type_found nat (fun s => (7, s)) demo_get_record
              (fun s => (1000 + Z.of_nat s, s)) (fun s => (Z.of_nat s, S s))
              (fun _ _ _ s => (kErrorCodeOk, s)) (fun _ _ _ s => (kErrorCodeOk, s))
              demo_key 3 0 1 2 3 5 24 8 (mkTradeData 0 0 9) false
              (fun i => nth (Z.to_nat i) loaded_trade_types (mkTradeTypeData ""))
              41%nat 2%nat)
    as (n & s2 & Hn & Hfound & Hbefore & Hrun & _).
  - intros i s'. split; reflexivity.
  - vm_compute. lia.
  - reflexivity.
  - exists s2. rewrite Hrun.
    assert (n = 2%nat) as ->; [|reflexivity].
    destruct n as [|[|[|n]]]; try lia; try reflexivity;
      vm_compute in Hfound; discriminate.
Defined.

Lemma trade_type_not_found_witness :
  unloaded_do_trade_order false 41
  = (AssertionFailed, 41%nat,
     [GetTradeType 0 kErrorCodeOk; GetTradeType 1 kErrorCodeOk;
      GetTradeType 2 kErrorCodeOk; GetTradeType 3 kErrorCodeOk;
      GetTradeType 4 kErrorCodeOk]).
Proof.
  exact (proj1 (proj2 (trade_type_not_found nat (fun s => (7, s)) unloaded_get_record
                  (fun s => (1000 + Z.of_nat s, s)) (fun s => (Z.of_nat s, S s))
                  (fun _ _ _ s => (kErrorCodeOk, s)) (fun _ _ _ s => (kErrorCodeOk, s))
                  demo_key 3 0 1 2 3 5 24 8 (mkTradeData 0 0 9) false 41%nat
                  eq_refl)) eq_refl).
Defined.

End Tpce.
